(** * RSTM: Cohort-Eager, LLT-AMD64 and Pipeline-Turbo

    A shallow embedding of three software-transactional-memory algorithms
    (src/lib/CohortsEager.cpp, src/libstm/algs/LLTAMD64.cpp and
    src/libstm/algs/PipelineTurbo.cpp) and the properties their
    specification states about them.

    One call of an algorithm entry point is a function from the state it
    can touch (the calling thread's descriptor, the global coordination
    words, and the heap made of the orec table and user memory) to an
    [outcome].  No other thread runs inside one call unless the function
    takes an explicit interference argument. *)

From Stdlib Require Import ZArith Lia List Bool.
From stdpp Require Import base option list gmap.
Import ListNotations.

Local Open Scope Z_scope.

(** ** Machine integers *)

Module Word.

(** [uintptr_t] on the AMD64 target: 64 bits, unsigned. *)
Definition to_uintptr (z : Z) : Z := z mod 2 ^ 64.

(** [intptr_t]: 64 bits, two's complement. *)
Definition to_intptr (z : Z) : Z := (z + 2 ^ 63) mod 2 ^ 64 - 2 ^ 63.

(** [int32_t]: two's complement, as the [__sync] builtins and the
    increments of the [volatile int32_t] counters compute it. *)
Definition to_int32 (z : Z) : Z := (z + 2 ^ 31) mod 2 ^ 32 - 2 ^ 31.

(** The truth value of a C integer expression used as a condition. *)
Definition c_true (z : Z) : bool := negb (z =? 0).

End Word.

(** Arithmetic of the conversions. *)

Module WordFacts.
Import Word.

Lemma to_uintptr_range (z : Z) : 0 <= to_uintptr z < 2 ^ 64.
Proof. unfold to_uintptr. apply Z.mod_pos_bound. lia. Qed.

Lemma to_uintptr_small (z : Z) : 0 <= z < 2 ^ 64 -> to_uintptr z = z.
Proof. unfold to_uintptr. apply Z.mod_small. Qed.

Lemma to_uintptr_to_intptr (z : Z) : to_uintptr (to_intptr z) = to_uintptr z.
Proof.
  unfold to_uintptr, to_intptr. rewrite Zminus_mod_idemp_l. f_equal. lia.
Qed.

Lemma to_uintptr_idem (z : Z) : to_uintptr (to_uintptr z) = to_uintptr z.
Proof. unfold to_uintptr. apply Z.mod_mod. lia. Qed.

(** The word after the word before [z] is [z]. *)
Lemma to_uintptr_pred_succ (z : Z) :
  to_uintptr (to_uintptr (to_uintptr z - 1) + 1) = to_uintptr z.
Proof.
  unfold to_uintptr.
  rewrite Zplus_mod_idemp_l.
  replace (z mod 2 ^ 64 - 1 + 1) with (z mod 2 ^ 64) by lia.
  apply Z.mod_mod. lia.
Qed.

Lemma to_uintptr_succ_pred (z : Z) :
  to_uintptr (to_uintptr (z + 1) - 1) = to_uintptr z.
Proof.
  unfold to_uintptr. rewrite Zminus_mod_idemp_l. f_equal. lia.
Qed.

Lemma to_int32_range (z : Z) : - 2 ^ 31 <= to_int32 z < 2 ^ 31.
Proof.
  unfold to_int32.
  pose proof (Z.mod_pos_bound (z + 2 ^ 31) (2 ^ 32)). lia.
Qed.

Lemma to_int32_small (z : Z) : - 2 ^ 31 <= z < 2 ^ 31 -> to_int32 z = z.
Proof. intros H. unfold to_int32. rewrite Z.mod_small by lia. lia. Qed.

(** A 32-bit increment followed by a 32-bit decrement gives the value back,
    also across the wrap. *)
Lemma to_int32_succ_pred (z : Z) :
  - 2 ^ 31 <= z < 2 ^ 31 -> to_int32 (to_int32 (z + 1) - 1) = z.
Proof.
  intros H. unfold to_int32.
  replace ((z + 1 + 2 ^ 31) mod 2 ^ 32 - 2 ^ 31 - 1 + 2 ^ 31)
    with ((z + 1 + 2 ^ 31) mod 2 ^ 32 - 1) by lia.
  rewrite Zminus_mod_idemp_l.
  replace (z + 1 + 2 ^ 31 - 1) with (z + 2 ^ 31) by lia.
  rewrite Z.mod_small by lia. lia.
Qed.

(** A store under the full mask replaces the word. *)
Lemma full_mask_store (old w : Z) :
  0 <= old < 2 ^ 64 -> 0 <= w < 2 ^ 64 ->
  Z.lor (Z.ldiff old (2 ^ 64 - 1)) (Z.land w (2 ^ 64 - 1)) = w.
Proof.
  intros Hold Hw.
  replace (2 ^ 64 - 1) with (Z.ones 64) by reflexivity.
  rewrite Z.ldiff_ones_r, Z.land_ones by lia.
  rewrite Z.shiftr_div_pow2, Z.div_small, Z.shiftl_0_l by lia.
  rewrite Z.mod_small by lia. reflexivity.
Qed.

End WordFacts.

(** ** The heap: orec table and user memory *)

Module Heap.

(** Modelled from the spec: [orec_t] is declared outside the sources.
    Section 3: [v.all] carries the current value, a version number or the
    lock word of the owner, and [p] the version saved when the orec was
    acquired. *)
Record orec_t := { v_all : Z; p : Z }.

(** One store of the running thread to the heap; the heap keeps them in
    program order (a ghost history, not a field of the program). *)
Inductive store_event :=
| StOrecV (o ver : Z)
| StOrecP (o ver : Z)
| StWord (a w : Z).

(** [orecs] is the orec table indexed by stripe, [mem] the words of user
    memory by address.  An absent key is a zero-initialised cell. *)
Record Shared := {
  mem : gmap Z Z;
  orecs : gmap Z orec_t;
  stores : list store_event
}.

Definition orec_at (sh : Shared) (o : Z) : orec_t :=
  default {| v_all := 0; p := 0 |} (orecs sh !! o).

(** [o->v.all] *)
Definition read_v (sh : Shared) (o : Z) : Z := v_all (orec_at sh o).

(** [o->p] *)
Definition read_p (sh : Shared) (o : Z) : Z := p (orec_at sh o).

(** [*addr] *)
Definition load (sh : Shared) (a : Z) : Z := default 0 (mem sh !! a).

(** [o->v.all = ver] *)
Definition set_v (o ver : Z) (sh : Shared) : Shared :=
  {| mem := mem sh;
     orecs := <[o := {| v_all := ver; p := read_p sh o |}]> (orecs sh);
     stores := stores sh ++ [StOrecV o ver] |}.

(** [o->p = ver] *)
Definition set_p (o ver : Z) (sh : Shared) : Shared :=
  {| mem := mem sh;
     orecs := <[o := {| v_all := read_v sh o; p := ver |}]> (orecs sh);
     stores := stores sh ++ [StOrecP o ver] |}.

(** [*addr = w] *)
Definition store (a w : Z) (sh : Shared) : Shared :=
  {| mem := <[a := w]> (mem sh);
     orecs := orecs sh;
     stores := stores sh ++ [StWord a w] |}.

(** Modelled from the spec: the masked store behind [writeTo] and
    [writeback], both declared outside the sources.  Section 3 gives a
    redo-log entry a byte mask: the bytes of [w] selected by [mask] are
    stored, the other bytes of the word are kept. *)
Definition store_masked (a w mask : Z) (sh : Shared) : Shared :=
  store a (Z.lor (Z.ldiff (load sh a) mask) (Z.land w mask)) sh.

(** Modelled from the spec: [bcasptr(&o->v.all, expected, desired)] is
    declared outside the sources.  Section 4.1: the compare-and-swap of
    [acquire], which installs [desired] when the orec holds [expected] and
    tells whether it did. *)
Definition bcasptr (o expected desired : Z) (sh : Shared) : bool * Shared :=
  if read_v sh o =? expected then (true, set_v o desired sh) else (false, sh).

End Heap.

(** ** The redo log *)

Module WriteSet.

(** Modelled from the spec: the WriteSet class is declared in a header that
    is not among the sources.  Section 4.5: address-keyed, [insert]
    overwrites by last-write-wins, [find] resolves read-after-write,
    iteration is in insertion order; section 3: an entry maps an address to
    a (value, byte-mask) pair. *)
Record WriteSetEntry := { addr : Z; val : Z; mask : Z }.

(** Modelled from the spec: [size()], the number of entries. *)
Definition size (ws : list WriteSetEntry) : Z := Z.of_nat (length ws).

(** Modelled from the spec: the update of an entry by a later write to its
    address.  The last write wins on the bytes it covers; the entry keeps
    its place. *)
Definition update (old new : WriteSetEntry) : WriteSetEntry :=
  {| addr := addr old;
     val := Z.lor (Z.land (val new) (mask new)) (Z.ldiff (val old) (mask new));
     mask := Z.lor (mask old) (mask new) |}.

(** Modelled from the spec: [insert], address-keyed, a new address is
    appended. *)
Fixpoint insert (e : WriteSetEntry) (ws : list WriteSetEntry) : list WriteSetEntry :=
  match ws with
  | [] => [e]
  | x :: rest =>
      if addr x =? addr e then update x e :: rest else x :: insert e rest
  end.

(** Modelled from the spec: [find], the entry of an address if there is
    one. *)
Fixpoint find (a : Z) (ws : list WriteSetEntry) : option WriteSetEntry :=
  match ws with
  | [] => None
  | x :: rest => if addr x =? a then Some x else find a rest
  end.

(** [insert] keeps the log address-keyed: no address gets a second entry. *)
Lemma insert_addresses (e : WriteSetEntry) (ws : list WriteSetEntry) (a : Z) :
  a ∈ map addr (insert e ws) -> a = addr e \/ a ∈ map addr ws.
Proof.
  induction ws as [|x ws IH]; cbn [insert map].
  - intros Hin. apply list_elem_of_singleton in Hin. by left.
  - destruct (addr x =? addr e) eqn:Hsame; cbn [map update addr].
    + intros Hin. by right.
    + intros Hin. apply elem_of_cons in Hin as [->|Hin].
      * right. apply elem_of_cons. by left.
      * destruct (IH Hin) as [->|Hold]; [by left|].
        right. apply elem_of_cons. by right.
Qed.

Lemma insert_NoDup (e : WriteSetEntry) (ws : list WriteSetEntry) :
  NoDup (map addr ws) -> NoDup (map addr (insert e ws)).
Proof.
  induction ws as [|x ws IH]; cbn [insert map]; intros Hnd.
  - apply NoDup_singleton.
  - apply NoDup_cons in Hnd as [Hfresh Hnd].
    destruct (addr x =? addr e) eqn:Hsame; cbn [map update addr].
    + apply NoDup_cons. by split.
    + apply NoDup_cons. split; [|by apply IH].
      intros Hin. destruct (insert_addresses _ _ _ Hin) as [Heq|Hold].
      * apply Z.eqb_neq in Hsame. contradiction.
      * contradiction.
Qed.

(** After [insert], [find] at the address gives an entry for it. *)
Lemma find_insert (e : WriteSetEntry) (ws : list WriteSetEntry) :
  exists log, find (addr e) (insert e ws) = Some log /\ addr log = addr e.
Proof.
  induction ws as [|x ws IH]; cbn [insert find].
  - rewrite Z.eqb_refl. eauto.
  - destruct (addr x =? addr e) eqn:Hsame; cbn [find update addr].
    + rewrite Hsame. apply Z.eqb_eq in Hsame. eauto.
    + rewrite Hsame. exact IH.
Qed.

End WriteSet.

(** ** Outcomes of a call *)

(** [Returns a s]: the call returns [a] in state [s].
    [Aborts s]: the call reached the abort primitive ([tmabort],
    [_ITM_abortTransaction]) in state [s]; the primitive does not return.
    [Spins s]: the call is in a busy-wait whose condition cannot change
    without another thread.
    [Fatal s]: the call reached [UNRECOVERABLE], which ends the process. *)
Inductive outcome (A S : Type) : Type :=
| Returns (a : A) (s : S)
| Aborts (s : S)
| Spins (s : S)
| Fatal (s : S).

Arguments Returns {A S} a s.
Arguments Aborts {A S} s.
Arguments Spins {A S} s.
Arguments Fatal {A S} s.

Definition bind {A B S : Type} (m : outcome A S) (k : A -> S -> outcome B S) : outcome B S :=
  match m with
  | Returns a s => k a s
  | Aborts s => Aborts s
  | Spins s => Spins s
  | Fatal s => Fatal s
  end.

Notation "x <- m ;; k" := (bind m (fun x => k))
  (at level 100, m at next level, right associativity).

(** The hooks of the external collaborators (allocator bridge and user
    callbacks), recorded in call order. *)
Inductive hook := onTxBegin | onTxCommit | onTxAbort | onCommit | onRollback.

(** A hash in the shape the specification gives for [get_orec] (the address
    shifted right, reduced to the size of the table), for the concrete
    runs below. *)
Module Demo.

Definition get_orec (a : Z) : Z := Z.shiftr a 3 mod 1024.

End Demo.

(** ** Cohort-Eager (src/lib/CohortsEager.cpp) *)

Module CohortsEager.

(** Modelled from the spec: the descriptor [TX] is declared outside the
    sources (tx.hpp).  Section 3 lists its fields; the ones this algorithm
    uses are kept.  [nesting_depth] and the statistics counters are
    unbounded integers, [order] is an [intptr_t] and [ts_cache] a
    [uintptr_t], as the casts in the code show.  [hooks] records the calls
    to [allocator] and [userCallbacks]. *)
Record TX := {
  nesting_depth : Z;
  turbo : bool;
  ts_cache : Z;
  order : Z;
  r_orecs : list Z;
  writes : list WriteSet.WriteSetEntry;
  undo_log : list WriteSet.WriteSetEntry;
  aborts : Z;
  commits_ro : Z;
  commits_rw : Z;
  hooks : list hook
}.

(** The file's static coordination variables: [started], [cpending],
    [committed] and [last_order] are [int32_t], [gatekeeper] and [inplace]
    [uint32_t], [last_complete.val] and [timestamp.val] [uintptr_t]. *)
Record Globals := {
  started : Z;
  cpending : Z;
  committed : Z;
  last_order : Z;
  gatekeeper : Z;
  inplace : Z;
  last_complete : Z;
  timestamp : Z
}.

(** What one call can touch: [self] is the caller's descriptor ([Self]). *)
Record State := { self : TX; glob : Globals; heap : Heap.Shared }.

Definition on_self (f : TX -> TX) (s : State) : State :=
  {| self := f (self s); glob := glob s; heap := heap s |}.

Definition on_glob (f : Globals -> Globals) (s : State) : State :=
  {| self := self s; glob := f (glob s); heap := heap s |}.

Definition on_heap (f : Heap.Shared -> Heap.Shared) (s : State) : State :=
  {| self := self s; glob := glob s; heap := f (heap s) |}.

Definition set_nesting_depth (n : Z) (tx : TX) : TX :=
  {| nesting_depth := n; turbo := turbo tx; ts_cache := ts_cache tx;
     order := order tx; r_orecs := r_orecs tx; writes := writes tx;
     undo_log := undo_log tx; aborts := aborts tx;
     commits_ro := commits_ro tx; commits_rw := commits_rw tx;
     hooks := hooks tx |}.

Definition set_turbo (b : bool) (tx : TX) : TX :=
  {| nesting_depth := nesting_depth tx; turbo := b; ts_cache := ts_cache tx;
     order := order tx; r_orecs := r_orecs tx; writes := writes tx;
     undo_log := undo_log tx; aborts := aborts tx;
     commits_ro := commits_ro tx; commits_rw := commits_rw tx;
     hooks := hooks tx |}.

Definition set_order (n : Z) (tx : TX) : TX :=
  {| nesting_depth := nesting_depth tx; turbo := turbo tx;
     ts_cache := ts_cache tx; order := n; r_orecs := r_orecs tx;
     writes := writes tx; undo_log := undo_log tx; aborts := aborts tx;
     commits_ro := commits_ro tx; commits_rw := commits_rw tx;
     hooks := hooks tx |}.

Definition set_r_orecs (l : list Z) (tx : TX) : TX :=
  {| nesting_depth := nesting_depth tx; turbo := turbo tx;
     ts_cache := ts_cache tx; order := order tx; r_orecs := l;
     writes := writes tx; undo_log := undo_log tx; aborts := aborts tx;
     commits_ro := commits_ro tx; commits_rw := commits_rw tx;
     hooks := hooks tx |}.

Definition set_writes (ws : list WriteSet.WriteSetEntry) (tx : TX) : TX :=
  {| nesting_depth := nesting_depth tx; turbo := turbo tx;
     ts_cache := ts_cache tx; order := order tx; r_orecs := r_orecs tx;
     writes := ws; undo_log := undo_log tx; aborts := aborts tx;
     commits_ro := commits_ro tx; commits_rw := commits_rw tx;
     hooks := hooks tx |}.

Definition set_undo_log (ul : list WriteSet.WriteSetEntry) (tx : TX) : TX :=
  {| nesting_depth := nesting_depth tx; turbo := turbo tx;
     ts_cache := ts_cache tx; order := order tx; r_orecs := r_orecs tx;
     writes := writes tx; undo_log := ul; aborts := aborts tx;
     commits_ro := commits_ro tx; commits_rw := commits_rw tx;
     hooks := hooks tx |}.

Definition set_commits_ro (n : Z) (tx : TX) : TX :=
  {| nesting_depth := nesting_depth tx; turbo := turbo tx;
     ts_cache := ts_cache tx; order := order tx; r_orecs := r_orecs tx;
     writes := writes tx; undo_log := undo_log tx; aborts := aborts tx;
     commits_ro := n; commits_rw := commits_rw tx; hooks := hooks tx |}.

Definition set_commits_rw (n : Z) (tx : TX) : TX :=
  {| nesting_depth := nesting_depth tx; turbo := turbo tx;
     ts_cache := ts_cache tx; order := order tx; r_orecs := r_orecs tx;
     writes := writes tx; undo_log := undo_log tx; aborts := aborts tx;
     commits_ro := commits_ro tx; commits_rw := n; hooks := hooks tx |}.

(** A call of an allocator or user-callback hook. *)
Definition call_hook (h : hook) (tx : TX) : TX :=
  {| nesting_depth := nesting_depth tx; turbo := turbo tx;
     ts_cache := ts_cache tx; order := order tx; r_orecs := r_orecs tx;
     writes := writes tx; undo_log := undo_log tx; aborts := aborts tx;
     commits_ro := commits_ro tx; commits_rw := commits_rw tx;
     hooks := hooks tx ++ [h] |}.

Definition set_started (n : Z) (g : Globals) : Globals :=
  {| started := n; cpending := cpending g; committed := committed g;
     last_order := last_order g; gatekeeper := gatekeeper g;
     inplace := inplace g; last_complete := last_complete g;
     timestamp := timestamp g |}.

Definition set_cpending (n : Z) (g : Globals) : Globals :=
  {| started := started g; cpending := n; committed := committed g;
     last_order := last_order g; gatekeeper := gatekeeper g;
     inplace := inplace g; last_complete := last_complete g;
     timestamp := timestamp g |}.

Definition set_committed (n : Z) (g : Globals) : Globals :=
  {| started := started g; cpending := cpending g; committed := n;
     last_order := last_order g; gatekeeper := gatekeeper g;
     inplace := inplace g; last_complete := last_complete g;
     timestamp := timestamp g |}.

Definition set_last_order (n : Z) (g : Globals) : Globals :=
  {| started := started g; cpending := cpending g; committed := committed g;
     last_order := n; gatekeeper := gatekeeper g; inplace := inplace g;
     last_complete := last_complete g; timestamp := timestamp g |}.

Definition set_inplace (n : Z) (g : Globals) : Globals :=
  {| started := started g; cpending := cpending g; committed := committed g;
     last_order := last_order g; gatekeeper := gatekeeper g; inplace := n;
     last_complete := last_complete g; timestamp := timestamp g |}.

Definition set_last_complete (n : Z) (g : Globals) : Globals :=
  {| started := started g; cpending := cpending g; committed := committed g;
     last_order := last_order g; gatekeeper := gatekeeper g;
     inplace := inplace g; last_complete := n; timestamp := timestamp g |}.

(** [while (cond);] on shared variables: it falls through when [cond] is
    false on entry and otherwise cannot end inside this call. *)
Definition spin_while (cond : State -> bool) (s : State) : outcome unit State :=
  if cond s then Spins s else Returns tt s.

Section Algorithm.

(** [get_orec]: the hash from an address to its stripe of the orec table
    (declared outside the sources; any function). *)
Variable get_orec : Z -> Z.

(** [WordType::Write(addr, val, mask)]: the in-place store of the write
    instrumentation's word type, a template argument declared outside the
    sources; it may also log to the undo log of the descriptor. *)
Variable WordType_Write : Z -> Z -> Z -> State -> State.

(** [validate]: the loop over [tx->r_orecs]. *)
Fixpoint validate_from (os : list Z) (s : State) : outcome unit State :=
  match os with
  | [] => Returns tt s
  | o :: rest =>
      let ivt := Heap.read_v (heap s) o in
      if ts_cache (self s) <? ivt then
        let s1 := on_glob (fun g => set_committed (Word.to_int32 (committed g + 1)) g) s in
        let s2 := on_glob (set_last_complete (Word.to_uintptr (order (self s1)))) s1 in
        Aborts s2
      else validate_from rest s
  end.

Definition validate (s : State) : outcome unit State :=
  validate_from (r_orecs (self s)) s.

(** The write-back loop of [alg_tm_end]: mark the orec with the order, then
    [i->value.writeTo(i->address)]. *)
Definition write_back_entry (ord : Z) (e : WriteSet.WriteSetEntry) (sh : Heap.Shared) : Heap.Shared :=
  let o := get_orec (WriteSet.addr e) in
  let sh1 := Heap.set_v o (Word.to_uintptr ord) sh in
  Heap.store_masked (WriteSet.addr e) (WriteSet.val e) (WriteSet.mask e) sh1.

Definition write_back (ord : Z) (ws : list WriteSet.WriteSetEntry) (sh : Heap.Shared) : Heap.Shared :=
  fold_left (fun h e => write_back_entry ord e h) ws sh.

(** [alg_tm_end], the turbo branch.  The wait compares with
    [(uintptr_t)(cpending - 1)]: [cpending] is an [int32_t], so the
    subtraction is the 32-bit one and the cast extends its result. *)
Definition end_turbo (s : State) : outcome unit State :=
  let s := on_glob (fun g => set_cpending (Word.to_int32 (cpending g + 1)) g) s in
  let s := on_self (set_undo_log []) s in
  let s := on_self (set_r_orecs []) s in
  let s := on_self (call_hook onTxCommit) s in
  let s := on_self (fun tx => set_commits_rw (commits_rw tx + 1) tx) s in
  _ <- spin_while (fun s => negb (last_complete (glob s) =? Word.to_uintptr (Word.to_int32 (cpending (glob s) - 1)))) s ;;
  fun s =>
  let s := on_glob (set_inplace 0) s in
  let s := on_glob (fun g => set_last_complete (Word.to_uintptr (cpending g)) g) s in
  let s := on_glob (fun g => set_committed (Word.to_int32 (committed g + 1)) g) s in
  let s := on_self (set_turbo false) s in
  let s := on_self (call_hook onCommit) s in
  Returns tt s.

(** [alg_tm_end], the branch of an empty write set. *)
Definition end_read_only (s : State) : outcome unit State :=
  let s := on_glob (fun g => set_started (Word.to_int32 (started g - 1)) g) s in
  let s := on_self (set_r_orecs []) s in
  let s := on_self (call_hook onTxCommit) s in
  let s := on_self (fun tx => set_commits_ro (commits_ro tx + 1) tx) s in
  let s := on_self (call_hook onCommit) s in
  Returns tt s.

(** [alg_tm_end] from the write-back loop to the end. *)
Definition end_publish (s : State) : outcome unit State :=
  let s := on_heap (write_back (order (self s)) (writes (self s))) s in
  let s := on_glob (fun g => set_committed (Word.to_int32 (committed g + 1)) g) s in
  let s := on_glob (fun g => set_last_order (Word.to_int32 (started g + 1)) g) s in
  let s := on_glob (set_last_complete (Word.to_uintptr (order (self s)))) s in
  let s := on_self (set_undo_log []) s in
  let s := on_self (set_r_orecs []) s in
  let s := on_self (set_writes []) s in
  let s := on_self (call_hook onTxCommit) s in
  let s := on_self (fun tx => set_commits_rw (commits_rw tx + 1) tx) s in
  let s := on_self (call_hook onCommit) s in
  Returns tt s.

(** [alg_tm_end], the writing branch: [tx->order = ADD(&cpending, 1)], the
    two waits, the gated validation, then write-back and publication. *)
Definition end_writing (s : State) : outcome unit State :=
  let s := on_glob (fun g => set_cpending (Word.to_int32 (cpending g + 1)) g) s in
  let s := on_self (set_order (cpending (glob s))) s in
  _ <- spin_while (fun s => negb (last_complete (glob s) =? Word.to_uintptr (order (self s) - 1))) s ;;
  fun s =>
  _ <- spin_while (fun s => cpending (glob s) <? started (glob s)) s ;;
  fun s =>
  _ <- (if (inplace (glob s) =? 1) || negb (order (self s) =? last_order (glob s))
        then validate s else Returns tt s) ;;
  end_publish.

(** [alg_tm_end] *)
Definition alg_tm_end (s : State) : outcome unit State :=
  let s := on_self (fun tx => set_nesting_depth (nesting_depth tx - 1) tx) s in
  if negb (nesting_depth (self s) =? 0) then Returns tt s
  else if turbo (self s) then end_turbo s
  else if WriteSet.size (writes (self s)) =? 0 then end_read_only s
  else end_writing s.

(** [Read::operator()]: log the orec, return the word in memory. *)
Definition Read (addr : Z) (s : State) : outcome Z State :=
  let s := on_self (fun tx => set_r_orecs (r_orecs tx ++ [get_orec addr]) tx) s in
  Returns (Heap.load (heap s) addr) s.

(** [tx->writes.insert(addr, val, mask)] *)
Definition buffer_write (addr val mask : Z) (s : State) : State :=
  on_self (fun tx =>
    set_writes (WriteSet.insert {| WriteSet.addr := addr; WriteSet.val := val; WriteSet.mask := mask |} (writes tx)) tx) s.

(** [Write::operator()].  The second branch is the one the source guards
    with [!tx->writes.size() && 0]. *)
Definition Write (addr val mask : Z) (s : State) : outcome unit State :=
  if turbo (self s) then
    let o := get_orec addr in
    let s := on_heap (Heap.set_v o (Word.to_uintptr (started (glob s)))) s in
    let s := WordType_Write addr val mask s in
    Returns tt s
  else if (WriteSet.size (writes (self s)) =? 0) && Word.c_true 0 then
    if Word.to_int32 (cpending (glob s) + 1) =? started (glob s) then
      let s := on_glob (set_inplace 1) s in
      if Word.to_int32 (cpending (glob s) + 1) =? started (glob s) then
        let o := get_orec addr in
        let s := on_heap (Heap.set_v o (Word.to_uintptr (started (glob s)))) s in
        let s := WordType_Write addr val mask s in
        let s := on_self (set_turbo true) s in
        Returns tt s
      else
        let s := on_glob (set_inplace 0) s in
        Returns tt (buffer_write addr val mask s)
    else
      Returns tt (buffer_write addr val mask s)
  else
    Returns tt (buffer_write addr val mask s).

(** The write the specification describes for a transaction that is not in
    turbo mode: buffer [(addr, val, mask)] in the redo log, nothing else. *)
Definition Write_always_buffer (addr val mask : Z) (s : State) : outcome unit State :=
  Returns tt
    {| self := set_writes (WriteSet.insert {| WriteSet.addr := addr; WriteSet.val := val; WriteSet.mask := mask |} (writes (self s))) (self s);
       glob := glob s;
       heap := heap s |}.

(** *** Properties of Cohort-Eager *)

(** The state in which [validate] calls the abort primitive: [committed]
    incremented, [last_complete.val] set to the order of the descriptor. *)
Definition validate_abort_state (s : State) : State :=
  {| self := self s;
     glob := set_last_complete (Word.to_uintptr (order (self s)))
               (set_committed (Word.to_int32 (committed (glob s) + 1)) (glob s));
     heap := heap s |}.

(** An orec of the read log is stale: its version is above [ts_cache]. *)
Definition stale (s : State) (o : Z) : Prop :=
  ts_cache (self s) < Heap.read_v (heap s) o.

#[local] Instance stale_dec (s : State) (o : Z) : Decision (stale s o).
Proof. unfold stale. apply _. Defined.

(** The condition under which the writing commit validates. *)
Definition must_validate (s : State) : bool :=
  (inplace (glob s) =? 1) || negb (order (self s) =? last_order (glob s)).

(** [tx->order = ADD(&cpending, 1)], the first statement of the writing
    branch. *)
Definition take_order (s : State) : State :=
  let s := on_glob (fun g => set_cpending (Word.to_int32 (cpending g + 1)) g) s in
  on_self (set_order (cpending (glob s))) s.

(** The writing commit at the point where it has decremented the nesting
    depth and taken its order from [cpending]. *)
Definition ordered (s : State) : State :=
  take_order (on_self (fun tx => set_nesting_depth (nesting_depth tx - 1) tx) s).

(** Both waits of the writing branch fall through at once. *)
Definition turn_reached (s : State) : Prop :=
  last_complete (glob s) = Word.to_uintptr (order (self s) - 1) /\
  started (glob s) <= cpending (glob s).

Lemma validate_from_stale (os : list Z) (s : State) :
  Exists (stale s) os -> validate_from os s = Aborts (validate_abort_state s).
Proof.
  induction os as [|o os IH]; intros Hex.
  - inversion Hex.
  - cbn [validate_from].
    destruct (ts_cache (self s) <? Heap.read_v (heap s) o) eqn:Hlt.
    + reflexivity.
    + apply IH. inversion Hex as [? ? Hst|? ? Hrest]; subst; [|exact Hrest].
      unfold stale in Hst. apply Z.ltb_ge in Hlt. lia.
Qed.

Lemma validate_from_fresh (os : list Z) (s : State) :
  Forall (fun o => ~ stale s o) os -> validate_from os s = Returns tt s.
Proof.
  induction 1 as [|o os Ho _ IH]; cbn [validate_from]; [reflexivity|].
  destruct (ts_cache (self s) <? Heap.read_v (heap s) o) eqn:Hlt; [|exact IH].
  apply Z.ltb_lt in Hlt. contradiction.
Qed.

Lemma end_publish_returns (s : State) :
  exists s', end_publish s = Returns tt s'.
Proof. unfold end_publish. eexists. reflexivity. Qed.

Lemma end_writing_unfold (s : State) :
  end_writing s =
  let t := take_order s in
  if negb (last_complete (glob t) =? Word.to_uintptr (order (self t) - 1)) then Spins t
  else if cpending (glob t) <? started (glob t) then Spins t
  else if must_validate t then (_ <- validate t ;; end_publish)
  else end_publish t.
Proof.
  unfold end_writing, spin_while, must_validate. cbv zeta.
  fold (take_order s). generalize (take_order s). intros t.
  destruct (negb _); cbn [bind]; [reflexivity|].
  destruct (_ <? _); cbn [bind]; [reflexivity|].
  destruct (_ || _); reflexivity.
Qed.

Lemma end_turbo_cases (s : State) :
  (exists s', end_turbo s = Returns tt s') \/ (exists s', end_turbo s = Spins s').
Proof.
  unfold end_turbo, spin_while. cbv zeta.
  match goal with |- context [if ?c then _ else _] => destruct c end;
    cbn [bind]; eauto.
Qed.

(** The only abort of [alg_tm_end] is the one of [validate]. *)
Lemma alg_tm_end_aborts (s s' : State) :
  alg_tm_end s = Aborts s' ->
  turbo (self s) = false /\
  writes (self s) <> [] /\
  Exists (stale (ordered s)) (r_orecs (self s)) /\
  s' = validate_abort_state (ordered s).
Proof.
  unfold alg_tm_end. cbv zeta.
  set (s0 := on_self _ s).
  destruct (negb _); [discriminate|].
  change (turbo (self s0)) with (turbo (self s)).
  change (writes (self s0)) with (writes (self s)).
  destruct (turbo (self s)) eqn:Hturbo.
  { destruct (end_turbo_cases s0) as [[t ->]|[t ->]]; discriminate. }
  destruct (WriteSet.size (writes (self s)) =? 0) eqn:Hsz; [discriminate|].
  rewrite end_writing_unfold. cbv zeta.
  change (take_order s0) with (ordered s).
  destruct (negb _); [discriminate|].
  destruct (_ <? _); [discriminate|].
  assert (Hne : writes (self s) <> []).
  { intros Hnil. rewrite Hnil in Hsz. discriminate. }
  destruct (must_validate (ordered s)).
  - unfold validate.
    change (r_orecs (self (ordered s))) with (r_orecs (self s)).
    destruct (decide (Exists (stale (ordered s)) (r_orecs (self s)))) as [Hex|Hnex].
    + rewrite (validate_from_stale _ _ Hex). cbn [bind].
      intros [= <-]. auto.
    + rewrite validate_from_fresh; [cbn [bind]|].
      * destruct (end_publish_returns (ordered s)) as [t ->]. discriminate.
      * apply Forall_forall. intros o Ho Hst. apply Hnex.
        apply Exists_exists. eauto.
  - destruct (end_publish_returns (ordered s)) as [t ->]. discriminate.
Qed.

(** C3.  In [Write], for every call made with [tx->turbo] false, whatever
    [cpending], [started] and the size of the write set are, the branch
    guarded by [!tx->writes.size() && 0] is never taken: the call equals
    the always-buffer write of the specification.  It returns, the redo log
    is the old one with [(addr, val, mask)] inserted, the heap (orec table,
    user memory and the history of stores) is the one before the call, the
    coordination variables, [inplace] among them, are unchanged, and
    [tx->turbo] is still false. *)
Theorem Write_promotion_branch_is_dead (addr val mask : Z) (s : State) :
  turbo (self s) = false ->
  Write addr val mask s = Write_always_buffer addr val mask s /\
  exists s',
    Write addr val mask s = Returns tt s' /\
    writes (self s') =
      WriteSet.insert {| WriteSet.addr := addr; WriteSet.val := val; WriteSet.mask := mask |}
        (writes (self s)) /\
    heap s' = heap s /\
    inplace (glob s') = inplace (glob s) /\
    glob s' = glob s /\
    turbo (self s') = false.
Proof.
  intros Hturbo.
  assert (Heq : Write addr val mask s = Write_always_buffer addr val mask s).
  { unfold Write. rewrite Hturbo.
    replace (Word.c_true 0) with false by reflexivity.
    rewrite andb_false_r. reflexivity. }
  split; [exact Heq|].
  rewrite Heq. unfold Write_always_buffer.
  eexists. split; [reflexivity|]. cbn. auto.
Qed.

(** C10.  An outermost ([nesting_depth] 1) commit of a transaction that is
    not in turbo mode and has an empty write set returns (it is never in a
    busy-wait): [started] is decremented (the 32-bit decrement of [SUB],
    which is [started - 1] unless [started] is [INT32_MIN]), [commits_ro] is
    incremented, [r_orecs] is reset; [cpending], [committed],
    [last_complete], [last_order], [inplace] and the order of the
    transaction are unchanged, and so is the heap: no store to user memory
    or to an orec. *)
Theorem read_only_commit_frame (s : State) :
  nesting_depth (self s) = 1 ->
  turbo (self s) = false ->
  writes (self s) = [] ->
  exists s',
    alg_tm_end s = Returns tt s' /\
    started (glob s') = Word.to_int32 (started (glob s) - 1) /\
    (- 2 ^ 31 < started (glob s) < 2 ^ 31 ->
     started (glob s') = started (glob s) - 1) /\
    commits_ro (self s') = commits_ro (self s) + 1 /\
    r_orecs (self s') = [] /\
    cpending (glob s') = cpending (glob s) /\
    committed (glob s') = committed (glob s) /\
    last_complete (glob s') = last_complete (glob s) /\
    last_order (glob s') = last_order (glob s) /\
    inplace (glob s') = inplace (glob s) /\
    order (self s') = order (self s) /\
    heap s' = heap s.
Proof.
  intros Hdepth Hturbo Hws.
  unfold alg_tm_end. cbn. rewrite Hdepth, Hturbo, Hws. cbn.
  eexists. split; [reflexivity|]. cbn.
  repeat split; try reflexivity.
  intros Hrange. unfold Word.to_int32.
  rewrite Z.mod_small by lia. lia.
Qed.

(** C9.  If a call of [alg_tm_end] ends in the abort primitive, the abort
    is the one of [validate] in the writing branch: the transaction is not
    in turbo mode, its write set is not empty, some orec of its read log is
    stale, and the state is the one [validate] leaves.  In that state the
    heap is the heap the commit started from: no entry of the redo log has
    been stored to user memory and no orec has been marked, and the redo
    log itself is still in the descriptor. *)
Theorem abort_precedes_write_back (s s' : State) :
  alg_tm_end s = Aborts s' ->
  heap s' = heap s /\
  Heap.mem (heap s') = Heap.mem (heap s) /\
  Heap.orecs (heap s') = Heap.orecs (heap s) /\
  Heap.stores (heap s') = Heap.stores (heap s) /\
  writes (self s') = writes (self s) /\
  turbo (self s) = false /\
  writes (self s) <> [] /\
  Exists (stale (ordered s)) (r_orecs (self s)) /\
  s' = validate_abort_state (ordered s).
Proof.
  intros Hend.
  destruct (alg_tm_end_aborts _ _ Hend) as (Hturbo & Hws & Hex & ->).
  unfold validate_abort_state, ordered, take_order. cbn.
  repeat split; try reflexivity; assumption.
Qed.

Lemma must_validate_true (s : State) :
  must_validate s = true <->
  inplace (glob s) = 1 \/ order (self s) <> last_order (glob s).
Proof.
  unfold must_validate.
  rewrite orb_true_iff, negb_true_iff, Z.eqb_eq, Z.eqb_neq. reflexivity.
Qed.

Lemma must_validate_false (s : State) :
  must_validate s = false <->
  inplace (glob s) <> 1 /\ order (self s) = last_order (glob s).
Proof.
  unfold must_validate.
  rewrite orb_false_iff, negb_false_iff, Z.eqb_eq, Z.eqb_neq. reflexivity.
Qed.

(** The writing branch once both waits have fallen through. *)
Lemma alg_tm_end_at_turn (s : State) :
  nesting_depth (self s) = 1 ->
  turbo (self s) = false ->
  writes (self s) <> [] ->
  turn_reached (ordered s) ->
  alg_tm_end s =
  if must_validate (ordered s) then (_ <- validate (ordered s) ;; end_publish)
  else end_publish (ordered s).
Proof.
  intros Hdepth Hturbo Hws [Hlc Hst].
  unfold alg_tm_end. cbv zeta.
  set (s0 := on_self _ s).
  change (nesting_depth (self s0)) with (nesting_depth (self s) - 1).
  change (turbo (self s0)) with (turbo (self s)).
  change (writes (self s0)) with (writes (self s)).
  rewrite Hdepth, Hturbo.
  replace (negb (1 - 1 =? 0)) with false by reflexivity.
  replace (WriteSet.size (writes (self s)) =? 0) with false.
  2: { symmetry. apply Z.eqb_neq. unfold WriteSet.size.
       destruct (writes (self s)); [congruence|cbn [length]; lia]. }
  rewrite end_writing_unfold. cbv zeta.
  change (take_order s0) with (ordered s).
  rewrite Hlc, Z.eqb_refl. cbn [negb].
  replace (cpending (glob (ordered s)) <? started (glob (ordered s))) with false
    by (symmetry; apply Z.ltb_ge; exact Hst).
  reflexivity.
Qed.

(** C6.  In the writing commit of a transaction that is not in turbo mode,
    once the two waits have fallen through: the commit runs [validate]
    exactly when [inplace == 1] or the order just taken differs from
    [last_order]; otherwise it goes straight to write-back and returns,
    whatever the read log holds.  [validate] itself, on a read log with an
    orec whose version is above [ts_cache], increments [committed], stores
    the order into [last_complete.val] and ends in the abort primitive,
    which does not return: nothing of the commit runs after it.  On a read
    log without such an orec it returns with the state unchanged.  So the
    commit aborts exactly when validation is due and the read log is
    stale. *)
Theorem validation_gate_and_abort (s : State) :
  nesting_depth (self s) = 1 ->
  turbo (self s) = false ->
  writes (self s) <> [] ->
  turn_reached (ordered s) ->
  let t := ordered s in
  (inplace (glob t) = 1 \/ order (self t) <> last_order (glob t) ->
   alg_tm_end s = (_ <- validate t ;; end_publish)) /\
  (inplace (glob t) <> 1 /\ order (self t) = last_order (glob t) ->
   alg_tm_end s = end_publish t /\ exists s', alg_tm_end s = Returns tt s') /\
  (forall u : State,
     Exists (stale u) (r_orecs (self u)) ->
     validate u = Aborts (validate_abort_state u) /\
     committed (glob (validate_abort_state u)) = Word.to_int32 (committed (glob u) + 1) /\
     last_complete (glob (validate_abort_state u)) = Word.to_uintptr (order (self u)) /\
     (_ <- validate u ;; end_publish) = Aborts (validate_abort_state u)) /\
  (forall u : State,
     Forall (fun o => ~ stale u o) (r_orecs (self u)) ->
     validate u = Returns tt u) /\
  (forall s' : State,
     alg_tm_end s = Aborts s' <->
     (inplace (glob t) = 1 \/ order (self t) <> last_order (glob t)) /\
     Exists (stale t) (r_orecs (self t)) /\
     s' = validate_abort_state t).
Proof.
  intros Hdepth Hturbo Hws Hturn t.
  pose proof (alg_tm_end_at_turn s Hdepth Hturbo Hws Hturn) as Heq.
  fold t in Heq.
  split; [|split; [|split; [|split]]].
  - intros Hgate. apply must_validate_true in Hgate.
    rewrite Heq, Hgate. reflexivity.
  - intros Hgate. apply must_validate_false in Hgate.
    rewrite Heq, Hgate. split; [reflexivity|]. apply end_publish_returns.
  - intros u Hex. unfold validate.
    rewrite (validate_from_stale _ _ Hex). cbn [bind].
    repeat split; reflexivity.
  - intros u Hall. unfold validate. apply validate_from_fresh. exact Hall.
  - intros s'. split.
    + intros Hab. destruct (alg_tm_end_aborts _ _ Hab) as (_ & _ & Hex & ->).
      split; [|split; [exact Hex|reflexivity]].
      apply must_validate_true.
      rewrite Heq in Hab.
      destruct (must_validate t); [reflexivity|].
      destruct (end_publish_returns t) as [u Hu]. rewrite Hu in Hab. discriminate.
    + intros (Hgate & Hex & ->). apply must_validate_true in Hgate.
      rewrite Heq, Hgate. unfold validate.
      rewrite (validate_from_stale _ _ Hex). reflexivity.
Qed.

End Algorithm.

(** *** Concrete runs *)

(** The word type of the non-logging instrumentation: a masked store. *)
Definition demo_WordType_Write (a w m : Z) (s : State) : State :=
  on_heap (Heap.store_masked a w m) s.

(** A cohort of five transactions of which four have committed; the fifth
    began when [last_complete] was 3, read a word of stripe 5, buffered a
    write, and stripe 5 was marked by the commit of order 4 since. *)
Definition demo_writer : State :=
  {| self := {| nesting_depth := 1; turbo := false; ts_cache := 3; order := 0;
                r_orecs := [5];
                writes := [ {| WriteSet.addr := 40; WriteSet.val := 7; WriteSet.mask := 255 |} ];
                undo_log := []; aborts := 0; commits_ro := 0; commits_rw := 0;
                hooks := [onTxBegin] |};
     glob := {| started := 5; cpending := 4; committed := 4; last_order := 4;
                gatekeeper := 0; inplace := 0; last_complete := 4; timestamp := 0 |};
     heap := {| Heap.mem := {[ 40 := 1 ]};
                Heap.orecs := {[ 5 := {| Heap.v_all := 4; Heap.p := 0 |} ]};
                Heap.stores := [] |} |}.

(** The same transaction with an empty write set. *)
Definition demo_reader : State :=
  on_self (set_writes []) demo_writer.

Lemma Write_promotion_branch_is_dead_witness :
  turbo (self demo_reader) = false /\
  WriteSet.size (writes (self demo_reader)) = 0 /\
  Word.to_int32 (cpending (glob demo_reader) + 1) = started (glob demo_reader) /\
  Write Demo.get_orec demo_WordType_Write 48 9 255 demo_reader =
  Write_always_buffer 48 9 255 demo_reader /\
  exists s',
    Write Demo.get_orec demo_WordType_Write 48 9 255 demo_reader = Returns tt s' /\
    writes (self s') = [ {| WriteSet.addr := 48; WriteSet.val := 9; WriteSet.mask := 255 |} ] /\
    heap s' = heap demo_reader /\
    inplace (glob s') = 0 /\
    turbo (self s') = false.
Proof.
  split; [reflexivity|]. split; [reflexivity|]. split; [reflexivity|].
  destruct (Write_promotion_branch_is_dead Demo.get_orec demo_WordType_Write 48 9 255 demo_reader)
    as (Heq & s' & Hrun & Hws & Hheap & Hinp & _ & Hturbo); [reflexivity|].
  split; [exact Heq|].
  exists s'. split; [exact Hrun|]. split; [exact Hws|]. split; [exact Hheap|].
  split; [exact Hinp|exact Hturbo].
Defined.

Lemma read_only_commit_frame_witness :
  exists s',
    alg_tm_end Demo.get_orec demo_reader = Returns tt s' /\
    started (glob s') = 4 /\
    commits_ro (self s') = 1 /\
    heap s' = heap demo_reader.
Proof.
  destruct (read_only_commit_frame Demo.get_orec demo_reader)
    as (s' & Hend & Hst & _ & Hro & _ & _ & _ & _ & _ & _ & _ & Hheap);
    [reflexivity|reflexivity|reflexivity|].
  exists s'. repeat split; assumption.
Defined.

Lemma abort_precedes_write_back_witness :
  alg_tm_end Demo.get_orec demo_writer =
    Aborts (validate_abort_state (ordered demo_writer)) /\
  Heap.mem (heap (validate_abort_state (ordered demo_writer))) = Heap.mem (heap demo_writer) /\
  Heap.orecs (heap (validate_abort_state (ordered demo_writer))) = Heap.orecs (heap demo_writer) /\
  Heap.stores (heap (validate_abort_state (ordered demo_writer))) = [].
Proof.
  assert (Hab : alg_tm_end Demo.get_orec demo_writer =
                Aborts (validate_abort_state (ordered demo_writer)))
    by (vm_compute; reflexivity).
  destruct (abort_precedes_write_back Demo.get_orec demo_writer _ Hab)
    as (_ & Hmem & Horecs & Hst & _).
  split; [exact Hab|]. split; [exact Hmem|]. split; [exact Horecs|exact Hst].
Defined.

Lemma validation_gate_and_abort_witness :
  alg_tm_end Demo.get_orec demo_writer =
  (_ <- validate (ordered demo_writer) ;; end_publish Demo.get_orec).
Proof.
  refine (proj1 (validation_gate_and_abort Demo.get_orec demo_writer _ _ _ _) _).
  - reflexivity.
  - reflexivity.
  - discriminate.
  - split; [reflexivity|]. vm_compute. discriminate.
  - right. vm_compute. discriminate.
Defined.

(** *** The other entry points of Cohort-Eager *)

Definition set_ts_cache (n : Z) (tx : TX) : TX :=
  {| nesting_depth := nesting_depth tx; turbo := turbo tx; ts_cache := n;
     order := order tx; r_orecs := r_orecs tx; writes := writes tx;
     undo_log := undo_log tx; aborts := aborts tx;
     commits_ro := commits_ro tx; commits_rw := commits_rw tx;
     hooks := hooks tx |}.

Definition set_aborts (n : Z) (tx : TX) : TX :=
  {| nesting_depth := nesting_depth tx; turbo := turbo tx;
     ts_cache := ts_cache tx; order := order tx; r_orecs := r_orecs tx;
     writes := writes tx; undo_log := undo_log tx; aborts := n;
     commits_ro := commits_ro tx; commits_rw := commits_rw tx;
     hooks := hooks tx |}.

(** Modelled from the spec: [undo_log.undo()] is declared outside the
    sources.  Section 4.5: the undo log is a sequence of prior values,
    iterated in reverse on rollback; each is stored back on the bytes of
    its mask. *)
Definition undo (ul : list WriteSet.WriteSetEntry) (sh : Heap.Shared) : Heap.Shared :=
  fold_left (fun h e => Heap.store_masked (WriteSet.addr e) (WriteSet.val e) (WriteSet.mask e) h)
    (rev ul) sh.

(** [alg_tm_rollback] *)
Definition alg_tm_rollback (s : State) : outcome unit State :=
  let s := on_self (fun tx => set_aborts (aborts tx + 1) tx) s in
  let s := on_heap (undo (undo_log (self s))) s in
  let s := on_self (set_r_orecs []) s in
  let s := on_self (set_writes []) s in
  let s := on_self (call_hook onTxAbort) s in
  let s := on_self (call_hook onRollback) s in
  Returns tt s.

Section Lifecycle.

Variable get_orec : Z -> Z.

Lemma write_back_cons (ord : Z) (e : WriteSet.WriteSetEntry) (ws : list WriteSet.WriteSetEntry) (sh : Heap.Shared) :
  write_back get_orec ord (e :: ws) sh =
  write_back get_orec ord ws (write_back_entry get_orec ord e sh).
Proof. reflexivity. Qed.

Lemma read_v_write_back_entry (ord : Z) (e : WriteSet.WriteSetEntry) (sh : Heap.Shared) (o : Z) :
  Heap.read_v (write_back_entry get_orec ord e sh) o =
  if decide (get_orec (WriteSet.addr e) = o) then Word.to_uintptr ord else Heap.read_v sh o.
Proof.
  unfold write_back_entry, Heap.store_masked, Heap.store, Heap.read_v, Heap.orec_at, Heap.set_v.
  cbn. destruct (decide (get_orec (WriteSet.addr e) = o)) as [->|Hne].
  - by rewrite lookup_insert_eq.
  - by rewrite lookup_insert_ne.
Qed.

Lemma load_write_back_entry (ord : Z) (e : WriteSet.WriteSetEntry) (sh : Heap.Shared) (a : Z) :
  Heap.load (write_back_entry get_orec ord e sh) a =
  if decide (WriteSet.addr e = a)
  then Z.lor (Z.ldiff (Heap.load sh a) (WriteSet.mask e)) (Z.land (WriteSet.val e) (WriteSet.mask e))
  else Heap.load sh a.
Proof.
  unfold write_back_entry, Heap.store_masked, Heap.store, Heap.load, Heap.set_v.
  cbn. destruct (decide (WriteSet.addr e = a)) as [->|Hne].
  - by rewrite lookup_insert_eq.
  - by rewrite lookup_insert_ne.
Qed.

Lemma write_back_marks (ord : Z) (ws : list WriteSet.WriteSetEntry) (sh : Heap.Shared) (o : Z) :
  Heap.read_v sh o = Word.to_uintptr ord \/
  o ∈ map (fun e => get_orec (WriteSet.addr e)) ws ->
  Heap.read_v (write_back get_orec ord ws sh) o = Word.to_uintptr ord.
Proof.
  revert sh. induction ws as [|e ws IH]; intros sh Hcase.
  - destruct Hcase as [Hv|Hin]; [exact Hv|]. by apply elem_of_nil in Hin.
  - rewrite write_back_cons. apply IH. rewrite read_v_write_back_entry.
    destruct (decide _) as [Heq|Hne]; [by left|].
    destruct Hcase as [Hv|Hin]; [by left|]. right.
    cbn [map] in Hin. apply elem_of_cons in Hin as [Heq|Hin]; [congruence|exact Hin].
Qed.

Lemma write_back_read_v_other (ord : Z) (ws : list WriteSet.WriteSetEntry) (sh : Heap.Shared) (o : Z) :
  o ∉ map (fun e => get_orec (WriteSet.addr e)) ws ->
  Heap.read_v (write_back get_orec ord ws sh) o = Heap.read_v sh o.
Proof.
  revert sh. induction ws as [|e ws IH]; intros sh Hnot; [reflexivity|].
  cbn [map] in Hnot. apply not_elem_of_cons in Hnot as [Hne Hnot].
  rewrite write_back_cons, IH by exact Hnot. rewrite read_v_write_back_entry.
  destruct (decide _); congruence.
Qed.

Lemma write_back_load_other (ord : Z) (ws : list WriteSet.WriteSetEntry) (sh : Heap.Shared) (a : Z) :
  a ∉ map WriteSet.addr ws ->
  Heap.load (write_back get_orec ord ws sh) a = Heap.load sh a.
Proof.
  revert sh. induction ws as [|e ws IH]; intros sh Hnot; [reflexivity|].
  cbn [map] in Hnot. apply not_elem_of_cons in Hnot as [Hne Hnot].
  rewrite write_back_cons, IH by exact Hnot. rewrite load_write_back_entry.
  destruct (decide _); congruence.
Qed.

Lemma write_back_load (ord : Z) (ws : list WriteSet.WriteSetEntry) (sh : Heap.Shared) (e : WriteSet.WriteSetEntry) :
  NoDup (map WriteSet.addr ws) -> e ∈ ws ->
  Heap.load (write_back get_orec ord ws sh) (WriteSet.addr e) =
  Z.lor (Z.ldiff (Heap.load sh (WriteSet.addr e)) (WriteSet.mask e))
        (Z.land (WriteSet.val e) (WriteSet.mask e)).
Proof.
  revert sh. induction ws as [|x ws IH]; intros sh Hnd Hin.
  - by apply elem_of_nil in Hin.
  - cbn [map] in Hnd. apply NoDup_cons in Hnd as [Hfresh Hnd].
    rewrite write_back_cons.
    apply elem_of_cons in Hin as [->|Hin].
    + rewrite write_back_load_other by exact Hfresh.
      rewrite load_write_back_entry. by destruct (decide _).
    + rewrite IH by assumption. rewrite load_write_back_entry.
      destruct (decide _) as [Heq|Hne]; [|reflexivity].
      exfalso. apply Hfresh. rewrite Heq. apply list_elem_of_fmap. eauto.
Qed.

(** X9.  A writing commit that is not in turbo mode, once both waits have
    fallen through, with a read log that is valid or not to be validated:
    it returns and publishes its redo log.  The orec of every address of
    the log carries the order of the transaction, which is the new value
    of [last_complete]; the other orecs keep their versions.  Every
    address of the log (an address has one entry) holds the bytes of its
    entry over the word it held, the other addresses keep their words.
    [last_order] is [started + 1], the read log, the redo log and the undo
    log are empty, and [commits_rw] is one higher. *)
Theorem writing_commit_writes_back (s : State) :
  nesting_depth (self s) = 1 ->
  turbo (self s) = false ->
  writes (self s) <> [] ->
  turn_reached (ordered s) ->
  (must_validate (ordered s) = true ->
   Forall (fun o => ~ stale (ordered s) o) (r_orecs (self s))) ->
  exists s',
    alg_tm_end get_orec s = Returns tt s' /\
    order (self s') = Word.to_int32 (cpending (glob s) + 1) /\
    last_complete (glob s') = Word.to_uintptr (order (self s')) /\
    (forall e, e ∈ writes (self s) ->
       Heap.read_v (heap s') (get_orec (WriteSet.addr e)) = last_complete (glob s')) /\
    (forall o, o ∉ map (fun e => get_orec (WriteSet.addr e)) (writes (self s)) ->
       Heap.read_v (heap s') o = Heap.read_v (heap s) o) /\
    (forall e, NoDup (map WriteSet.addr (writes (self s))) ->
       e ∈ writes (self s) ->
       Heap.load (heap s') (WriteSet.addr e) =
       Z.lor (Z.ldiff (Heap.load (heap s) (WriteSet.addr e)) (WriteSet.mask e))
             (Z.land (WriteSet.val e) (WriteSet.mask e))) /\
    (forall a, a ∉ map WriteSet.addr (writes (self s)) ->
       Heap.load (heap s') a = Heap.load (heap s) a) /\
    last_order (glob s') = Word.to_int32 (started (glob s) + 1) /\
    r_orecs (self s') = [] /\
    writes (self s') = [] /\
    undo_log (self s') = [] /\
    commits_rw (self s') = commits_rw (self s) + 1.
Proof.
  intros Hdepth Hturbo Hws Hturn Hvalid.
  rewrite (alg_tm_end_at_turn get_orec s Hdepth Hturbo Hws Hturn).
  assert (Hrun : (if must_validate (ordered s)
                  then _ <- validate (ordered s) ;; end_publish get_orec
                  else end_publish get_orec (ordered s)) =
                 end_publish get_orec (ordered s)).
  { destruct (must_validate (ordered s)); [|reflexivity].
    unfold validate. rewrite validate_from_fresh; [reflexivity|]. by apply Hvalid. }
  rewrite Hrun. unfold end_publish. cbv zeta. eexists. split; [reflexivity|].
  cbn. split; [reflexivity|]. split; [reflexivity|].
  split; [|split; [|split; [|split; [|repeat split]]]].
  - intros e Hin. apply write_back_marks. right.
    apply (list_elem_of_fmap_2 (fun e => get_orec (WriteSet.addr e))). exact Hin.
  - intros o Hnot. by apply write_back_read_v_other.
  - intros e Hnd Hin. by apply write_back_load.
  - intros a Hnot. by apply write_back_load_other.
Qed.

#[local] Instance stale_decision (s : State) (o : Z) : Decision (stale s o).
Proof. unfold stale. apply _. Defined.

(** What a finished commit has done to the counters of the cohort;
    [prev] is the turn it has waited for. *)
Definition took_its_turn (prev : Z) (g g' : Globals) : Prop :=
  cpending g' = Word.to_int32 (cpending g + 1) /\
  committed g' = Word.to_int32 (committed g + 1) /\
  last_complete g = Word.to_uintptr prev /\
  last_complete g' = Word.to_uintptr (cpending g') /\
  started g' = started g.

Lemma end_turbo_finished (s s' : State) :
  end_turbo s = Returns tt s' \/ end_turbo s = Aborts s' ->
  took_its_turn (Word.to_int32 (cpending (glob s') - 1)) (glob s) (glob s') /\
  inplace (glob s') = 0 /\ turbo (self s') = false /\ heap s' = heap s.
Proof.
  unfold end_turbo, spin_while. cbv zeta.
  cbn [on_glob on_self glob self heap set_cpending cpending last_complete].
  destruct (last_complete (glob s) =? _) eqn:Hturn; cbn [negb bind].
  - apply Z.eqb_eq in Hturn. intros [[= <-]|[=]]. unfold took_its_turn. cbn. repeat split; auto.
  - intros [[=]|[=]].
Qed.

Lemma end_writing_finished (s s' : State) :
  end_writing get_orec s = Returns tt s' \/ end_writing get_orec s = Aborts s' ->
  took_its_turn (cpending (glob s') - 1) (glob s) (glob s') /\
  started (glob s) <= cpending (glob s') /\
  inplace (glob s') = inplace (glob s) /\
  order (self s') = cpending (glob s').
Proof.
  intros Hfin. rewrite end_writing_unfold in Hfin. cbv zeta in Hfin.
  set (t := take_order s) in *.
  destruct (last_complete (glob t) =? Word.to_uintptr (order (self t) - 1)) eqn:Hturn;
    cbn [negb] in Hfin; [|destruct Hfin; discriminate].
  apply Z.eqb_eq in Hturn.
  destruct (cpending (glob t) <? started (glob t)) eqn:Hwait;
    [destruct Hfin; discriminate|].
  apply Z.ltb_ge in Hwait.
  assert (Hdone : forall u, end_publish get_orec t = Returns tt u ->
    took_its_turn (cpending (glob u) - 1) (glob s) (glob u) /\ started (glob s) <= cpending (glob u) /\
    inplace (glob u) = inplace (glob s) /\ order (self u) = cpending (glob u)).
  { intros u. unfold end_publish. cbv zeta. intros [= <-].
    unfold took_its_turn. cbn. repeat split; auto. }
  assert (Hnoabort : forall u, end_publish get_orec t <> Aborts u).
  { intros u. unfold end_publish. cbv zeta. discriminate. }
  destruct (must_validate t).
  - unfold validate in Hfin.
    destruct (decide (Exists (stale t) (r_orecs (self t)))) as [Hex|Hnex].
    + rewrite (validate_from_stale _ _ Hex) in Hfin. cbn [bind] in Hfin.
      destruct Hfin as [Hfin|Hfin]; [discriminate|]. injection Hfin as <-.
      unfold took_its_turn. cbn. repeat split; auto.
    + rewrite validate_from_fresh in Hfin.
      2: { apply Forall_forall. intros o Ho Hst. apply Hnex. apply Exists_exists. eauto. }
      cbn [bind] in Hfin. destruct Hfin as [Hu|Hu]; [by apply Hdone|]. by apply Hnoabort in Hu.
  - destruct Hfin as [Hu|Hu]; [by apply Hdone|]. by apply Hnoabort in Hu.
Qed.

(** X10.  An outermost commit that writes (in turbo mode, or with a redo
    log that is not empty) and finishes, by returning or by aborting in
    validation, has taken exactly one turn: [cpending] and [committed] are
    each one higher (32-bit), [last_complete] was the turn before its own
    and is now its own, and [started] is unchanged.  The turn before is
    the one the commit has waited for: [(uintptr_t)(cpending - 1)] with
    the 32-bit subtraction in turbo mode, [(uintptr_t)(tx->order - 1)]
    with the subtraction in the width of [order] otherwise; both are the
    old [cpending] unless the counter is at its last value.  So a drained
    cohort ([cpending == committed]) is drained again after it, and the
    next order in line finds [last_complete] ready, also behind a
    transaction that aborted.  The turbo commit also clears [inplace],
    leaves turbo mode and stores nothing. *)
Theorem finished_commit_takes_one_turn (s s' : State) :
  nesting_depth (self s) = 1 ->
  turbo (self s) = true \/ writes (self s) <> [] ->
  alg_tm_end get_orec s = Returns tt s' \/ alg_tm_end get_orec s = Aborts s' ->
  cpending (glob s') = Word.to_int32 (cpending (glob s) + 1) /\
  committed (glob s') = Word.to_int32 (committed (glob s) + 1) /\
  last_complete (glob s) =
    (if turbo (self s)
     then Word.to_uintptr (Word.to_int32 (cpending (glob s') - 1))
     else Word.to_uintptr (cpending (glob s') - 1)) /\
  (- 2 ^ 31 <= cpending (glob s) < 2 ^ 31 - 1 ->
   last_complete (glob s) = Word.to_uintptr (cpending (glob s))) /\
  last_complete (glob s') = Word.to_uintptr (cpending (glob s')) /\
  started (glob s') = started (glob s) /\
  (cpending (glob s) = committed (glob s) -> cpending (glob s') = committed (glob s')) /\
  (turbo (self s) = true ->
   inplace (glob s') = 0 /\ turbo (self s') = false /\ heap s' = heap s).
Proof.
  intros Hdepth Hkind. unfold alg_tm_end. cbv zeta.
  set (s0 := on_self _ s).
  change (nesting_depth (self s0)) with (nesting_depth (self s) - 1).
  change (turbo (self s0)) with (turbo (self s)).
  change (writes (self s0)) with (writes (self s)).
  rewrite Hdepth. replace (negb (1 - 1 =? 0)) with false by reflexivity.
  destruct (turbo (self s)) eqn:Hturbo.
  - intros Hfin. destruct (end_turbo_finished _ _ Hfin) as ((Hcp & Hcm & Hlc & Hlc' & Hst) & Hrest).
    change (glob s0) with (glob s) in *. change (heap s0) with (heap s) in *.
    split; [exact Hcp|]. split; [exact Hcm|]. split; [exact Hlc|].
    split; [|split; [exact Hlc'|split; [exact Hst|split; [|intros _; exact Hrest]]]].
    + intros Hrange. rewrite Hlc, Hcp.
      rewrite (WordFacts.to_int32_small (cpending (glob s) + 1)) by lia.
      replace (cpending (glob s) + 1 - 1) with (cpending (glob s)) by lia.
      rewrite WordFacts.to_int32_small by lia. reflexivity.
    + intros Heq. by rewrite Hcp, Hcm, Heq.
  - destruct Hkind as [?|Hws]; [discriminate|].
    replace (WriteSet.size (writes (self s)) =? 0) with false.
    2: { symmetry. apply Z.eqb_neq. unfold WriteSet.size.
         destruct (writes (self s)); [congruence|cbn [length]; lia]. }
    intros Hfin. destruct (end_writing_finished _ _ Hfin) as ((Hcp & Hcm & Hlc & Hlc' & Hst) & _).
    change (glob s0) with (glob s) in *.
    split; [exact Hcp|]. split; [exact Hcm|]. split; [exact Hlc|].
    split; [|split; [exact Hlc'|split; [exact Hst|split; [|discriminate]]]].
    + intros Hrange. rewrite Hlc, Hcp.
      rewrite (WordFacts.to_int32_small (cpending (glob s) + 1)) by lia.
      replace (cpending (glob s) + 1 - 1) with (cpending (glob s)) by lia.
      reflexivity.
    + intros Heq. by rewrite Hcp, Hcm, Heq.
Qed.

Section Begin.

(** [a_runInstrumentedCode]: a constant of libitm.h, declared outside the
    sources; any value. *)
Variable a_runInstrumentedCode : Z.

(** [alg_tm_begin].  [passes] bounds how often control reaches the label
    [S1]: a begin that has not returned after that many passes is still
    in its loop. *)
Fixpoint alg_tm_begin (passes : nat) (extra : Z) (s : State) : outcome Z State :=
  match passes with
  | O => Spins s
  | S passes' =>
      _ <- spin_while (fun s => negb (cpending (glob s) =? committed (glob s))) s ;;
      fun s =>
      let s := on_glob (fun g => set_started (Word.to_int32 (started g + 1)) g) s in
      if (committed (glob s) <? cpending (glob s)) || (inplace (glob s) =? 1) then
        let s := on_glob (fun g => set_started (Word.to_int32 (started g - 1)) g) s in
        alg_tm_begin passes' extra s
      else
        let s := on_self (call_hook onTxBegin) s in
        let s := on_self (set_ts_cache (last_complete (glob s))) s in
        Returns (Z.lor extra a_runInstrumentedCode) s
  end.

(** A new cohort may start: the previous one has drained and nobody
    writes in place. *)
Definition gate_open (g : Globals) : Prop :=
  cpending g = committed g /\ inplace g <> 1.

Lemma restore_started (s : State) :
  - 2 ^ 31 <= started (glob s) < 2 ^ 31 ->
  on_glob (fun g => set_started (Word.to_int32 (started g - 1)) g)
    (on_glob (fun g => set_started (Word.to_int32 (started g + 1)) g) s) = s.
Proof.
  intros Hrange. destruct s as [tx g h]. destruct g. unfold on_glob, set_started. cbn in *.
  by rewrite WordFacts.to_int32_succ_pred.
Qed.

(** The pass of [alg_tm_begin] that finds the gate open. *)
Lemma begin_at_open_gate (passes : nat) (extra : Z) (s : State) :
  gate_open (glob s) ->
  alg_tm_begin (S passes) extra s =
  Returns (Z.lor extra a_runInstrumentedCode)
    {| self := set_ts_cache (last_complete (glob s)) (call_hook onTxBegin (self s));
       glob := set_started (Word.to_int32 (started (glob s) + 1)) (glob s);
       heap := heap s |}.
Proof.
  intros [Hdrained Hnoturbo]. cbn [alg_tm_begin]. unfold spin_while.
  rewrite Hdrained, Z.eqb_refl. cbn [negb bind]. cbv zeta.
  cbn [on_glob on_self glob self heap set_started committed cpending inplace last_complete].
  rewrite Hdrained, Z.ltb_irrefl.
  apply Z.eqb_neq in Hnoturbo. rewrite Hnoturbo. reflexivity.
Qed.

(** X8.  [alg_tm_begin] returns exactly when the gate is open
    ([cpending == committed] and [inplace != 1]).  It then returns
    [extra | a_runInstrumentedCode] on its first pass, with [started]
    incremented and [ts_cache] set to [last_complete]; no other
    coordination variable and nothing of the heap changes.  When the gate
    is closed it never returns, however many passes it makes, and its
    state stays the one it was called in: the increment of [started] is
    taken back on every pass. *)
Theorem begin_waits_for_open_gate (passes : nat) (extra : Z) (s : State) :
  - 2 ^ 31 <= started (glob s) < 2 ^ 31 ->
  (gate_open (glob s) ->
   alg_tm_begin (S passes) extra s =
   Returns (Z.lor extra a_runInstrumentedCode)
     {| self := set_ts_cache (last_complete (glob s)) (call_hook onTxBegin (self s));
        glob := set_started (Word.to_int32 (started (glob s) + 1)) (glob s);
        heap := heap s |}) /\
  (~ gate_open (glob s) -> alg_tm_begin passes extra s = Spins s).
Proof.
  intros Hrange. split.
  - apply begin_at_open_gate.
  - intros Hclosed. induction passes as [|passes IH]; [reflexivity|].
    cbn [alg_tm_begin]. unfold spin_while.
    destruct (cpending (glob s) =? committed (glob s)) eqn:Hdrained; cbn [negb bind];
      [|reflexivity].
    apply Z.eqb_eq in Hdrained. cbv zeta.
    replace ((committed _ <? cpending _) || (inplace _ =? 1)) with true.
    + rewrite (restore_started s Hrange). exact IH.
    + symmetry. apply orb_true_iff. right. apply Z.eqb_eq.
      cbn [on_glob glob set_started inplace].
      destruct (decide (inplace (glob s) = 1)) as [?|Hne]; [assumption|].
      exfalso. apply Hclosed. by split.
Qed.

(** No transaction is in flight: every begun transaction has taken its
    turn and finished, [last_complete] is the last turn taken, and nobody
    writes in place. *)
Definition quiescent (g : Globals) : Prop :=
  started g = cpending g /\
  cpending g = committed g /\
  last_complete g = Word.to_uintptr (cpending g) /\
  inplace g <> 1.

(** X11.  One transaction alone, from quiescent coordination variables
    (the 32-bit counters not at their last value).  Its begin returns on
    the first pass.  Whatever the body has done to the descriptor and the
    heap, its outermost commit outside turbo mode never waits: it returns
    or aborts in validation, and either way the coordination variables are
    quiescent again.  A read-only commit leaves them exactly as they were
    before the begin.  After an abort the rollback returns and a new begin
    returns on its first pass. *)
Theorem lone_transaction_returns_to_quiescence (passes : nat) (extra : Z) (s : State) :
  quiescent (glob s) ->
  - 2 ^ 31 <= cpending (glob s) < 2 ^ 31 - 1 ->
  exists s1,
    alg_tm_begin (S passes) extra s = Returns (Z.lor extra a_runInstrumentedCode) s1 /\
    forall body : State,
      glob body = glob s1 ->
      nesting_depth (self body) = 1 ->
      turbo (self body) = false ->
      exists s2,
        (alg_tm_end get_orec body = Returns tt s2 \/
         alg_tm_end get_orec body = Aborts s2) /\
        quiescent (glob s2) /\
        (writes (self body) = [] -> glob s2 = glob s) /\
        (alg_tm_end get_orec body = Aborts s2 ->
         exists s3 s4,
           alg_tm_rollback s2 = Returns tt s3 /\
           alg_tm_begin (S passes) extra s3 =
             Returns (Z.lor extra a_runInstrumentedCode) s4).
Proof.
  intros (Hst & Hcm & Hlc & Hinp) Hrange.
  assert (Hsrange : - 2 ^ 31 <= started (glob s) < 2 ^ 31) by lia.
  pose proof (begin_at_open_gate passes extra s) as Hbegin.
  eexists. split; [apply Hbegin; by split|].
  intros body Hglob Hdepth Hturbo.
  cbn [glob] in Hglob.
  assert (Hup : Word.to_int32 (cpending (glob s) + 1) = cpending (glob s) + 1)
    by (apply WordFacts.to_int32_small; lia).
  destruct (writes (self body)) as [|e ws] eqn:Hws.
  - (* read-only *)
    unfold alg_tm_end. cbv zeta.
    cbn [on_self self nesting_depth set_nesting_depth turbo writes].
    rewrite Hdepth, Hturbo, Hws. cbn [Z.sub Z.add Z.opp Z.pos_sub Z.eqb negb WriteSet.size length Z.of_nat].
    unfold end_read_only. cbv zeta. eexists. split; [left; reflexivity|].
    cbn [on_self on_glob glob self]. rewrite Hglob.
    assert (Hback : set_started
              (Word.to_int32 (started (set_started (Word.to_int32 (started (glob s) + 1)) (glob s)) - 1))
              (set_started (Word.to_int32 (started (glob s) + 1)) (glob s)) = glob s).
    { destruct (glob s). unfold set_started. cbn in *.
      by rewrite WordFacts.to_int32_succ_pred. }
    rewrite Hback. split; [by repeat split|]. split; [reflexivity|discriminate].
  - (* writing *)
    assert (Hne : writes (self body) <> []) by (rewrite Hws; discriminate).
    assert (Hturn : turn_reached (ordered body)).
    { unfold turn_reached, ordered, take_order. cbn. rewrite Hglob. cbn.
      rewrite Hup, Hst, Hup. split; [|lia].
      replace (cpending (glob s) + 1 - 1) with (cpending (glob s)) by lia. exact Hlc. }
    pose proof (alg_tm_end_at_turn get_orec body Hdepth Hturbo Hne Hturn) as Hrun.
    rewrite <- Hws. rewrite Hrun.
    assert (Hq : forall g',
      cpending g' = Word.to_int32 (cpending (glob s) + 1) ->
      committed g' = Word.to_int32 (committed (glob s) + 1) ->
      started g' = Word.to_int32 (started (glob s) + 1) ->
      last_complete g' = Word.to_uintptr (Word.to_int32 (cpending (glob s) + 1)) ->
      inplace g' = inplace (glob s) ->
      quiescent g').
    { intros g' H1 H2 H3 H4 H5. unfold quiescent.
      rewrite H1, H2, H3, H4, H5, Hst, Hcm. repeat split; auto. }
    destruct (must_validate (ordered body)).
    2: { unfold end_publish. cbv zeta. eexists. split; [left; reflexivity|].
         split; [|split; [congruence|discriminate]].
         apply Hq; cbn; rewrite Hglob; reflexivity. }
    unfold validate.
    destruct (decide (Exists (stale (ordered body)) (r_orecs (self (ordered body))))) as [Hex|Hnex].
    + rewrite (validate_from_stale _ _ Hex). cbn [bind].
      eexists. split; [right; reflexivity|].
      assert (Hquiet : quiescent (glob (validate_abort_state (ordered body)))).
      { apply Hq; cbn; rewrite Hglob; reflexivity. }
      split; [exact Hquiet|]. split; [congruence|]. intros _.
      unfold alg_tm_rollback. cbv zeta. eexists. eexists. split; [reflexivity|].
      set (s3 := on_self _ _).
      apply begin_at_open_gate. destruct Hquiet as (_ & Hd & _ & Hi). by split.
    + rewrite validate_from_fresh.
      2: { apply Forall_forall. intros o Ho Hst'. apply Hnex. apply Exists_exists. eauto. }
      cbn [bind]. unfold end_publish. cbv zeta. eexists. split; [left; reflexivity|].
      split; [|split; [congruence|discriminate]].
      apply Hq; cbn; rewrite Hglob; reflexivity.
Qed.

Section Increment.

Variable WordType_Write : Z -> Z -> Z -> State -> State.

(** Run the record updates of a state, leaving the arithmetic and the
    heap operations as they stand. *)
Ltac crunch_state :=
  cbv -[Word.to_int32 Word.to_uintptr Heap.read_v Heap.load write_back_entry
        Z.add Z.sub Z.eqb Z.ltb Z.lor Z.pow Z.le Z.lt quiescent app validate_from].

(** X13.  One transaction alone that increments the word at [addr], from
    quiescent coordination variables (the 32-bit counters not at their
    last value), on a descriptor with empty logs and an orec of [addr]
    that is not newer than [last_complete]: begin, [Read], [Write] of the
    word plus one (modulo the width of the word) and the outermost commit
    all return, with no wait and no abort, whether or not the commit
    validates.  The read returns the word in memory.  After the commit
    memory holds the incremented word and the orec of [addr] carries the
    new [last_complete], which is one above the old; the other words and
    orecs are as before, the coordination variables are quiescent again,
    the logs are empty, and the descriptor counts one more writing commit
    and no abort. *)
Theorem lone_increment_publishes (passes : nat) (extra addr : Z) (s : State) :
  quiescent (glob s) ->
  0 <= cpending (glob s) < 2 ^ 31 - 1 ->
  nesting_depth (self s) = 1 ->
  turbo (self s) = false ->
  r_orecs (self s) = [] ->
  writes (self s) = [] ->
  Heap.read_v (heap s) (get_orec addr) <= last_complete (glob s) ->
  0 <= Heap.load (heap s) addr < 2 ^ 64 ->
  exists s1 s2 s3 s4,
    alg_tm_begin (S passes) extra s = Returns (Z.lor extra a_runInstrumentedCode) s1 /\
    Read get_orec addr s1 = Returns (Heap.load (heap s) addr) s2 /\
    Write get_orec WordType_Write addr (Word.to_uintptr (Heap.load (heap s) addr + 1)) (2 ^ 64 - 1) s2 =
      Returns tt s3 /\
    alg_tm_end get_orec s3 = Returns tt s4 /\
    Heap.load (heap s4) addr = Word.to_uintptr (Heap.load (heap s) addr + 1) /\
    Heap.read_v (heap s4) (get_orec addr) = last_complete (glob s4) /\
    last_complete (glob s4) = last_complete (glob s) + 1 /\
    (forall a, a <> addr -> Heap.load (heap s4) a = Heap.load (heap s) a) /\
    (forall o, o <> get_orec addr -> Heap.read_v (heap s4) o = Heap.read_v (heap s) o) /\
    quiescent (glob s4) /\
    r_orecs (self s4) = [] /\ writes (self s4) = [] /\
    commits_rw (self s4) = commits_rw (self s) + 1 /\
    aborts (self s4) = aborts (self s).
Proof.
  intros (Hst & Hcm & Hlc & Hinp) Hrange Hdepth Hturbo Hro Hws Hver Hword.
  destruct s as [tx g h]. destruct tx. destruct g.
  cbn [self glob heap nesting_depth turbo r_orecs writes started cpending committed
       last_complete inplace] in *.
  subst.
  assert (Hup : Word.to_int32 (committed0 + 1) = committed0 + 1)
    by (apply WordFacts.to_int32_small; lia).
  assert (Hlast : Word.to_uintptr committed0 = committed0)
    by (apply WordFacts.to_uintptr_small; lia).
  assert (Hnext : Word.to_uintptr (committed0 + 1) = committed0 + 1)
    by (apply WordFacts.to_uintptr_small; lia).
  assert (Hnew : 0 <= Word.to_uintptr (Heap.load h addr + 1) < 2 ^ 64)
    by apply WordFacts.to_uintptr_range.
  assert (Hprev : committed0 + 1 - 1 = committed0) by lia.
  assert (Hfresh : (Word.to_uintptr committed0 <? Heap.read_v h (get_orec addr)) = false)
    by (apply Z.ltb_ge; exact Hver).
  apply Z.eqb_neq in Hinp.
  eexists. eexists. eexists. eexists.
  split.
  { cbn [alg_tm_begin]. unfold spin_while. crunch_state.
    rewrite Z.eqb_refl. crunch_state. rewrite Z.ltb_irrefl, Hinp. crunch_state.
    rewrite Hup. reflexivity. }
  split; [unfold Read; crunch_state; reflexivity|].
  split; [unfold Write; crunch_state; reflexivity|].
  split.
  { unfold alg_tm_end. crunch_state.
    replace (1 - 1 =? 0) with true by reflexivity.
    replace (1 =? 0) with false by reflexivity. crunch_state.
    rewrite Hup, Hprev, Z.eqb_refl. crunch_state.
    rewrite Z.ltb_irrefl. crunch_state.
    rewrite Hinp.
    destruct (committed0 + 1 =? last_order0); crunch_state;
      [|cbn [app validate_from]; crunch_state; rewrite Hfresh; crunch_state]; reflexivity. }
  crunch_state.
  split; [|split; [|split; [|split; [|split; [|split]]]]].
  - rewrite load_write_back_entry. cbn [WriteSet.addr WriteSet.val WriteSet.mask].
    destruct (decide (addr = addr)) as [_|Hne]; [|congruence].
    apply WordFacts.full_mask_store; [exact Hword|exact Hnew].
  - rewrite read_v_write_back_entry. cbn [WriteSet.addr].
    destruct (decide (get_orec addr = get_orec addr)) as [_|Hne]; [|congruence].
    reflexivity.
  - rewrite Hnext, Hlast. reflexivity.
  - intros a Hne. rewrite load_write_back_entry. cbn [WriteSet.addr].
    destruct (decide (addr = a)); congruence.
  - intros o' Hne. rewrite read_v_write_back_entry. cbn [WriteSet.addr].
    destruct (decide (get_orec addr = o')); congruence.
  - unfold quiescent. crunch_state.
    rewrite ?Hup. apply Z.eqb_neq in Hinp. repeat split; auto.
  - repeat split; reflexivity.
Qed.

End Increment.

End Begin.

End Lifecycle.

(** The writer of the runs above with a read log that is still valid: it
    began when [last_complete] was 4. *)
Definition demo_valid_writer : State :=
  on_self (set_ts_cache 4) demo_writer.

(** The descriptor of the writer before its begin, no transaction in
    flight. *)
Definition demo_idle : State :=
  {| self := {| nesting_depth := 0; turbo := false; ts_cache := 0; order := 0;
                r_orecs := []; writes := []; undo_log := [];
                aborts := 0; commits_ro := 0; commits_rw := 0; hooks := [] |};
     glob := {| started := 4; cpending := 4; committed := 4; last_order := 4;
                gatekeeper := 0; inplace := 0; last_complete := 4; timestamp := 0 |};
     heap := heap demo_writer |}.

Lemma begin_waits_for_open_gate_witness :
  alg_tm_begin 1 1 0 demo_idle =
  Returns 1
    {| self := set_ts_cache 4 (call_hook onTxBegin (self demo_idle));
       glob := set_started 5 (glob demo_idle);
       heap := heap demo_idle |}.
Proof.
  refine (proj1 (begin_waits_for_open_gate 1 0 0 demo_idle _) _).
  - cbn. lia.
  - split; [reflexivity|discriminate].
Defined.

Lemma writing_commit_writes_back_witness :
  exists s',
    alg_tm_end Demo.get_orec demo_valid_writer = Returns tt s' /\
    last_complete (glob s') = 5 /\
    Heap.read_v (heap s') (Demo.get_orec 40) = last_complete (glob s') /\
    Heap.load (heap s') 40 = 7.
Proof.
  destruct (writing_commit_writes_back Demo.get_orec demo_valid_writer)
    as (s' & Hrun & Hord & Hlc & Hmark & _ & Hload & _).
  - reflexivity.
  - reflexivity.
  - discriminate.
  - split; [reflexivity|]. vm_compute. discriminate.
  - intros _. repeat constructor. vm_compute. discriminate.
  - exists s'. split; [exact Hrun|]. split; [|split].
    + rewrite Hlc, Hord. reflexivity.
    + apply (Hmark {| WriteSet.addr := 40; WriteSet.val := 7; WriteSet.mask := 255 |}).
      apply list_elem_of_singleton. reflexivity.
    + refine (eq_trans
        (Hload {| WriteSet.addr := 40; WriteSet.val := 7; WriteSet.mask := 255 |} _ _) _).
      * repeat constructor. intros Hin. by apply elem_of_nil in Hin.
      * apply list_elem_of_singleton. reflexivity.
      * vm_compute. reflexivity.
Defined.

(** A transaction in turbo mode when [cpending] is at the last value of
    its 32 bits; the commit before it has completed. *)
Definition demo_turbo_last : State :=
  {| self := {| nesting_depth := 1; turbo := true; ts_cache := 0; order := 0;
                r_orecs := [5]; writes := []; undo_log := [];
                aborts := 0; commits_ro := 0; commits_rw := 0; hooks := [onTxBegin] |};
     glob := {| started := 2147483647; cpending := 2147483647; committed := 2147483647;
                last_order := 0; gatekeeper := 0; inplace := 1;
                last_complete := 2147483647; timestamp := 0 |};
     heap := heap demo_writer |}.

Lemma finished_commit_takes_one_turn_witness :
  exists s',
    alg_tm_end Demo.get_orec demo_turbo_last = Returns tt s' /\
    cpending (glob s') = - 2147483648 /\
    committed (glob s') = - 2147483648 /\
    last_complete (glob demo_turbo_last) = 2147483647 /\
    last_complete (glob s') = 2 ^ 64 - 2 ^ 31 /\
    inplace (glob s') = 0 /\
    heap s' = heap demo_turbo_last.
Proof.
  assert (Hrun : exists s', alg_tm_end Demo.get_orec demo_turbo_last = Returns tt s')
    by (vm_compute; eexists; reflexivity).
  destruct Hrun as [s' Hrun]. exists s'.
  destruct (finished_commit_takes_one_turn Demo.get_orec demo_turbo_last s')
    as (Hcp & Hcm & Hlc & _ & Hlc' & _ & _ & Hturbo).
  - reflexivity.
  - left. reflexivity.
  - left. exact Hrun.
  - destruct Hturbo as (Hinp & _ & Hheap); [reflexivity|].
    split; [exact Hrun|]. split; [exact Hcp|]. split; [exact Hcm|].
    split; [reflexivity|]. split; [|split; [exact Hinp|exact Hheap]].
    rewrite Hlc', Hcp. reflexivity.
Defined.

Lemma lone_transaction_returns_to_quiescence_witness :
  exists s1,
    alg_tm_begin 1 1 0 demo_idle = Returns 1 s1 /\
    exists s2,
      alg_tm_end Demo.get_orec (on_self (set_nesting_depth 1) s1) = Returns tt s2 /\
      glob s2 = glob demo_idle.
Proof.
  destruct (lone_transaction_returns_to_quiescence Demo.get_orec 1 0 0 demo_idle)
    as (s1 & Hbegin & Hbody).
  - repeat split; try reflexivity. discriminate.
  - cbn. lia.
  - exists s1. split; [exact Hbegin|].
    destruct (Hbody (on_self (set_nesting_depth 1) s1)) as (s2 & Hfin & _ & Hsame & _);
      [reflexivity|reflexivity| |].
    + vm_compute in Hbegin. injection Hbegin as <-. reflexivity.
    + exists s2. split.
      * destruct Hfin as [Hret|Hab]; [exact Hret|].
        vm_compute in Hbegin. injection Hbegin as <-. vm_compute in Hab. discriminate.
      * apply Hsame. vm_compute in Hbegin. injection Hbegin as <-. reflexivity.
Defined.

Lemma lone_increment_publishes_witness :
  exists s4,
    Heap.load (heap s4) 40 = 2 /\
    Heap.read_v (heap s4) (Demo.get_orec 40) = 5 /\
    last_complete (glob s4) = 5 /\
    commits_rw (self s4) = 1.
Proof.
  destruct (lone_increment_publishes Demo.get_orec 0 demo_WordType_Write 1 0 40
              (on_self (set_nesting_depth 1) demo_idle))
    as (s1 & s2 & s3 & s4 & _ & _ & _ & _ & Hload & Hver & Hlc & _ & _ & _ & _ & _ & Hrw & _).
  - repeat split; try reflexivity. discriminate.
  - cbn. lia.
  - reflexivity.
  - reflexivity.
  - reflexivity.
  - reflexivity.
  - vm_compute. discriminate.
  - vm_compute. split; [discriminate | reflexivity].
  - exists s4. split; [exact Hload|]. split; [|split; [exact Hlc|exact Hrw]].
    rewrite Hver. exact Hlc.
Defined.

End CohortsEager.

(** ** The libstm runtime shared by LLT-AMD64 and Pipeline-Turbo *)

Module Libstm.

(** Modelled from the spec: section 9 allows a small state enumeration in
    the descriptor for the three dispatch pointers [tmread], [tmwrite] and
    [tmcommit], which the code always sets together, to the read-only, the
    writing or the turbo variants of the algorithm. *)
Inductive dispatch := ReadOnly | Writing | Turbo.

(** Modelled from the spec: the descriptor [TxThread] is declared outside
    the sources.  Section 3 lists its fields; the ones the two algorithms
    use are kept.  [order] is an [intptr_t] (compared with [-1], cast to
    [uintptr_t] in the code), the clock values [start_time], [ts_cache] and
    the lock word [my_lock.all] are [uintptr_t], the statistics counters
    are unbounded integers.  [hooks] records the calls to the allocator and
    the user callbacks. *)
Record TxThread := {
  start_time : Z;
  ts_cache : Z;
  order : Z;
  my_lock : Z;
  r_orecs : list Z;
  writes : list WriteSet.WriteSetEntry;
  locks : list Z;
  mode : dispatch;
  aborts : Z;
  commits_ro : Z;
  commits_rw : Z;
  hooks : list hook
}.

(** The global words [timestamp.val], [timestamp_max.val] and
    [last_complete.val], all [uintptr_t] (declared outside the sources). *)
Record Clock := { timestamp : Z; timestamp_max : Z; last_complete : Z }.

(** What one call of a per-thread entry point can touch: [self] is the
    descriptor of the calling thread. *)
Record State := { self : TxThread; clk : Clock; heap : Heap.Shared }.

(** What an [OnSwitchTo] callback can touch: the global words and the
    registry [threads] of which the first [threadcount.val] slots hold the
    descriptors of the registered threads. *)
Record Runtime := { clock : Clock; threads : list TxThread; threadcount : nat }.

Definition on_self (f : TxThread -> TxThread) (s : State) : State :=
  {| self := f (self s); clk := clk s; heap := heap s |}.

Definition on_clk (f : Clock -> Clock) (s : State) : State :=
  {| self := self s; clk := f (clk s); heap := heap s |}.

Definition on_heap (f : Heap.Shared -> Heap.Shared) (s : State) : State :=
  {| self := self s; clk := clk s; heap := f (heap s) |}.

Definition set_start_time (n : Z) (tx : TxThread) : TxThread :=
  {| start_time := n; ts_cache := ts_cache tx; order := order tx;
     my_lock := my_lock tx; r_orecs := r_orecs tx; writes := writes tx;
     locks := locks tx; mode := mode tx; aborts := aborts tx;
     commits_ro := commits_ro tx; commits_rw := commits_rw tx;
     hooks := hooks tx |}.

Definition set_ts_cache (n : Z) (tx : TxThread) : TxThread :=
  {| start_time := start_time tx; ts_cache := n; order := order tx;
     my_lock := my_lock tx; r_orecs := r_orecs tx; writes := writes tx;
     locks := locks tx; mode := mode tx; aborts := aborts tx;
     commits_ro := commits_ro tx; commits_rw := commits_rw tx;
     hooks := hooks tx |}.

Definition set_order (n : Z) (tx : TxThread) : TxThread :=
  {| start_time := start_time tx; ts_cache := ts_cache tx; order := n;
     my_lock := my_lock tx; r_orecs := r_orecs tx; writes := writes tx;
     locks := locks tx; mode := mode tx; aborts := aborts tx;
     commits_ro := commits_ro tx; commits_rw := commits_rw tx;
     hooks := hooks tx |}.

Definition set_r_orecs (l : list Z) (tx : TxThread) : TxThread :=
  {| start_time := start_time tx; ts_cache := ts_cache tx; order := order tx;
     my_lock := my_lock tx; r_orecs := l; writes := writes tx;
     locks := locks tx; mode := mode tx; aborts := aborts tx;
     commits_ro := commits_ro tx; commits_rw := commits_rw tx;
     hooks := hooks tx |}.

Definition set_writes (ws : list WriteSet.WriteSetEntry) (tx : TxThread) : TxThread :=
  {| start_time := start_time tx; ts_cache := ts_cache tx; order := order tx;
     my_lock := my_lock tx; r_orecs := r_orecs tx; writes := ws;
     locks := locks tx; mode := mode tx; aborts := aborts tx;
     commits_ro := commits_ro tx; commits_rw := commits_rw tx;
     hooks := hooks tx |}.

Definition set_locks (l : list Z) (tx : TxThread) : TxThread :=
  {| start_time := start_time tx; ts_cache := ts_cache tx; order := order tx;
     my_lock := my_lock tx; r_orecs := r_orecs tx; writes := writes tx;
     locks := l; mode := mode tx; aborts := aborts tx;
     commits_ro := commits_ro tx; commits_rw := commits_rw tx;
     hooks := hooks tx |}.

Definition set_mode (m : dispatch) (tx : TxThread) : TxThread :=
  {| start_time := start_time tx; ts_cache := ts_cache tx; order := order tx;
     my_lock := my_lock tx; r_orecs := r_orecs tx; writes := writes tx;
     locks := locks tx; mode := m; aborts := aborts tx;
     commits_ro := commits_ro tx; commits_rw := commits_rw tx;
     hooks := hooks tx |}.

Definition set_aborts (n : Z) (tx : TxThread) : TxThread :=
  {| start_time := start_time tx; ts_cache := ts_cache tx; order := order tx;
     my_lock := my_lock tx; r_orecs := r_orecs tx; writes := writes tx;
     locks := locks tx; mode := mode tx; aborts := n;
     commits_ro := commits_ro tx; commits_rw := commits_rw tx;
     hooks := hooks tx |}.

Definition set_commits_ro (n : Z) (tx : TxThread) : TxThread :=
  {| start_time := start_time tx; ts_cache := ts_cache tx; order := order tx;
     my_lock := my_lock tx; r_orecs := r_orecs tx; writes := writes tx;
     locks := locks tx; mode := mode tx; aborts := aborts tx;
     commits_ro := n; commits_rw := commits_rw tx; hooks := hooks tx |}.

Definition set_commits_rw (n : Z) (tx : TxThread) : TxThread :=
  {| start_time := start_time tx; ts_cache := ts_cache tx; order := order tx;
     my_lock := my_lock tx; r_orecs := r_orecs tx; writes := writes tx;
     locks := locks tx; mode := mode tx; aborts := aborts tx;
     commits_ro := commits_ro tx; commits_rw := n; hooks := hooks tx |}.

Definition call_hook (h : hook) (tx : TxThread) : TxThread :=
  {| start_time := start_time tx; ts_cache := ts_cache tx; order := order tx;
     my_lock := my_lock tx; r_orecs := r_orecs tx; writes := writes tx;
     locks := locks tx; mode := mode tx; aborts := aborts tx;
     commits_ro := commits_ro tx; commits_rw := commits_rw tx;
     hooks := hooks tx ++ [h] |}.

Definition set_timestamp (n : Z) (c : Clock) : Clock :=
  {| timestamp := n; timestamp_max := timestamp_max c;
     last_complete := last_complete c |}.

Definition set_last_complete (n : Z) (c : Clock) : Clock :=
  {| timestamp := timestamp c; timestamp_max := timestamp_max c;
     last_complete := n |}.

(** Modelled from the spec: the helpers of algs.hpp are not among the
    sources.  Section 9: the source swaps the read, write and commit
    pointers when a transaction goes from read-only to writing or enters
    turbo mode. *)
Definition OnFirstWrite (tx : TxThread) : TxThread := set_mode Writing tx.

(** Modelled from the spec: [ResetToRO] (section 9), back to the read-only
    pointers. *)
Definition ResetToRO (tx : TxThread) : TxThread := set_mode ReadOnly tx.

(** Modelled from the spec: [GoTurbo] (section 9), on to the turbo
    pointers. *)
Definition GoTurbo (tx : TxThread) : TxThread := set_mode Turbo tx.

(** Modelled from the spec: [CheckTurboMode(tx, read_turbo)] (section 9):
    is [tx->tmread] the turbo read? *)
Definition CheckTurboMode (tx : TxThread) : bool :=
  match mode tx with Turbo => true | _ => false end.

(** Modelled from the spec: sections 3, 6 and 7 give a rollback the abort
    counter, the allocator hook [onTxAbort] and the user callback
    [onRollback], and a commit the commit counters, [onTxCommit] and
    [onCommit]; the order is the one of Cohort-Eager's [alg_tm_rollback]
    and [alg_tm_end]. *)
Definition PreRollback (tx : TxThread) : TxThread :=
  set_aborts (aborts tx + 1) tx.

(** Modelled from the spec: [PostRollback] (sections 6 and 7): the
    allocator hook, then the user callback. *)
Definition PostRollback (tx : TxThread) : TxThread :=
  call_hook onRollback (call_hook onTxAbort tx).

(** Modelled from the spec: [OnROCommit] (sections 3 and 6). *)
Definition OnROCommit (tx : TxThread) : TxThread :=
  call_hook onCommit (set_commits_ro (commits_ro tx + 1) (call_hook onTxCommit tx)).

(** Modelled from the spec: [OnRWCommit] (sections 3 and 6). *)
Definition OnRWCommit (tx : TxThread) : TxThread :=
  call_hook onCommit (set_commits_rw (commits_rw tx + 1) (call_hook onTxCommit tx)).

(** Modelled from the spec: [WriteSet::writeback] (section 4.2, step 4 of
    the writing commit): every entry of the redo log is stored to memory,
    in insertion order, on the bytes of its mask. *)
Definition writeback (ws : list WriteSet.WriteSetEntry) (sh : Heap.Shared) : Heap.Shared :=
  fold_left (fun h e => Heap.store_masked (WriteSet.addr e) (WriteSet.val e) (WriteSet.mask e) h) ws sh.

(** Modelled from the spec: [REDO_RAW_CHECK(found, log, mask)] (section
    4.2: a writing transaction consults [writes] first and returns the
    buffered value if hit).  It is a hit when the entry found covers every
    byte the read asks for. *)
Definition REDO_RAW_CHECK (found : option WriteSet.WriteSetEntry) (mask : Z) : option Z :=
  match found with
  | Some log => if Z.land mask (WriteSet.mask log) =? mask then Some (WriteSet.val log) else None
  | None => None
  end.

(** What the other threads do to the heap at the points where a call looks
    at it again: one step per point, in order, none when the list is
    exhausted. *)
Definition interference := list (Heap.Shared -> Heap.Shared).

Definition others (env : interference) (k : nat) : Heap.Shared -> Heap.Shared :=
  nth k env (fun sh => sh).

End Libstm.

(** ** Reading back what was stored *)

Module HeapFacts.
Import Heap.

Lemma read_v_set_v_eq (o ver : Z) (sh : Shared) : read_v (set_v o ver sh) o = ver.
Proof. unfold read_v, orec_at, set_v. cbn. by rewrite lookup_insert_eq. Qed.

Lemma read_v_set_v_ne (o o' ver : Z) (sh : Shared) :
  o <> o' -> read_v (set_v o ver sh) o' = read_v sh o'.
Proof. intros Hne. unfold read_v, orec_at, set_v. cbn. by rewrite lookup_insert_ne. Qed.

Lemma read_p_set_v (o o' ver : Z) (sh : Shared) :
  read_p (set_v o ver sh) o' = read_p sh o'.
Proof.
  unfold read_p at 1. unfold orec_at, set_v. cbn.
  destruct (decide (o = o')) as [->|Hne].
  - by rewrite lookup_insert_eq.
  - by rewrite lookup_insert_ne.
Qed.

Lemma read_p_set_p_eq (o ver : Z) (sh : Shared) : read_p (set_p o ver sh) o = ver.
Proof. unfold read_p, orec_at, set_p. cbn. by rewrite lookup_insert_eq. Qed.

Lemma read_v_set_p (o o' ver : Z) (sh : Shared) :
  read_v (set_p o ver sh) o' = read_v sh o'.
Proof.
  unfold read_v at 1. unfold orec_at, set_p. cbn.
  destruct (decide (o = o')) as [->|Hne].
  - by rewrite lookup_insert_eq.
  - by rewrite lookup_insert_ne.
Qed.

Lemma read_v_store (a w o : Z) (sh : Shared) : read_v (store a w sh) o = read_v sh o.
Proof. reflexivity. Qed.

Lemma load_store_eq (a w : Z) (sh : Shared) : load (store a w sh) a = w.
Proof. unfold load, store. cbn. by rewrite lookup_insert_eq. Qed.

Lemma load_store_ne (a a' w : Z) (sh : Shared) :
  a <> a' -> load (store a w sh) a' = load sh a'.
Proof. intros Hne. unfold load, store. cbn. by rewrite lookup_insert_ne. Qed.

Lemma mem_of_set_v (o ver : Z) (sh : Shared) : mem (set_v o ver sh) = mem sh.
Proof. reflexivity. Qed.

End HeapFacts.

(** ** LLT-AMD64 (src/libstm/algs/LLTAMD64.cpp) *)

Module LLTAMD64.
Import Libstm.

Section Algorithm.

(** [get_orec]: the hash from an address to its stripe of the orec table
    (declared outside the sources; any function). *)
Variable get_orec : Z -> Z.

(** [REDO_RAW_CLEANUP(tmp, found, log, mask)]: the fix-up of the word read
    from memory with the entry found in the redo log (a macro declared
    outside the sources; any function). *)
Variable REDO_RAW_CLEANUP : Z -> option WriteSet.WriteSetEntry -> Z -> Z.

(** [STM_ROLLBACK(tx->writes, except, len)]: the writes to the exception
    object, a range of user memory (a macro declared outside the sources;
    any function of the words of user memory). *)
Variable STM_ROLLBACK : list WriteSet.WriteSetEntry -> Z -> Z -> gmap Z Z -> gmap Z Z.

Definition stm_rollback (ws : list WriteSet.WriteSetEntry) (except len : Z) (sh : Heap.Shared) : Heap.Shared :=
  {| Heap.mem := STM_ROLLBACK ws except len (Heap.mem sh);
     Heap.orecs := Heap.orecs sh;
     Heap.stores := Heap.stores sh |}.

(** [LLTAMD64Begin]; [tick] is the value [tickp()] returns. *)
Definition LLTAMD64Begin (tick : Z) (s : State) : outcome unit State :=
  let s := on_self (call_hook onTxBegin) s in
  let s := on_self (set_start_time tick) s in
  Returns tt s.

(** [LLTAMD64CommitRO] *)
Definition LLTAMD64CommitRO (s : State) : outcome unit State :=
  let s := on_self (set_r_orecs []) s in
  let s := on_self OnROCommit s in
  Returns tt s.

(** One iteration of the acquire loop of [LLTAMD64CommitRW].  [step] is
    what the other threads do between the read of the version and the
    compare-and-swap. *)
Definition acquire_entry (step : Heap.Shared -> Heap.Shared) (e : WriteSet.WriteSetEntry) (s : State) : outcome unit State :=
  let o := get_orec (WriteSet.addr e) in
  let ivt := Heap.read_v (heap s) o in
  let s := on_heap step s in
  if ivt <=? start_time (self s) then
    let (acquired, sh) := Heap.bcasptr o ivt (my_lock (self s)) (heap s) in
    if negb acquired then Aborts s
    else
      let s := on_heap (fun _ => sh) s in
      let s := on_heap (Heap.set_p o ivt) s in
      let s := on_self (fun tx => set_locks (locks tx ++ [o]) tx) s in
      Returns tt s
  else if negb (ivt =? my_lock (self s)) then Aborts s
  else Returns tt s.

Fixpoint acquire (env : interference) (ws : list WriteSet.WriteSetEntry) (s : State) : outcome unit State :=
  match ws with
  | [] => Returns tt s
  | e :: rest =>
      _ <- acquire_entry (others env 0) e s ;;
      acquire (tl env) rest
  end.

(** [LLTAMD64Validate]: the loop over [tx->r_orecs]. *)
Fixpoint validate_from (os : list Z) (s : State) : outcome unit State :=
  match os with
  | [] => Returns tt s
  | o :: rest =>
      let ivt := Heap.read_v (heap s) o in
      if (start_time (self s) <? ivt) && negb (ivt =? my_lock (self s)) then Aborts s
      else validate_from rest s
  end.

Definition LLTAMD64Validate (s : State) : outcome unit State :=
  validate_from (r_orecs (self s)) s.

(** The release loop: the version of every orec of [locks] is set to
    [end_time]. *)
Definition release (end_time : Z) (ls : list Z) (sh : Heap.Shared) : Heap.Shared :=
  fold_left (fun h o => Heap.set_v o end_time h) ls sh.

(** [LLTAMD64CommitRW]; [end_time] is the value [tickp()] returns after the
    acquire loop. *)
Definition LLTAMD64CommitRW (env : interference) (end_time : Z) (s : State) : outcome unit State :=
  _ <- acquire env (writes (self s)) s ;;
  fun s =>
  _ <- LLTAMD64Validate s ;;
  fun s =>
  let s := on_heap (writeback (writes (self s))) s in
  let s := on_heap (release end_time (locks (self s))) s in
  let s := on_self (set_r_orecs []) s in
  let s := on_self (set_writes []) s in
  let s := on_self (set_locks []) s in
  let s := on_self OnRWCommit s in
  let s := on_self ResetToRO s in
  Returns tt s.

(** [LLTAMD64ReadRO].  The other threads run at the two fences, between
    the three reads. *)
Definition LLTAMD64ReadRO (env : interference) (addr : Z) (s : State) : outcome Z State :=
  let o := get_orec addr in
  let ivt := Heap.read_v (heap s) o in
  let s := on_heap (others env 0) s in
  let tmp := Heap.load (heap s) addr in
  let s := on_heap (others env 1) s in
  let ivt2 := Heap.read_v (heap s) o in
  if (ivt <=? start_time (self s)) && (ivt =? ivt2) then
    let s := on_self (fun tx => set_r_orecs (r_orecs tx ++ [o]) tx) s in
    Returns tmp s
  else Aborts s.

(** [LLTAMD64ReadRW] *)
Definition LLTAMD64ReadRW (env : interference) (addr mask : Z) (s : State) : outcome Z State :=
  let found := WriteSet.find addr (writes (self s)) in
  match REDO_RAW_CHECK found mask with
  | Some buffered => Returns buffered s
  | None =>
      let o := get_orec addr in
      let ivt := Heap.read_v (heap s) o in
      let s := on_heap (others env 0) s in
      let tmp := Heap.load (heap s) addr in
      let s := on_heap (others env 1) s in
      let ivt2 := Heap.read_v (heap s) o in
      let tmp := REDO_RAW_CLEANUP tmp found mask in
      if (ivt <=? start_time (self s)) && (ivt =? ivt2) then
        let s := on_self (fun tx => set_r_orecs (r_orecs tx ++ [o]) tx) s in
        Returns tmp s
      else Aborts s
  end.

(** [LLTAMD64WriteRO] *)
Definition LLTAMD64WriteRO (addr val mask : Z) (s : State) : outcome unit State :=
  let e := {| WriteSet.addr := addr; WriteSet.val := val; WriteSet.mask := mask |} in
  let s := on_self (fun tx => set_writes (WriteSet.insert e (writes tx)) tx) s in
  let s := on_self OnFirstWrite s in
  Returns tt s.

(** [LLTAMD64WriteRW] *)
Definition LLTAMD64WriteRW (addr val mask : Z) (s : State) : outcome unit State :=
  let e := {| WriteSet.addr := addr; WriteSet.val := val; WriteSet.mask := mask |} in
  let s := on_self (fun tx => set_writes (WriteSet.insert e (writes tx)) tx) s in
  Returns tt s.

(** The loop of [LLTAMD64Rollback] over [tx->locks]: the version of each
    orec is set to its own [p]. *)
Definition restore (ls : list Z) (sh : Heap.Shared) : Heap.Shared :=
  fold_left (fun h o => Heap.set_v o (Heap.read_p h o) h) ls sh.

(** [LLTAMD64Rollback] *)
Definition LLTAMD64Rollback (except len : Z) (s : State) : outcome unit State :=
  let s := on_self PreRollback s in
  let s := on_heap (stm_rollback (writes (self s)) except len) s in
  let s := on_heap (restore (locks (self s))) s in
  let s := on_self (set_r_orecs []) s in
  let s := on_self (set_writes []) s in
  let s := on_self (set_locks []) s in
  let s := on_self PostRollback s in
  let s := on_self ResetToRO s in
  Returns tt s.

(** [LLTAMD64OnSwitchTo]: the body of the source is a comment. *)
Definition LLTAMD64OnSwitchTo (r : Runtime) : Runtime := r.

(** *** Properties of LLT-AMD64 *)

Lemma restore_cons (o : Z) (ls : list Z) (sh : Heap.Shared) :
  restore (o :: ls) sh = restore ls (Heap.set_v o (Heap.read_p sh o) sh).
Proof. reflexivity. Qed.

Lemma restore_read_p (ls : list Z) (sh : Heap.Shared) (o : Z) :
  Heap.read_p (restore ls sh) o = Heap.read_p sh o.
Proof.
  revert sh. induction ls as [|a ls IH]; intros sh; [reflexivity|].
  rewrite restore_cons, IH. apply HeapFacts.read_p_set_v.
Qed.

Lemma restore_read_v_other (ls : list Z) (sh : Heap.Shared) (o : Z) :
  o ∉ ls -> Heap.read_v (restore ls sh) o = Heap.read_v sh o.
Proof.
  revert sh. induction ls as [|a ls IH]; intros sh Hnot; [reflexivity|].
  apply not_elem_of_cons in Hnot as [Hne Hnot].
  rewrite restore_cons, IH by exact Hnot.
  apply HeapFacts.read_v_set_v_ne. congruence.
Qed.

Lemma restore_read_v_locked (ls : list Z) (sh : Heap.Shared) (o : Z) :
  o ∈ ls -> Heap.read_v (restore ls sh) o = Heap.read_p sh o.
Proof.
  revert sh. induction ls as [|a ls IH]; intros sh Hin.
  - by apply elem_of_nil in Hin.
  - rewrite restore_cons.
    destruct (decide (o ∈ ls)) as [Htail|Htail].
    + rewrite IH by exact Htail. apply HeapFacts.read_p_set_v.
    + apply elem_of_cons in Hin as [->|Hin]; [|contradiction].
      rewrite restore_read_v_other by exact Htail.
      apply HeapFacts.read_v_set_v_eq.
Qed.

(** C8.  [LLTAMD64Rollback] returns.  Every orec of the [locks] list of the
    transaction then has, as its version, the value its [p] field held:
    the version saved when the orec was acquired.  The [p] fields are
    untouched, and so is the version of every orec that is not in the
    list.  In the descriptor [r_orecs], [writes] and [locks] are empty. *)
Theorem rollback_restores_versions (except len : Z) (s : State) :
  exists s',
    LLTAMD64Rollback except len s = Returns tt s' /\
    (forall o, o ∈ locks (self s) ->
       Heap.read_v (heap s') o = Heap.read_p (heap s) o) /\
    (forall o, o ∉ locks (self s) ->
       Heap.read_v (heap s') o = Heap.read_v (heap s) o) /\
    (forall o, Heap.read_p (heap s') o = Heap.read_p (heap s) o) /\
    r_orecs (self s') = [] /\
    writes (self s') = [] /\
    locks (self s') = [].
Proof.
  unfold LLTAMD64Rollback. cbv zeta.
  eexists. split; [reflexivity|]. cbn.
  repeat split.
  - intros o Hin. by rewrite restore_read_v_locked.
  - intros o Hnot. by rewrite restore_read_v_other.
  - intros o. by rewrite restore_read_p.
Qed.



(** An orec of the read log fails the commit-time validation: its version
    is above [start_time] and is not the lock word of the transaction. *)
Definition too_new (s : State) (o : Z) : Prop :=
  start_time (self s) < Heap.read_v (heap s) o /\
  Heap.read_v (heap s) o <> my_lock (self s).

#[local] Instance too_new_dec (s : State) (o : Z) : Decision (too_new s o).
Proof. unfold too_new. apply _. Defined.

Lemma too_new_test (s : State) (o : Z) :
  (start_time (self s) <? Heap.read_v (heap s) o)
  && negb (Heap.read_v (heap s) o =? my_lock (self s)) = true <-> too_new s o.
Proof.
  unfold too_new.
  rewrite andb_true_iff, negb_true_iff, Z.ltb_lt, Z.eqb_neq. reflexivity.
Qed.

Lemma validate_from_too_new (os : list Z) (s : State) :
  Exists (too_new s) os -> validate_from os s = Aborts s.
Proof.
  induction os as [|o os IH]; intros Hex; [inversion Hex|].
  cbn [validate_from].
  destruct (_ && _) eqn:Htest; [reflexivity|].
  apply IH. inversion Hex as [? ? Hbad|]; subst; [|assumption].
  apply too_new_test in Hbad. congruence.
Qed.

Lemma validate_from_valid (os : list Z) (s : State) :
  Forall (fun o => ~ too_new s o) os -> validate_from os s = Returns tt s.
Proof.
  induction 1 as [|o os Ho _ IH]; cbn [validate_from]; [reflexivity|].
  destruct (_ && _) eqn:Htest; [|exact IH].
  apply too_new_test in Htest. contradiction.
Qed.

Lemma release_cons (end_time o : Z) (ls : list Z) (sh : Heap.Shared) :
  release end_time (o :: ls) sh = release end_time ls (Heap.set_v o end_time sh).
Proof. reflexivity. Qed.

Lemma release_mem (end_time : Z) (ls : list Z) (sh : Heap.Shared) :
  Heap.mem (release end_time ls sh) = Heap.mem sh.
Proof.
  revert sh. induction ls as [|a ls IH]; intros sh; [reflexivity|].
  rewrite release_cons, IH. reflexivity.
Qed.

Lemma release_read_v_other (end_time : Z) (ls : list Z) (sh : Heap.Shared) (o : Z) :
  o ∉ ls -> Heap.read_v (release end_time ls sh) o = Heap.read_v sh o.
Proof.
  revert sh. induction ls as [|a ls IH]; intros sh Hnot; [reflexivity|].
  apply not_elem_of_cons in Hnot as [Hne Hnot].
  rewrite release_cons, IH by exact Hnot.
  apply HeapFacts.read_v_set_v_ne. congruence.
Qed.

Lemma release_read_v_locked (end_time : Z) (ls : list Z) (sh : Heap.Shared) (o : Z) :
  o ∈ ls -> Heap.read_v (release end_time ls sh) o = end_time.
Proof.
  revert sh. induction ls as [|a ls IH]; intros sh Hin.
  - by apply elem_of_nil in Hin.
  - rewrite release_cons.
    destruct (decide (o ∈ ls)) as [Htail|Htail]; [by apply IH|].
    apply elem_of_cons in Hin as [->|Hin]; [|contradiction].
    rewrite release_read_v_other by exact Htail.
    apply HeapFacts.read_v_set_v_eq.
Qed.

Lemma writeback_read_v (ws : list WriteSet.WriteSetEntry) (sh : Heap.Shared) (o : Z) :
  Heap.read_v (writeback ws sh) o = Heap.read_v sh o.
Proof.
  revert sh. induction ws as [|e ws IH]; intros sh; [reflexivity|].
  unfold writeback in *. cbn [fold_left]. rewrite IH. reflexivity.
Qed.

(** The acquire loop changes the heap and the [locks] list, nothing else
    of the descriptor. *)
Lemma acquire_entry_frame (step : Heap.Shared -> Heap.Shared) (e : WriteSet.WriteSetEntry) (s s1 : State) :
  acquire_entry step e s = Returns tt s1 ->
  r_orecs (self s1) = r_orecs (self s) /\
  writes (self s1) = writes (self s) /\
  start_time (self s1) = start_time (self s) /\
  my_lock (self s1) = my_lock (self s).
Proof.
  unfold acquire_entry. cbv zeta. cbn [on_heap on_self self heap clk].
  destruct (_ <=? _).
  - unfold Heap.bcasptr. destruct (_ =? _); cbn [negb]; [|discriminate].
    intros [= <-]. cbn. auto.
  - destruct (negb _); [discriminate|]. intros [= <-]. cbn. auto.
Qed.

Lemma acquire_frame (env : interference) (ws : list WriteSet.WriteSetEntry) (s s1 : State) :
  acquire env ws s = Returns tt s1 ->
  r_orecs (self s1) = r_orecs (self s) /\
  writes (self s1) = writes (self s) /\
  start_time (self s1) = start_time (self s) /\
  my_lock (self s1) = my_lock (self s).
Proof.
  revert env s. induction ws as [|e ws IH]; intros env s.
  - cbn. intros [= <-]. auto.
  - cbn [acquire].
    destruct (acquire_entry (others env 0) e s) as [[] s2| | |] eqn:Hentry;
      cbn [bind]; try discriminate.
    intros Hrest. apply IH in Hrest as (-> & -> & -> & ->).
    apply acquire_entry_frame in Hentry. exact Hentry.
Qed.

Lemma load_of_mem (sh sh' : Heap.Shared) (a : Z) :
  Heap.mem sh = Heap.mem sh' -> Heap.load sh a = Heap.load sh' a.
Proof. unfold Heap.load. by intros ->. Qed.

(** The word a masked store of entry [e] leaves at its address. *)
Definition merged (e : WriteSet.WriteSetEntry) (old : Z) : Z :=
  Z.lor (Z.ldiff old (WriteSet.mask e)) (Z.land (WriteSet.val e) (WriteSet.mask e)).

Lemma writeback_cons (e : WriteSet.WriteSetEntry) (ws : list WriteSet.WriteSetEntry) (sh : Heap.Shared) :
  writeback (e :: ws) sh =
  writeback ws (Heap.store_masked (WriteSet.addr e) (WriteSet.val e) (WriteSet.mask e) sh).
Proof. reflexivity. Qed.

Lemma writeback_load_other (ws : list WriteSet.WriteSetEntry) (sh : Heap.Shared) (a : Z) :
  a ∉ map WriteSet.addr ws -> Heap.load (writeback ws sh) a = Heap.load sh a.
Proof.
  revert sh. induction ws as [|x ws IH]; intros sh Hnot; [reflexivity|].
  cbn [map] in Hnot. apply not_elem_of_cons in Hnot as [Hne Hnot].
  rewrite writeback_cons, IH by exact Hnot.
  unfold Heap.store_masked. apply HeapFacts.load_store_ne. congruence.
Qed.

Lemma writeback_load (ws : list WriteSet.WriteSetEntry) (sh : Heap.Shared) (e : WriteSet.WriteSetEntry) :
  NoDup (map WriteSet.addr ws) -> e ∈ ws ->
  Heap.load (writeback ws sh) (WriteSet.addr e) = merged e (Heap.load sh (WriteSet.addr e)).
Proof.
  revert sh. induction ws as [|x ws IH]; intros sh Hnd Hin.
  - by apply elem_of_nil in Hin.
  - cbn [map] in Hnd. apply NoDup_cons in Hnd as [Hfresh Hnd].
    rewrite writeback_cons.
    apply elem_of_cons in Hin as [->|Hin].
    + rewrite writeback_load_other by exact Hfresh.
      unfold Heap.store_masked. apply HeapFacts.load_store_eq.
    + rewrite IH by assumption. f_equal.
      unfold Heap.store_masked. apply HeapFacts.load_store_ne.
      intros Heq. apply Hfresh. rewrite Heq.
      apply list_elem_of_fmap. eauto.
Qed.

(** The stores of the write-back of a redo log over [sh], in program
    order: one word for each entry, in the order of the log. *)
Fixpoint writeback_trace (ws : list WriteSet.WriteSetEntry) (sh : Heap.Shared) : list Heap.store_event :=
  match ws with
  | [] => []
  | e :: rest =>
      Heap.StWord (WriteSet.addr e) (merged e (Heap.load sh (WriteSet.addr e))) ::
      writeback_trace rest
        (Heap.store_masked (WriteSet.addr e) (WriteSet.val e) (WriteSet.mask e) sh)
  end.

(** The stores of the release loop, in program order. *)
Definition release_trace (end_time : Z) (ls : list Z) : list Heap.store_event :=
  map (fun o => Heap.StOrecV o end_time) ls.

Lemma writeback_stores (ws : list WriteSet.WriteSetEntry) (sh : Heap.Shared) :
  Heap.stores (writeback ws sh) = Heap.stores sh ++ writeback_trace ws sh.
Proof.
  revert sh. induction ws as [|e ws IH]; intros sh.
  - cbn. by rewrite app_nil_r.
  - rewrite writeback_cons, IH. cbn [writeback_trace].
    unfold Heap.store_masked at 1. unfold Heap.store at 1. cbn [Heap.stores].
    by rewrite <- app_assoc.
Qed.

Lemma release_stores (end_time : Z) (ls : list Z) (sh : Heap.Shared) :
  Heap.stores (release end_time ls sh) = Heap.stores sh ++ release_trace end_time ls.
Proof.
  revert sh. induction ls as [|o ls IH]; intros sh.
  - cbn. by rewrite app_nil_r.
  - rewrite release_cons, IH. unfold release_trace. cbn [map Heap.set_v Heap.stores].
    by rewrite <- app_assoc.
Qed.

(** The state of an iteration of the acquire loop that has taken the
    orec [o] at version [ivt]: the compare-and-swap has installed the lock
    word, then [ivt] is saved in the [p] field and the orec is appended to
    [locks].  [s1] is the state the other threads have left before the
    compare-and-swap. *)
Definition acquired (o ivt : Z) (s1 : State) : State :=
  {| self := set_locks (locks (self s1) ++ [o]) (self s1);
     clk := clk s1;
     heap := Heap.set_p o ivt (Heap.set_v o (my_lock (self s1)) (heap s1)) |}.

Lemma acquire_entry_cases (step : Heap.Shared -> Heap.Shared) (e : WriteSet.WriteSetEntry) (s : State) :
  let o := get_orec (WriteSet.addr e) in
  let ivt := Heap.read_v (heap s) o in
  let s1 := on_heap step s in
  (ivt <= start_time (self s) -> Heap.read_v (heap s1) o = ivt ->
   acquire_entry step e s = Returns tt (acquired o ivt s1)) /\
  (ivt <= start_time (self s) -> Heap.read_v (heap s1) o <> ivt ->
   acquire_entry step e s = Aborts s1) /\
  (start_time (self s) < ivt -> ivt = my_lock (self s) ->
   acquire_entry step e s = Returns tt s1) /\
  (start_time (self s) < ivt -> ivt <> my_lock (self s) ->
   acquire_entry step e s = Aborts s1).
Proof.
  intros o ivt s1.
  unfold acquire_entry, acquired. cbv zeta. cbn [on_heap on_self self heap clk].
  fold o ivt. change (step (heap s)) with (heap s1).
  split; [|split; [|split]].
  - intros Hle Hsame. apply Z.leb_le in Hle. rewrite Hle. unfold Heap.bcasptr.
    rewrite Hsame, Z.eqb_refl. reflexivity.
  - intros Hle Hne. apply Z.leb_le in Hle. rewrite Hle. unfold Heap.bcasptr.
    apply Z.eqb_neq in Hne. rewrite Hne. reflexivity.
  - intros Hlt Heq. replace (ivt <=? start_time (self s)) with false
      by (symmetry; apply Z.leb_gt; exact Hlt).
    apply Z.eqb_eq in Heq. rewrite Heq. reflexivity.
  - intros Hlt Hne. replace (ivt <=? start_time (self s)) with false
      by (symmetry; apply Z.leb_gt; exact Hlt).
    apply Z.eqb_neq in Hne. rewrite Hne. reflexivity.
Qed.

(** However the loop ends, [locks] has grown by orecs of the log it ran
    on, and nothing else of the descriptor has changed. *)
Lemma acquire_entry_locks (step : Heap.Shared -> Heap.Shared) (e : WriteSet.WriteSetEntry) (s s1 : State) :
  acquire_entry step e s = Returns tt s1 \/ acquire_entry step e s = Aborts s1 ->
  (locks (self s1) = locks (self s) \/
   locks (self s1) = locks (self s) ++ [get_orec (WriteSet.addr e)]) /\
  r_orecs (self s1) = r_orecs (self s) /\
  writes (self s1) = writes (self s) /\
  start_time (self s1) = start_time (self s) /\
  my_lock (self s1) = my_lock (self s).
Proof.
  unfold acquire_entry. cbv zeta. cbn [on_heap on_self self heap clk].
  destruct (_ <=? _).
  - unfold Heap.bcasptr. destruct (_ =? _); cbn [negb].
    + intros [[= <-]|[=]]. cbn. auto.
    + intros [[=]|[= <-]]. cbn. auto.
  - destruct (negb _).
    + intros [[=]|[= <-]]. cbn. auto.
    + intros [[= <-]|[=]]. cbn. auto.
Qed.

Lemma acquire_locks (env : interference) (ws : list WriteSet.WriteSetEntry) (s s1 : State) :
  acquire env ws s = Returns tt s1 \/ acquire env ws s = Aborts s1 ->
  (exists got,
     locks (self s1) = locks (self s) ++ got /\
     Forall (fun o => o ∈ map (fun e => get_orec (WriteSet.addr e)) ws) got) /\
  r_orecs (self s1) = r_orecs (self s) /\
  writes (self s1) = writes (self s) /\
  start_time (self s1) = start_time (self s) /\
  my_lock (self s1) = my_lock (self s).
Proof.
  revert env s. induction ws as [|e ws IH]; intros env s.
  - cbn [acquire]. intros [[= <-]|[=]]. split; [|auto].
    exists []. split; [by rewrite app_nil_r|constructor].
  - cbn [acquire].
    destruct (acquire_entry (others env 0) e s) as [[] s2|s2|s2|s2] eqn:Hentry; cbn [bind].
    + intros Hrest.
      destruct (acquire_entry_locks _ _ _ _ (or_introl Hentry)) as (Hone & Hro & Hws & Hst & Hml).
      apply IH in Hrest as ((got & Hlocks & Hgot) & -> & -> & -> & ->).
      split; [|auto].
      assert (Htail : Forall (fun o => o ∈ map (fun e => get_orec (WriteSet.addr e)) (e :: ws)) got).
      { eapply Forall_impl; [exact Hgot|]. intros o Ho. cbn [map]. by apply elem_of_cons; right. }
      destruct Hone as [Hsame|Hgrown].
      * exists got. split; [by rewrite Hlocks, Hsame|exact Htail].
      * exists (get_orec (WriteSet.addr e) :: got). split.
        -- rewrite Hlocks, Hgrown, <- app_assoc. reflexivity.
        -- constructor; [cbn [map]; by apply elem_of_cons; left|exact Htail].
    + intros [[=]|[= <-]].
      destruct (acquire_entry_locks _ _ _ _ (or_intror Hentry)) as (Hone & Hrest).
      split; [|exact Hrest].
      destruct Hone as [Hsame|Hgrown].
      * exists []. split; [by rewrite app_nil_r|constructor].
      * exists [get_orec (WriteSet.addr e)]. split; [exact Hgrown|].
        constructor; [cbn [map]; by apply elem_of_cons; left|constructor].
    + intros [[=]|[=]].
    + intros [[=]|[=]].
Qed.

(** C4.  The writing commit.
    (1) The acquire loop of the commit, entry by entry in the order of
    the redo log.  On an empty rest of the log it is done.  On an entry
    [e], [ivt] being the version read from the orec of [e] and [s1] the
    state the other threads have left before the compare-and-swap.  If
    [ivt <= start_time]: when the orec still holds [ivt] the
    compare-and-swap installs [my_lock], then [ivt] is saved in the [p]
    field and the orec is appended to [locks] (two stores, in this
    order), and the loop goes on with the rest of the log; when it does
    not, the loop ends in an abort, nothing stored.  If
    [ivt > start_time]: the loop goes on with the rest of the log,
    nothing stored, when [ivt] is [my_lock], and ends in an abort
    otherwise.  However the loop ends and whatever the other threads do,
    [locks] is then the list it started with followed by orecs of the
    redo log only, and the logs, [start_time] and [my_lock] of the
    descriptor are unchanged: an abort leaves the orecs taken so far in
    [locks].
    (2) Validation aborts when some orec of [r_orecs] has a version above
    [start_time] that is not [my_lock], and returns otherwise.
    (3) The commit runs this loop on its redo log: an abort of the loop
    is an abort of the commit, in the state of the loop, so with nothing
    written back and no orec released; a commit whose first entry fails
    to acquire aborts there.
    (4) After a complete acquire loop ([end_time] is then read from the
    tick counter), the commit aborts when validation does; otherwise it
    returns, user memory is the one the write-back of the redo log gives
    (each address of the log holds the bytes of its entry, the other
    addresses are untouched), every orec of [locks] has [end_time] as its
    version, the other orecs keep theirs, the three lists are empty, and
    the stores after the loop are the words of the write-back in the
    order of the log followed by [end_time] into each orec of [locks] in
    the order of acquisition: no orec is released before the last word is
    written. *)
Theorem commit_rw_protocol :
  (forall (env : interference) (s : State), acquire env [] s = Returns tt s) /\
  (forall (env : interference) (e : WriteSet.WriteSetEntry)
          (rest : list WriteSet.WriteSetEntry) (s : State),
     let o := get_orec (WriteSet.addr e) in
     let ivt := Heap.read_v (heap s) o in
     let s1 := on_heap (others env 0) s in
     let held := acquired o ivt s1 in
     (ivt <= start_time (self s) -> Heap.read_v (heap s1) o = ivt ->
      acquire env (e :: rest) s = acquire (tl env) rest held /\
      Heap.read_v (heap held) o = my_lock (self s) /\
      Heap.read_p (heap held) o = ivt /\
      locks (self held) = locks (self s) ++ [o] /\
      Heap.stores (heap held) =
        Heap.stores (heap s1) ++ [Heap.StOrecV o (my_lock (self s)); Heap.StOrecP o ivt]) /\
     (ivt <= start_time (self s) -> Heap.read_v (heap s1) o <> ivt ->
      acquire env (e :: rest) s = Aborts s1) /\
     (start_time (self s) < ivt -> ivt = my_lock (self s) ->
      acquire env (e :: rest) s = acquire (tl env) rest s1) /\
     (start_time (self s) < ivt -> ivt <> my_lock (self s) ->
      acquire env (e :: rest) s = Aborts s1)) /\
  (forall (env : interference) (ws : list WriteSet.WriteSetEntry) (s s1 : State),
     acquire env ws s = Returns tt s1 \/ acquire env ws s = Aborts s1 ->
     (exists got,
        locks (self s1) = locks (self s) ++ got /\
        Forall (fun o => o ∈ map (fun e => get_orec (WriteSet.addr e)) ws) got) /\
     r_orecs (self s1) = r_orecs (self s) /\
     writes (self s1) = writes (self s) /\
     start_time (self s1) = start_time (self s) /\
     my_lock (self s1) = my_lock (self s)) /\
  (forall s : State,
     (Exists (too_new s) (r_orecs (self s)) -> LLTAMD64Validate s = Aborts s) /\
     (Forall (fun o => ~ too_new s o) (r_orecs (self s)) ->
      LLTAMD64Validate s = Returns tt s)) /\
  (forall (env : interference) (end_time : Z) (s s1 : State),
     acquire env (writes (self s)) s = Aborts s1 ->
     LLTAMD64CommitRW env end_time s = Aborts s1) /\
  (forall (env : interference) (end_time : Z) (e : WriteSet.WriteSetEntry)
          (rest : list WriteSet.WriteSetEntry) (s : State),
     let o := get_orec (WriteSet.addr e) in
     let ivt := Heap.read_v (heap s) o in
     let s1 := on_heap (others env 0) s in
     writes (self s) = e :: rest ->
     (ivt <= start_time (self s) /\ Heap.read_v (heap s1) o <> ivt) \/
     (start_time (self s) < ivt /\ ivt <> my_lock (self s)) ->
     LLTAMD64CommitRW env end_time s = Aborts s1) /\
  (forall (env : interference) (end_time : Z) (s s1 : State),
     acquire env (writes (self s)) s = Returns tt s1 ->
     (Exists (too_new s1) (r_orecs (self s)) ->
      LLTAMD64CommitRW env end_time s = Aborts s1) /\
     (Forall (fun o => ~ too_new s1 o) (r_orecs (self s)) ->
      exists s',
        LLTAMD64CommitRW env end_time s = Returns tt s' /\
        Heap.mem (heap s') = Heap.mem (writeback (writes (self s)) (heap s1)) /\
        (forall e, NoDup (map WriteSet.addr (writes (self s))) ->
           e ∈ writes (self s) ->
           Heap.load (heap s') (WriteSet.addr e) =
           merged e (Heap.load (heap s1) (WriteSet.addr e))) /\
        (forall a, a ∉ map WriteSet.addr (writes (self s)) ->
           Heap.load (heap s') a = Heap.load (heap s1) a) /\
        (forall o, o ∈ locks (self s1) -> Heap.read_v (heap s') o = end_time) /\
        (forall o, o ∉ locks (self s1) ->
           Heap.read_v (heap s') o = Heap.read_v (heap s1) o) /\
        Heap.stores (heap s') =
          Heap.stores (heap s1) ++
          writeback_trace (writes (self s)) (heap s1) ++
          release_trace end_time (locks (self s1)) /\
        r_orecs (self s') = [] /\
        writes (self s') = [] /\
        locks (self s') = [])).
Proof.
  assert (Hloop : forall (env : interference) (e : WriteSet.WriteSetEntry)
                         (rest : list WriteSet.WriteSetEntry) (s : State),
     let o := get_orec (WriteSet.addr e) in
     let ivt := Heap.read_v (heap s) o in
     let s1 := on_heap (others env 0) s in
     (ivt <= start_time (self s) -> Heap.read_v (heap s1) o = ivt ->
      acquire env (e :: rest) s = acquire (tl env) rest (acquired o ivt s1)) /\
     (ivt <= start_time (self s) -> Heap.read_v (heap s1) o <> ivt ->
      acquire env (e :: rest) s = Aborts s1) /\
     (start_time (self s) < ivt -> ivt = my_lock (self s) ->
      acquire env (e :: rest) s = acquire (tl env) rest s1) /\
     (start_time (self s) < ivt -> ivt <> my_lock (self s) ->
      acquire env (e :: rest) s = Aborts s1)).
  { intros env e rest s o ivt s1.
    destruct (acquire_entry_cases (others env 0) e s) as (Htake & Hlost & Hmine & Hheld).
    fold o ivt s1 in Htake, Hlost, Hmine, Hheld. cbn [acquire].
    split; [|split; [|split]]; intros Hcmp Hver.
    - by rewrite (Htake Hcmp Hver).
    - by rewrite (Hlost Hcmp Hver).
    - by rewrite (Hmine Hcmp Hver).
    - by rewrite (Hheld Hcmp Hver). }
  split; [reflexivity|]. split; [|split; [exact acquire_locks|split; [|split; [|split]]]].
  - intros env e rest s o ivt s1 held.
    destruct (Hloop env e rest s) as (Htake & Hlost & Hmine & Hheld).
    fold o ivt s1 in Htake, Hlost, Hmine, Hheld.
    split; [|split; [exact Hlost|split; [exact Hmine|exact Hheld]]].
    intros Hcmp Hver. split; [exact (Htake Hcmp Hver)|].
    subst held. unfold acquired. cbn [heap self locks set_locks].
    split; [|split; [|split]].
    + rewrite HeapFacts.read_v_set_p. apply HeapFacts.read_v_set_v_eq.
    + apply HeapFacts.read_p_set_p_eq.
    + reflexivity.
    + cbn [Heap.set_p Heap.set_v Heap.stores]. by rewrite <- app_assoc.
  - intros s. unfold LLTAMD64Validate. split.
    + apply validate_from_too_new.
    + apply validate_from_valid.
  - intros env end_time s s1 Hacq. unfold LLTAMD64CommitRW.
    rewrite Hacq. reflexivity.
  - intros env end_time e rest s o ivt s1 Hws Hfail.
    destruct (Hloop env e rest s) as (_ & Hlost & _ & Hheld).
    fold o ivt s1 in Hlost, Hheld.
    unfold LLTAMD64CommitRW. rewrite Hws.
    destruct Hfail as [[Hcmp Hver]|[Hcmp Hver]].
    + rewrite (Hlost Hcmp Hver). reflexivity.
    + rewrite (Hheld Hcmp Hver). reflexivity.
  - intros env end_time s s1 Hacq.
    destruct (acquire_frame _ _ _ _ Hacq) as (Hro & Hws & _ & _).
    unfold LLTAMD64CommitRW. rewrite Hacq. cbn [bind].
    unfold LLTAMD64Validate. rewrite Hro. split.
    + intros Hex. rewrite (validate_from_too_new _ _ Hex). reflexivity.
    + intros Hall. rewrite (validate_from_valid _ _ Hall). cbn [bind]. cbv zeta.
      eexists. split; [reflexivity|]. cbn. rewrite Hws.
      split; [apply release_mem|].
      split; [|split; [|split; [|split; [|split; [|repeat split]]]]].
      * intros e Hnd Hin.
        rewrite (load_of_mem _ (writeback (writes (self s)) (heap s1)))
          by apply release_mem.
        by apply writeback_load.
      * intros a Hnot.
        rewrite (load_of_mem _ (writeback (writes (self s)) (heap s1)))
          by apply release_mem.
        by apply writeback_load_other.
      * intros o Hin. by apply release_read_v_locked.
      * intros o Hnot. rewrite release_read_v_other by exact Hnot.
        apply writeback_read_v.
      * rewrite release_stores, writeback_stores. by rewrite <- app_assoc.
Qed.

End Algorithm.

(** *** Concrete runs *)

(** The fix-up of the byte-logging redo log: the logged bytes over the
    word read. *)
Definition demo_REDO_RAW_CLEANUP (tmp : Z) (found : option WriteSet.WriteSetEntry) (mask : Z) : Z :=
  match found with
  | Some log => Z.lor (Z.ldiff tmp (WriteSet.mask log)) (Z.land (WriteSet.val log) (WriteSet.mask log))
  | None => tmp
  end.

(** The exception object is not written. *)
Definition demo_STM_ROLLBACK (ws : list WriteSet.WriteSetEntry) (except len : Z) (m : gmap Z Z) : gmap Z Z := m.

(** A transaction that began at tick 10, read a word of stripe 6 and
    buffered a write of the low byte of address 40 (stripe 5). *)
Definition demo_committer : State :=
  {| self := {| start_time := 10; ts_cache := 0; order := -1; my_lock := 2 ^ 63 + 1;
                r_orecs := [6];
                writes := [ {| WriteSet.addr := 40; WriteSet.val := 7; WriteSet.mask := 255 |} ];
                locks := []; mode := Writing;
                aborts := 0; commits_ro := 0; commits_rw := 0;
                hooks := [onTxBegin] |};
     clk := {| timestamp := 0; timestamp_max := 0; last_complete := 0 |};
     heap := {| Heap.mem := {[ 40 := 256 ]};
                Heap.orecs := {[ 5 := {| Heap.v_all := 4; Heap.p := 0 |};
                                 6 := {| Heap.v_all := 9; Heap.p := 0 |} ]};
                Heap.stores := [] |} |}.

Example commit_alone :
  LLTAMD64CommitRW Demo.get_orec [] 20 demo_committer =
  Returns tt
    {| self := {| start_time := 10; ts_cache := 0; order := -1; my_lock := 2 ^ 63 + 1;
                  r_orecs := []; writes := []; locks := []; mode := ReadOnly;
                  aborts := 0; commits_ro := 0; commits_rw := 1;
                  hooks := [onTxBegin; onTxCommit; onCommit] |};
       clk := {| timestamp := 0; timestamp_max := 0; last_complete := 0 |};
       heap := {| Heap.mem := {[ 40 := 263 ]};
                  Heap.orecs := {[ 5 := {| Heap.v_all := 20; Heap.p := 4 |};
                                   6 := {| Heap.v_all := 9; Heap.p := 0 |} ]};
                  Heap.stores :=
                    [Heap.StOrecV 5 (2 ^ 63 + 1); Heap.StOrecP 5 4;
                     Heap.StWord 40 263; Heap.StOrecV 5 20] |} |}.
Proof. vm_compute. reflexivity. Qed.

(** Another thread commits to stripe 5 between the read of its version and
    the compare-and-swap: the commit aborts, nothing acquired. *)
Example commit_loses_the_race :
  LLTAMD64CommitRW Demo.get_orec [Heap.set_v 5 12] 20 demo_committer =
  Aborts (on_heap (Heap.set_v 5 12) demo_committer).
Proof. vm_compute. reflexivity. Qed.

(** A rollback after the acquire loop gives stripe 5 its version 4 back. *)
Example rollback_after_acquire :
  (_ <- acquire Demo.get_orec [] (writes (self demo_committer)) demo_committer ;;
   fun s =>
   _ <- LLTAMD64Rollback demo_STM_ROLLBACK 0 0 s ;;
   fun s' => Returns (Heap.read_v (heap s) 5, Heap.read_v (heap s') 5, locks (self s')) s') =
  Returns (2 ^ 63 + 1, 4, [])
    {| self := {| start_time := 10; ts_cache := 0; order := -1; my_lock := 2 ^ 63 + 1;
                  r_orecs := []; writes := []; locks := []; mode := ReadOnly;
                  aborts := 1; commits_ro := 0; commits_rw := 0;
                  hooks := [onTxBegin; onTxAbort; onRollback] |};
       clk := {| timestamp := 0; timestamp_max := 0; last_complete := 0 |};
       heap := {| Heap.mem := {[ 40 := 256 ]};
                  Heap.orecs := {[ 5 := {| Heap.v_all := 4; Heap.p := 4 |};
                                   6 := {| Heap.v_all := 9; Heap.p := 0 |} ]};
                  Heap.stores :=
                    [Heap.StOrecV 5 (2 ^ 63 + 1); Heap.StOrecP 5 4; Heap.StOrecV 5 4] |} |}.
Proof. vm_compute. reflexivity. Qed.

(** A read of address 48 (stripe 6, version 9) is valid at start time 10;
    it aborts when the stripe changes between the two reads of its
    version. *)
Example read_valid :
  LLTAMD64ReadRO Demo.get_orec [] 48 demo_committer =
  Returns 0 (on_self (set_r_orecs [6; 6]) demo_committer).
Proof. vm_compute. reflexivity. Qed.

Example read_torn :
  LLTAMD64ReadRO Demo.get_orec [fun sh => sh; Heap.set_v 6 10] 48 demo_committer =
  Aborts (on_heap (Heap.set_v 6 10) demo_committer).
Proof. vm_compute. reflexivity. Qed.

(** The read of a writing transaction at address 40, low byte: served from
    the redo log. *)
Example read_after_write :
  LLTAMD64ReadRW Demo.get_orec demo_REDO_RAW_CLEANUP [] 40 255 demo_committer =
  Returns 7 demo_committer.
Proof. vm_compute. reflexivity. Qed.

(** *** A writing commit with no other thread running *)

Section Alone.

Variable get_orec : Z -> Z.

(** The state of the acquire loop relative to the heap [h0] the commit
    started from: the orecs of [locks] hold the lock word and keep their
    old version in [p], the others still have the version of [h0], user
    memory is the one of [h0], and of the descriptor only [locks] has
    changed. *)
Definition acquiring (h0 : Heap.Shared) (tx0 : TxThread) (s : State) : Prop :=
  (forall o, o ∈ locks (self s) ->
     Heap.read_v (heap s) o = my_lock tx0 /\
     Heap.read_p (heap s) o = Heap.read_v h0 o /\
     Heap.read_v h0 o <= start_time tx0) /\
  (forall o, o ∉ locks (self s) -> Heap.read_v (heap s) o = Heap.read_v h0 o) /\
  Heap.mem (heap s) = Heap.mem h0 /\
  start_time (self s) = start_time tx0 /\
  my_lock (self s) = my_lock tx0 /\
  r_orecs (self s) = r_orecs tx0 /\
  writes (self s) = writes tx0.

Lemma acquiring_start (s : State) :
  locks (self s) = [] -> acquiring (heap s) (self s) s.
Proof.
  intros Hnil. unfold acquiring. rewrite Hnil.
  split; [|split; [|repeat split; reflexivity]].
  - intros o Hin. by apply elem_of_nil in Hin.
  - reflexivity.
Qed.

Lemma acquire_entry_alone (h0 : Heap.Shared) (tx0 : TxThread) (e : WriteSet.WriteSetEntry) (s : State) :
  start_time tx0 < my_lock tx0 ->
  acquiring h0 tx0 s ->
  let o := get_orec (WriteSet.addr e) in
  (exists s1,
     acquire_entry get_orec (fun sh => sh) e s = Returns tt s1 /\
     acquiring h0 tx0 s1 /\
     Heap.read_v (heap s1) o = my_lock tx0 /\
     (forall o', o' ∈ locks (self s1) <-> o' ∈ locks (self s) \/
        (o' = o /\ Heap.read_v (heap s) o <= start_time tx0))) \/
  (exists s1,
     acquire_entry get_orec (fun sh => sh) e s = Aborts s1 /\
     acquiring h0 tx0 s1 /\
     start_time tx0 < Heap.read_v h0 o /\
     Heap.read_v h0 o <> my_lock tx0).
Proof.
  intros Hlock (Hin & Hout & Hmem & Hst & Hml & Hro & Hws) o.
  unfold acquire_entry. cbv zeta. fold o.
  cbn [on_heap on_self self heap clk]. rewrite Hst, Hml.
  destruct (Heap.read_v (heap s) o <=? start_time tx0) eqn:Hle.
  - apply Z.leb_le in Hle. left.
    unfold Heap.bcasptr. rewrite Z.eqb_refl. cbn [negb].
    assert (Hfree : o ∉ locks (self s)).
    { intros Hheld. destruct (Hin o Hheld) as (Hv & _). lia. }
    eexists. split; [reflexivity|]. cbn [self heap clk on_heap on_self set_locks locks].
    split; [|split].
    + unfold acquiring.
      cbn [self heap clk on_heap on_self set_locks locks start_time my_lock r_orecs writes].
      split; [|split; [|repeat split; assumption]].
      * intros o' Ho'. rewrite HeapFacts.read_v_set_p.
        destruct (decide (o = o')) as [<-|Hne].
        -- rewrite HeapFacts.read_v_set_v_eq, HeapFacts.read_p_set_p_eq.
           rewrite <- (Hout o Hfree). auto.
        -- rewrite HeapFacts.read_v_set_v_ne by exact Hne.
           apply elem_of_app in Ho' as [Ho'|Ho'].
           2: { apply list_elem_of_singleton in Ho'. congruence. }
           destruct (Hin o' Ho') as (Hv & Hp & Hold).
           split; [exact Hv|]. split; [|exact Hold].
           unfold Heap.read_p, Heap.orec_at, Heap.set_p, Heap.set_v in *. cbn.
           rewrite !lookup_insert_ne by exact Hne. exact Hp.
      * intros o' Ho'. rewrite HeapFacts.read_v_set_p.
        assert (o <> o').
        { intros <-. apply Ho'. apply elem_of_app. right. by apply list_elem_of_singleton. }
        rewrite HeapFacts.read_v_set_v_ne by assumption.
        apply Hout. intros Hheld. apply Ho'. apply elem_of_app. by left.
    + rewrite HeapFacts.read_v_set_p. apply HeapFacts.read_v_set_v_eq.
    + intros o'. rewrite elem_of_app, list_elem_of_singleton. split.
      * intros [Hold | ->]; [by left|]. right. split; [reflexivity|exact Hle].
      * intros [Hold | [-> _]]; [by left|by right].
  - apply Z.leb_gt in Hle.
    destruct (Heap.read_v (heap s) o =? my_lock tx0) eqn:Hmine; cbn [negb].
    + apply Z.eqb_eq in Hmine. left. eexists. split; [reflexivity|].
      split; [|split].
      * unfold acquiring. cbn. repeat split; auto; apply Hin; assumption.
      * exact Hmine.
      * cbn. intros o'. split; [auto|]. intros [?|[_ ?]]; [assumption|lia].
    + apply Z.eqb_neq in Hmine.
      assert (Hfree : o ∉ locks (self s)).
      { intros Hheld. destruct (Hin o Hheld) as (Hv & _). contradiction. }
      rewrite (Hout o Hfree) in Hle, Hmine.
      right. eexists. split; [reflexivity|]. split; [|split; assumption].
      unfold acquiring. cbn. repeat split; auto; apply Hin; assumption.
Qed.

(** The orec of an entry of the redo log. *)
Definition orec_of (e : WriteSet.WriteSetEntry) : Z := get_orec (WriteSet.addr e).

Lemma acquire_alone (h0 : Heap.Shared) (tx0 : TxThread) (ws : list WriteSet.WriteSetEntry) (s : State) :
  start_time tx0 < my_lock tx0 ->
  acquiring h0 tx0 s ->
  (exists s1,
     acquire get_orec [] ws s = Returns tt s1 /\
     acquiring h0 tx0 s1 /\
     (forall o, o ∈ locks (self s) -> o ∈ locks (self s1)) /\
     (forall o, o ∈ locks (self s1) -> o ∈ locks (self s) \/ o ∈ map orec_of ws) /\
     (forall e, e ∈ ws -> Heap.read_v (heap s1) (orec_of e) = my_lock tx0)) \/
  (exists s1,
     acquire get_orec [] ws s = Aborts s1 /\
     acquiring h0 tx0 s1 /\
     exists e, e ∈ ws /\
       start_time tx0 < Heap.read_v h0 (orec_of e) /\
       Heap.read_v h0 (orec_of e) <> my_lock tx0).
Proof.
  intros Hlock. revert s. induction ws as [|e ws IH]; intros s Hinv.
  - left. exists s. cbn [acquire map].
    split; [reflexivity|]. split; [exact Hinv|]. split; [auto|]. split; [auto|].
    intros e He. by apply elem_of_nil in He.
  - cbn [acquire tl]. change (others [] 0) with (fun sh : Heap.Shared => sh).
    destruct (acquire_entry_alone h0 tx0 e s Hlock Hinv)
      as [(s1 & Hrun & Hinv1 & Hmine & Hlocks)|(s1 & Hrun & Hinv1 & Hnew & Hforeign)];
      rewrite Hrun; cbn [bind].
    + destruct (IH s1 Hinv1)
        as [(s2 & Hrest & Hinv2 & Hmono & Hsub & Hall)|(s2 & Hrest & Hinv2 & e' & He' & Hbad)].
      * left. exists s2. split; [exact Hrest|]. split; [exact Hinv2|].
        split; [|split].
        -- intros o Ho. apply Hmono. apply Hlocks. by left.
        -- intros o Ho. destruct (Hsub o Ho) as [Hin1|Hin1].
           ++ apply Hlocks in Hin1 as [?|[-> _]]; [by left|].
              right. cbn [map]. apply elem_of_cons. by left.
           ++ right. cbn [map]. apply elem_of_cons. by right.
        -- intros e' He'. apply elem_of_cons in He' as [->|He']; [|by apply Hall].
           destruct Hinv1 as (Hin1 & Hout1 & _). destruct Hinv2 as (Hin2 & Hout2 & _).
           destruct (decide (orec_of e ∈ locks (self s2))) as [Hheld|Hfree].
           ++ apply Hin2. exact Hheld.
           ++ rewrite (Hout2 _ Hfree).
              assert (Hfree1 : orec_of e ∉ locks (self s1)) by (intros H1; apply Hfree, Hmono, H1).
              rewrite <- (Hout1 _ Hfree1). exact Hmine.
      * right. exists s2. split; [exact Hrest|]. split; [exact Hinv2|].
        exists e'. split; [|exact Hbad]. apply elem_of_cons. by right.
    + right. exists s1. split; [reflexivity|]. split; [exact Hinv1|].
      exists e. split; [|split; assumption]. apply elem_of_cons. by left.
Qed.

Lemma acquired_validates (h0 : Heap.Shared) (tx0 : TxThread) (s1 : State) :
  acquiring h0 tx0 s1 ->
  Forall (fun o => Heap.read_v h0 o <= start_time tx0) (r_orecs tx0) ->
  LLTAMD64Validate s1 = Returns tt s1.
Proof.
  intros (Hin & Hout & _ & Hst & Hml & Hro & _) Hold.
  unfold LLTAMD64Validate. apply validate_from_valid. rewrite Hro.
  eapply Forall_impl; [exact Hold|]. intros o Ho [Hnew Hforeign].
  rewrite Hst in Hnew. rewrite Hml in Hforeign.
  destruct (decide (o ∈ locks (self s1))) as [Hheld|Hfree].
  - destruct (Hin o Hheld) as (Hv & _). contradiction.
  - rewrite (Hout o Hfree) in Hnew. cbv beta in Ho. lia.
Qed.

(** X6.  A writing commit with no other thread running, on a descriptor
    that holds no lock, whose lock word is above its start time, and for
    which no orec of its redo log or of its read log has a version above
    the start time.  The commit returns.  The orec of every address of the
    redo log then has [end_time] as its version and no orec is left
    locked: the other orecs keep the versions they had.  Every address of
    the log (an address has one entry) holds the bytes of its entry over
    the word it held, the other addresses keep their words.  The three
    lists are empty and the dispatch is read-only. *)
Theorem lone_commit_publishes (end_time : Z) (s : State) :
  locks (self s) = [] ->
  start_time (self s) < my_lock (self s) ->
  (forall e, e ∈ writes (self s) ->
     Heap.read_v (heap s) (orec_of e) <= start_time (self s)) ->
  Forall (fun o => Heap.read_v (heap s) o <= start_time (self s)) (r_orecs (self s)) ->
  exists s',
    LLTAMD64CommitRW get_orec [] end_time s = Returns tt s' /\
    (forall e, e ∈ writes (self s) -> Heap.read_v (heap s') (orec_of e) = end_time) /\
    (forall o, o ∉ map orec_of (writes (self s)) ->
       Heap.read_v (heap s') o = Heap.read_v (heap s) o) /\
    (forall e, NoDup (map WriteSet.addr (writes (self s))) ->
       e ∈ writes (self s) ->
       Heap.load (heap s') (WriteSet.addr e) =
       merged e (Heap.load (heap s) (WriteSet.addr e))) /\
    (forall a, a ∉ map WriteSet.addr (writes (self s)) ->
       Heap.load (heap s') a = Heap.load (heap s) a) /\
    r_orecs (self s') = [] /\
    writes (self s') = [] /\
    locks (self s') = [] /\
    mode (self s') = ReadOnly.
Proof.
  intros Hnil Hlock Hwrites Hreads.
  destruct (acquire_alone (heap s) (self s) (writes (self s)) s Hlock (acquiring_start s Hnil))
    as [(s1 & Hacq & Hinv & _ & Hsub & Hall)|(s1 & _ & _ & e & He & Hnew & _)].
  2: { specialize (Hwrites e He). lia. }
  pose proof (acquired_validates _ _ _ Hinv Hreads) as Hval.
  destruct Hinv as (Hin & Hout & Hmem & Hst & Hml & Hro & Hws).
  unfold LLTAMD64CommitRW. rewrite Hacq. cbn [bind]. rewrite Hval. cbn [bind].
  cbv zeta. eexists. split; [reflexivity|].
  cbn [on_self on_heap self heap clk]. rewrite Hws.
  assert (Hheld : forall e, e ∈ writes (self s) -> orec_of e ∈ locks (self s1)).
  { intros e He. destruct (decide (orec_of e ∈ locks (self s1))) as [?|Hfree]; [assumption|].
    exfalso. specialize (Hall e He). rewrite (Hout _ Hfree) in Hall.
    specialize (Hwrites e He). lia. }
  assert (Hfree : forall o, o ∉ map orec_of (writes (self s)) -> o ∉ locks (self s1)).
  { intros o Hnot Hheld'. destruct (Hsub o Hheld') as [Hold|Hw]; [|contradiction].
    rewrite Hnil in Hold. by apply elem_of_nil in Hold. }
  split; [|split; [|split; [|split]]].
  - intros e He. apply release_read_v_locked. by apply Hheld.
  - intros o Hnot. rewrite release_read_v_other by (by apply Hfree).
    rewrite writeback_read_v. apply Hout. by apply Hfree.
  - intros e Hnd He.
    rewrite (load_of_mem _ (writeback (writes (self s)) (heap s1))) by apply release_mem.
    rewrite writeback_load by assumption. f_equal. by apply load_of_mem.
  - intros a Hnot.
    rewrite (load_of_mem _ (writeback (writes (self s)) (heap s1))) by apply release_mem.
    rewrite writeback_load_other by assumption. by apply load_of_mem.
  - cbn. auto.
Qed.

Lemma commit_abort_acquiring (end_time : Z) (s s1 : State) :
  locks (self s) = [] ->
  start_time (self s) < my_lock (self s) ->
  LLTAMD64CommitRW get_orec [] end_time s = Aborts s1 ->
  acquiring (heap s) (self s) s1.
Proof.
  intros Hnil Hlock. unfold LLTAMD64CommitRW.
  destruct (acquire_alone (heap s) (self s) (writes (self s)) s Hlock (acquiring_start s Hnil))
    as [(s2 & Hacq & Hinv & _)|(s2 & Hacq & Hinv & _)]; rewrite Hacq; cbn [bind].
  - unfold LLTAMD64Validate.
    destruct (decide (Exists (too_new s2) (r_orecs (self s2)))) as [Hex|Hnex].
    + rewrite (validate_from_too_new _ _ Hex). cbn [bind]. by intros [= <-].
    + rewrite validate_from_valid; [cbn [bind]; discriminate|].
      apply Forall_forall. intros o Ho Hbad. apply Hnex. apply Exists_exists. eauto.
  - by intros [= <-].
Qed.

Section Unwinding.

Variable STM_ROLLBACK : list WriteSet.WriteSetEntry -> Z -> Z -> gmap Z Z -> gmap Z Z.

(** X7.  A writing commit that aborts with no other thread running (the
    descriptor held no lock when it started and its lock word is above its
    start time) has stored nothing to user memory, and the rollback that
    follows undoes all of its acquisitions: every orec of the table has
    the version it had before the commit, the descriptor holds no lock,
    its read log and redo log are empty and its dispatch is read-only.
    User memory is touched by the exception-object writes only. *)
Theorem aborted_commit_rolls_back (except len end_time : Z) (s s1 : State) :
  locks (self s) = [] ->
  start_time (self s) < my_lock (self s) ->
  LLTAMD64CommitRW get_orec [] end_time s = Aborts s1 ->
  Heap.mem (heap s1) = Heap.mem (heap s) /\
  exists s2,
    LLTAMD64Rollback STM_ROLLBACK except len s1 = Returns tt s2 /\
    (forall o, Heap.read_v (heap s2) o = Heap.read_v (heap s) o) /\
    Heap.mem (heap s2) = STM_ROLLBACK (writes (self s)) except len (Heap.mem (heap s)) /\
    locks (self s2) = [] /\
    r_orecs (self s2) = [] /\
    writes (self s2) = [] /\
    mode (self s2) = ReadOnly /\
    aborts (self s2) = aborts (self s1) + 1.
Proof.
  intros Hnil Hlock Habort.
  destruct (commit_abort_acquiring _ _ _ Hnil Hlock Habort)
    as (Hin & Hout & Hmem & _ & _ & _ & Hws).
  split; [exact Hmem|].
  unfold LLTAMD64Rollback. cbv zeta. eexists. split; [reflexivity|].
  cbn [on_self on_heap self heap clk PreRollback set_aborts locks writes].
  split; [|split; [|cbn; auto]].
  - intros o. destruct (decide (o ∈ locks (self s1))) as [Hheld|Hfree].
    + rewrite restore_read_v_locked by exact Hheld.
      destruct (Hin o Hheld) as (_ & Hp & _). exact Hp.
    + rewrite restore_read_v_other by exact Hfree. by apply Hout.
  - cbn. rewrite Hws, <- Hmem.
    generalize (locks (self s1)).
    intros ls. set (h := stm_rollback _ _ _ _ _).
    change (STM_ROLLBACK (writes (self s)) except len (Heap.mem (heap s1))) with (Heap.mem h).
    clearbody h. revert h. induction ls as [|o ls IH]; intros h; [reflexivity|].
    rewrite restore_cons, IH. reflexivity.
Qed.

End Unwinding.

(** X12.  The increment of a word by one transaction alone: begin at tick
    [tick], read the word, write the word plus one under the full mask,
    commit at tick [end_time].  On an idle descriptor whose lock word is
    above [tick], with the orec of the address not above [tick], every
    step returns: the read returns the word in memory, and after the
    commit memory holds the word plus one (modulo the width of the word),
    the orec of the address carries [end_time], the descriptor holds no
    lock or log, its dispatch is read-only and it counts one more writing
    commit and no abort. *)
Theorem lone_increment_commits (tick end_time addr : Z) (s : State) :
  r_orecs (self s) = [] ->
  writes (self s) = [] ->
  locks (self s) = [] ->
  tick < my_lock (self s) ->
  Heap.read_v (heap s) (get_orec addr) <= tick ->
  0 <= Heap.load (heap s) addr < 2 ^ 64 ->
  exists s1 s2 s3 s4,
    LLTAMD64Begin tick s = Returns tt s1 /\
    LLTAMD64ReadRO get_orec [] addr s1 = Returns (Heap.load (heap s) addr) s2 /\
    LLTAMD64WriteRO addr (Word.to_uintptr (Heap.load (heap s) addr + 1)) (2 ^ 64 - 1) s2 =
      Returns tt s3 /\
    LLTAMD64CommitRW get_orec [] end_time s3 = Returns tt s4 /\
    Heap.load (heap s4) addr = Word.to_uintptr (Heap.load (heap s) addr + 1) /\
    Heap.read_v (heap s4) (get_orec addr) = end_time /\
    (forall a, a <> addr -> Heap.load (heap s4) a = Heap.load (heap s) a) /\
    (forall o, o <> get_orec addr -> Heap.read_v (heap s4) o = Heap.read_v (heap s) o) /\
    r_orecs (self s4) = [] /\
    writes (self s4) = [] /\
    locks (self s4) = [] /\
    mode (self s4) = ReadOnly /\
    commits_rw (self s4) = commits_rw (self s) + 1 /\
    aborts (self s4) = aborts (self s).
Proof.
  intros Hro Hws Hlk Hlock Hver Hword.
  destruct s as [tx c h]. destruct tx. cbn [self heap clk r_orecs writes locks my_lock] in *.
  subst. set (o := get_orec addr) in *. set (v := Heap.load h addr) in *.
  apply Z.leb_le in Hver.
  assert (Hnew : 0 <= Word.to_uintptr (v + 1) < 2 ^ 64) by apply WordFacts.to_uintptr_range.
  eexists. eexists. eexists. eexists.
  split; [reflexivity|].
  split.
  { unfold LLTAMD64ReadRO, others. cbv zeta. fold o.
    cbn -[Heap.read_v Heap.load Z.pow]. rewrite Hver, Z.eqb_refl. reflexivity. }
  split; [reflexivity|].
  split.
  { unfold LLTAMD64CommitRW, LLTAMD64Validate.
    cbn -[Heap.read_v Heap.load Heap.set_v Heap.set_p Heap.store_masked Word.to_uintptr Z.pow].
    unfold acquire_entry, others, Heap.bcasptr.
    cbn -[Heap.read_v Heap.load Heap.set_v Heap.set_p Heap.store_masked Word.to_uintptr Z.pow].
    fold o. rewrite Hver, Z.eqb_refl.
    cbn -[Heap.read_v Heap.load Heap.set_v Heap.set_p Heap.store_masked Word.to_uintptr Z.pow].
    rewrite HeapFacts.read_v_set_p, HeapFacts.read_v_set_v_eq, Z.eqb_refl.
    rewrite andb_false_r.
    cbn -[Heap.read_v Heap.load Heap.set_v Heap.set_p Heap.store_masked Word.to_uintptr Z.pow].
    reflexivity. }
  cbn -[Heap.read_v Heap.load Heap.set_v Heap.set_p Heap.store_masked Word.to_uintptr Z.pow].
  split; [|split; [|split; [|split]]].
  - unfold Heap.store_masked. rewrite (load_of_mem _ _ addr (HeapFacts.mem_of_set_v _ _ _)).
    rewrite HeapFacts.load_store_eq.
    apply WordFacts.full_mask_store; [|exact Hnew]. exact Hword.
  - apply HeapFacts.read_v_set_v_eq.
  - intros a Hne. unfold Heap.store_masked.
    rewrite (load_of_mem _ _ a (HeapFacts.mem_of_set_v _ _ _)).
    rewrite HeapFacts.load_store_ne by congruence. reflexivity.
  - intros o' Hne. rewrite HeapFacts.read_v_set_v_ne by congruence.
    unfold Heap.store_masked. rewrite HeapFacts.read_v_store, HeapFacts.read_v_set_p.
    apply HeapFacts.read_v_set_v_ne. congruence.
  - repeat split; reflexivity.
Qed.

End Alone.

(** The committer of the runs above after another transaction has
    committed to stripe 6, at tick 11. *)
Definition demo_conflicted : State :=
  {| self := self demo_committer;
     clk := clk demo_committer;
     heap := {| Heap.mem := {[ 40 := 256 ]};
                Heap.orecs := {[ 5 := {| Heap.v_all := 4; Heap.p := 0 |};
                                 6 := {| Heap.v_all := 11; Heap.p := 0 |} ]};
                Heap.stores := [] |} |}.

(** The state in which its commit aborts: stripe 5 is locked. *)
Definition demo_conflicted_aborted : State :=
  {| self := set_locks [5] (self demo_committer);
     clk := clk demo_committer;
     heap := {| Heap.mem := {[ 40 := 256 ]};
                Heap.orecs := {[ 5 := {| Heap.v_all := 2 ^ 63 + 1; Heap.p := 4 |};
                                 6 := {| Heap.v_all := 11; Heap.p := 0 |} ]};
                Heap.stores := [Heap.StOrecV 5 (2 ^ 63 + 1); Heap.StOrecP 5 4] |} |}.

Lemma lone_commit_publishes_witness :
  exists s',
    LLTAMD64CommitRW Demo.get_orec [] 20 demo_committer = Returns tt s' /\
    Heap.read_v (heap s') (Demo.get_orec 40) = 20 /\
    Heap.read_v (heap s') 6 = 9.
Proof.
  destruct (lone_commit_publishes Demo.get_orec 20 demo_committer)
    as (s' & Hrun & Hpub & Hkeep & _).
  - reflexivity.
  - vm_compute. reflexivity.
  - intros e He. apply list_elem_of_singleton in He. subst e. vm_compute. discriminate.
  - repeat constructor. vm_compute. discriminate.
  - exists s'. split; [exact Hrun|]. split.
    + apply (Hpub {| WriteSet.addr := 40; WriteSet.val := 7; WriteSet.mask := 255 |}).
      set_solver.
    + rewrite Hkeep; [reflexivity|]. change (6 ∉ [5]).
      intros Hin. apply list_elem_of_singleton in Hin. discriminate.
Defined.

Lemma aborted_commit_rolls_back_witness :
  LLTAMD64CommitRW Demo.get_orec [] 20 demo_conflicted = Aborts demo_conflicted_aborted /\
  exists s2,
    LLTAMD64Rollback demo_STM_ROLLBACK 0 0 demo_conflicted_aborted = Returns tt s2 /\
    Heap.read_v (heap s2) 5 = 4 /\
    locks (self s2) = [].
Proof.
  assert (Hab : LLTAMD64CommitRW Demo.get_orec [] 20 demo_conflicted =
                Aborts demo_conflicted_aborted) by (vm_compute; reflexivity).
  split; [exact Hab|].
  destruct (aborted_commit_rolls_back Demo.get_orec demo_STM_ROLLBACK 0 0 20
              demo_conflicted demo_conflicted_aborted)
    as (_ & s2 & Hrun & Hver & _ & Hlocks & _).
  - reflexivity.
  - vm_compute. reflexivity.
  - exact Hab.
  - exists s2. split; [exact Hrun|]. split; [|exact Hlocks].
    rewrite Hver. reflexivity.
Defined.

(** A descriptor between transactions, over the memory of the runs
    above. *)
Definition demo_between : State :=
  {| self := set_mode ReadOnly (set_writes [] (set_r_orecs [] (self demo_committer)));
     clk := clk demo_committer;
     heap := heap demo_committer |}.

Lemma lone_increment_commits_witness :
  exists s4,
    Heap.load (heap s4) 40 = 257 /\
    Heap.read_v (heap s4) (Demo.get_orec 40) = 11 /\
    commits_rw (self s4) = 1.
Proof.
  destruct (lone_increment_commits Demo.get_orec 10 11 40 demo_between)
    as (s1 & s2 & s3 & s4 & _ & _ & _ & _ & Hload & Hver & _ & _ & _ & _ & _ & _ & Hrw & _).
  - reflexivity.
  - reflexivity.
  - reflexivity.
  - vm_compute. reflexivity.
  - vm_compute. discriminate.
  - vm_compute. split; [discriminate | reflexivity].
  - exists s4. split; [|split].
    + exact Hload.
    + exact Hver.
    + exact Hrw.
Defined.

End LLTAMD64.

(** ** Pipeline-Turbo (src/libstm/algs/PipelineTurbo.cpp) *)

Module PipelineTurbo.
Import Libstm.

(** Modelled from the spec: the macro [MAXIMUM] is not among the sources;
    section 6 has the callback ensure [timestamp >= timestamp_max]: the
    larger of its two arguments. *)
Definition MAXIMUM (a b : Z) : Z := Z.max a b.

(** The loop of [PipelineTurboOnSwitchTo]: [threads[i]->order = -1] for
    [i] from 0 to [threadcount.val - 1].  A slot past the end of the
    registry is left alone. *)
Definition reset_orders (n : nat) (ts : list TxThread) : list TxThread :=
  fold_left (fun l i => alter (set_order (-1)) i l) (seq 0 n) ts.

(** [PipelineTurboOnSwitchTo] *)
Definition PipelineTurboOnSwitchTo (r : Runtime) : Runtime :=
  let c := clock r in
  let c := set_timestamp (MAXIMUM (timestamp c) (timestamp_max c)) c in
  let c := set_last_complete (timestamp c) c in
  {| clock := c;
     threads := reset_orders (threadcount r) (threads r);
     threadcount := threadcount r |}.

Section Algorithm.

(** [get_orec]: the hash from an address to its stripe of the orec table
    (declared outside the sources; any function). *)
Variable get_orec : Z -> Z.

(** [STM_ROLLBACK(tx->writes, except, len)]: the writes to the exception
    object, a range of user memory (a macro declared outside the sources;
    any function of the words of user memory). *)
Variable STM_ROLLBACK : list WriteSet.WriteSetEntry -> Z -> Z -> gmap Z Z -> gmap Z Z.

Definition stm_rollback (ws : list WriteSet.WriteSetEntry) (except len : Z) (sh : Heap.Shared) : Heap.Shared :=
  {| Heap.mem := STM_ROLLBACK ws except len (Heap.mem sh);
     Heap.orecs := Heap.orecs sh;
     Heap.stores := Heap.stores sh |}.

(** [PipelineTurboBegin].  [faiptr] returns the old value of the word it
    increments. *)
Definition PipelineTurboBegin (s : State) : outcome unit State :=
  let s := on_self (call_hook onTxBegin) s in
  let s :=
    if order (self s) =? -1 then
      let old := timestamp (clk s) in
      let s := on_clk (set_timestamp (Word.to_uintptr (old + 1))) s in
      on_self (set_order (Word.to_intptr (Word.to_uintptr (1 + old)))) s
    else s in
  let s := on_self (set_ts_cache (last_complete (clk s))) s in
  if ts_cache (self s) =? Word.to_uintptr (Word.to_uintptr (order (self s)) - 1)
  then Returns tt (on_self GoTurbo s)
  else Returns tt s.

(** The first loop of [PipelineTurboValidate], over [tx->r_orecs]. *)
Fixpoint check_reads (os : list Z) (s : State) : outcome unit State :=
  match os with
  | [] => Returns tt s
  | o :: rest =>
      let ivt := Heap.read_v (heap s) o in
      if ts_cache (self s) <? ivt then Aborts s
      else check_reads rest s
  end.

(** One iteration of the write-back loop: mark the orec with the order,
    then store the value of the entry at its address. *)
Definition flush_entry (ord : Z) (e : WriteSet.WriteSetEntry) (sh : Heap.Shared) : Heap.Shared :=
  let o := get_orec (WriteSet.addr e) in
  let sh := Heap.set_v o (Word.to_uintptr ord) sh in
  Heap.store (WriteSet.addr e) (WriteSet.val e) sh.

Definition flush (ord : Z) (ws : list WriteSet.WriteSetEntry) (sh : Heap.Shared) : Heap.Shared :=
  fold_left (fun h e => flush_entry ord e h) ws sh.

(** [PipelineTurboValidate] *)
Definition PipelineTurboValidate (finish_cache : Z) (s : State) : outcome unit State :=
  _ <- check_reads (r_orecs (self s)) s ;;
  fun s =>
  let s := on_self (set_ts_cache finish_cache) s in
  if ts_cache (self s) =? Word.to_uintptr (Word.to_uintptr (order (self s)) - 1) then
    if negb (WriteSet.size (writes (self s)) =? 0) then
      let s := on_heap (flush (order (self s)) (writes (self s))) s in
      let s := on_self GoTurbo s in
      Returns tt s
    else Returns tt s
  else Returns tt s.

(** [PipelineTurboRollback] *)
Definition PipelineTurboRollback (except len : Z) (s : State) : outcome unit State :=
  let s := on_self PreRollback s in
  if CheckTurboMode (self s) then Fatal s
  else
    let s := on_heap (stm_rollback (writes (self s)) except len) s in
    let s := on_self (set_r_orecs []) s in
    let s := on_self (set_writes []) s in
    let s := on_self PostRollback s in
    Returns tt s.

(** *** Properties of Pipeline-Turbo *)

(** An orec of the read log was written after the last validation. *)
Definition outdated (s : State) (o : Z) : Prop :=
  ts_cache (self s) < Heap.read_v (heap s) o.

#[local] Instance outdated_dec (s : State) (o : Z) : Decision (outdated s o).
Proof. unfold outdated. apply _. Defined.

Lemma check_reads_outdated (os : list Z) (s : State) :
  Exists (outdated s) os -> check_reads os s = Aborts s.
Proof.
  induction os as [|o os IH]; intros Hex; [inversion Hex|].
  cbn [check_reads].
  destruct (ts_cache (self s) <? Heap.read_v (heap s) o) eqn:Hlt; [reflexivity|].
  apply IH. inversion Hex as [? ? Hbad|]; subst; [|assumption].
  unfold outdated in Hbad. apply Z.ltb_ge in Hlt. lia.
Qed.

Lemma check_reads_current (os : list Z) (s : State) :
  Forall (fun o => ~ outdated s o) os -> check_reads os s = Returns tt s.
Proof.
  induction 1 as [|o os Ho _ IH]; cbn [check_reads]; [reflexivity|].
  destruct (ts_cache (self s) <? Heap.read_v (heap s) o) eqn:Hlt; [|exact IH].
  apply Z.ltb_lt in Hlt. contradiction.
Qed.

(** The stores of the write-back loop, in program order: for each entry
    the mark of its orec, then the word. *)
Definition flush_trace (ord : Z) (ws : list WriteSet.WriteSetEntry) : list Heap.store_event :=
  flat_map (fun e =>
    [Heap.StOrecV (get_orec (WriteSet.addr e)) (Word.to_uintptr ord);
     Heap.StWord (WriteSet.addr e) (WriteSet.val e)]) ws.

Lemma flush_cons (ord : Z) (e : WriteSet.WriteSetEntry) (ws : list WriteSet.WriteSetEntry) (sh : Heap.Shared) :
  flush ord (e :: ws) sh = flush ord ws (flush_entry ord e sh).
Proof. reflexivity. Qed.

Lemma flush_stores (ord : Z) (ws : list WriteSet.WriteSetEntry) (sh : Heap.Shared) :
  Heap.stores (flush ord ws sh) = Heap.stores sh ++ flush_trace ord ws.
Proof.
  revert sh. induction ws as [|e ws IH]; intros sh.
  - cbn. by rewrite app_nil_r.
  - rewrite flush_cons, IH. unfold flush_trace. cbn.
    by rewrite <- !app_assoc.
Qed.

Lemma flush_marks (ord : Z) (ws : list WriteSet.WriteSetEntry) (sh : Heap.Shared) (o : Z) :
  Heap.read_v sh o = Word.to_uintptr ord \/
  o ∈ map (fun e => get_orec (WriteSet.addr e)) ws ->
  Heap.read_v (flush ord ws sh) o = Word.to_uintptr ord.
Proof.
  revert sh. induction ws as [|e ws IH]; intros sh Hcase.
  - destruct Hcase as [Hv|Hin]; [exact Hv|]. by apply elem_of_nil in Hin.
  - rewrite flush_cons. apply IH. unfold flush_entry. cbv zeta.
    rewrite HeapFacts.read_v_store.
    destruct (decide (get_orec (WriteSet.addr e) = o)) as [<-|Hne].
    + left. apply HeapFacts.read_v_set_v_eq.
    + rewrite HeapFacts.read_v_set_v_ne by exact Hne.
      destruct Hcase as [Hv|Hin]; [by left|]. right.
      cbn [map] in Hin. apply elem_of_cons in Hin as [Heq|Hin]; [congruence|exact Hin].
Qed.

Lemma flush_load_other (ord : Z) (ws : list WriteSet.WriteSetEntry) (sh : Heap.Shared) (a : Z) :
  a ∉ map WriteSet.addr ws -> Heap.load (flush ord ws sh) a = Heap.load sh a.
Proof.
  revert sh. induction ws as [|x ws IH]; intros sh Hnot; [reflexivity|].
  cbn [map] in Hnot. apply not_elem_of_cons in Hnot as [Hne Hnot].
  rewrite flush_cons, IH by exact Hnot.
  unfold flush_entry. cbv zeta.
  rewrite HeapFacts.load_store_ne by congruence. reflexivity.
Qed.

Lemma flush_load (ord : Z) (ws : list WriteSet.WriteSetEntry) (sh : Heap.Shared) (e : WriteSet.WriteSetEntry) :
  NoDup (map WriteSet.addr ws) -> e ∈ ws ->
  Heap.load (flush ord ws sh) (WriteSet.addr e) = WriteSet.val e.
Proof.
  revert sh. induction ws as [|x ws IH]; intros sh Hnd Hin.
  - by apply elem_of_nil in Hin.
  - cbn [map] in Hnd. apply NoDup_cons in Hnd as [Hfresh Hnd].
    rewrite flush_cons.
    apply elem_of_cons in Hin as [->|Hin].
    + rewrite flush_load_other by exact Hfresh.
      unfold flush_entry. cbv zeta. apply HeapFacts.load_store_eq.
    + by apply IH.
Qed.

Lemma size_zero (ws : list WriteSet.WriteSetEntry) :
  (WriteSet.size ws =? 0) = true <-> ws = [].
Proof.
  unfold WriteSet.size. rewrite Z.eqb_eq.
  destruct ws; cbn [length]; split; intros; try reflexivity; try discriminate; lia.
Qed.

(** The transaction is the oldest once [finish_cache] is its [ts_cache]:
    the test [tx->ts_cache == ((uintptr_t)tx->order - 1)]. *)
Definition oldest_at (finish_cache : Z) (s : State) : Prop :=
  finish_cache = Word.to_uintptr (Word.to_uintptr (order (self s)) - 1).

(** C2, as amended.  [PipelineTurboValidate] with argument [finish_cache]
    ends in the abort primitive, the state unchanged, when some orec of
    [r_orecs] has a version above [ts_cache].  When none has, it returns
    with [ts_cache] set to [finish_cache].  If that value equals
    [order - 1] and the write set is not empty, each entry of the write
    set has been flushed (its orec marked with the order first, then its
    value stored at its address, entry after entry) and the transaction is
    in turbo mode.  If the write set is empty, or the value is not
    [order - 1], nothing is stored and the dispatch mode is the one
    before the call. *)
Theorem validate_and_maybe_promote (finish_cache : Z) (s : State) :
  let kept :=
    {| self := set_ts_cache finish_cache (self s); clk := clk s; heap := heap s |} in
  let promoted :=
    {| self := GoTurbo (set_ts_cache finish_cache (self s));
       clk := clk s;
       heap := flush (order (self s)) (writes (self s)) (heap s) |} in
  (Exists (outdated s) (r_orecs (self s)) ->
   PipelineTurboValidate finish_cache s = Aborts s) /\
  (Forall (fun o => ~ outdated s o) (r_orecs (self s)) ->
   (oldest_at finish_cache s /\ writes (self s) <> [] ->
    PipelineTurboValidate finish_cache s = Returns tt promoted) /\
   (~ (oldest_at finish_cache s /\ writes (self s) <> []) ->
    PipelineTurboValidate finish_cache s = Returns tt kept)) /\
  (ts_cache (self kept) = finish_cache /\
   mode (self kept) = mode (self s) /\
   heap kept = heap s) /\
  (ts_cache (self promoted) = finish_cache /\
   mode (self promoted) = Turbo /\
   Heap.stores (heap promoted) =
     Heap.stores (heap s) ++ flush_trace (order (self s)) (writes (self s)) /\
   (forall e, e ∈ writes (self s) ->
      Heap.read_v (heap promoted) (get_orec (WriteSet.addr e)) =
      Word.to_uintptr (order (self s))) /\
   (forall e, NoDup (map WriteSet.addr (writes (self s))) ->
      e ∈ writes (self s) ->
      Heap.load (heap promoted) (WriteSet.addr e) = WriteSet.val e) /\
   (forall a, a ∉ map WriteSet.addr (writes (self s)) ->
      Heap.load (heap promoted) a = Heap.load (heap s) a)).
Proof.
  intros kept promoted.
  split; [|split; [|split]].
  - intros Hex. unfold PipelineTurboValidate.
    rewrite (check_reads_outdated _ _ Hex). reflexivity.
  - intros Hall. unfold PipelineTurboValidate.
    rewrite (check_reads_current _ _ Hall). cbn [bind]. cbv zeta.
    cbn [on_self on_heap self clk heap set_ts_cache ts_cache order writes].
    unfold oldest_at. split.
    + intros [-> Hws]. rewrite Z.eqb_refl.
      destruct (WriteSet.size (writes (self s)) =? 0) eqn:Hsz.
      * apply size_zero in Hsz. contradiction.
      * reflexivity.
    + intros Hnot.
      destruct (finish_cache =? _) eqn:Hold; [|reflexivity].
      destruct (WriteSet.size (writes (self s)) =? 0) eqn:Hsz; [reflexivity|].
      exfalso. apply Hnot. apply Z.eqb_eq in Hold. split; [exact Hold|].
      intros Hnil. apply size_zero in Hnil. congruence.
  - repeat split.
  - subst promoted. cbn [self heap].
    split; [reflexivity|]. split; [reflexivity|].
    split; [apply flush_stores|].
    split; [|split].
    + intros e Hin. apply flush_marks. right.
      apply (list_elem_of_fmap_2 (fun e => get_orec (WriteSet.addr e))). exact Hin.
    + intros e Hnd Hin. by apply flush_load.
    + intros a Hnot. by apply flush_load_other.
Qed.

(** C7.  [PipelineTurboRollback] on a transaction in turbo mode reaches
    [UNRECOVERABLE]: the call is fatal and does not return.  On any other
    transaction it returns with [r_orecs] and [writes] empty and with the
    order and the global words unchanged; [PipelineTurboBegin] run after it
    finds an order other than [-1], leaves [timestamp] alone and keeps
    that order: the retry has the slot of the aborted attempt.  A
    transaction whose order is [-1] takes a new one from [timestamp]. *)
Theorem rollback_keeps_slot (except len : Z) (s : State) :
  (mode (self s) = Turbo ->
   PipelineTurboRollback except len s = Fatal (on_self PreRollback s)) /\
  (mode (self s) <> Turbo ->
   exists s',
     PipelineTurboRollback except len s = Returns tt s' /\
     r_orecs (self s') = [] /\
     writes (self s') = [] /\
     order (self s') = order (self s) /\
     clk s' = clk s /\
     (order (self s) <> -1 ->
      exists s'',
        PipelineTurboBegin s' = Returns tt s'' /\
        order (self s'') = order (self s) /\
        timestamp (clk s'') = timestamp (clk s))) /\
  (forall u : State,
     order (self u) = -1 ->
     exists u',
       PipelineTurboBegin u = Returns tt u' /\
       order (self u') = Word.to_intptr (Word.to_uintptr (1 + timestamp (clk u))) /\
       timestamp (clk u') = Word.to_uintptr (timestamp (clk u) + 1)).
Proof.
  split; [|split].
  - intros Hmode. unfold PipelineTurboRollback. cbv zeta.
    unfold CheckTurboMode. cbn [on_self self PreRollback set_aborts mode].
    rewrite Hmode. reflexivity.
  - intros Hmode. unfold PipelineTurboRollback. cbv zeta.
    unfold CheckTurboMode. cbn [on_self self PreRollback set_aborts mode].
    destruct (mode (self s)) eqn:Hm; try congruence.
    all: eexists; split; [reflexivity|]; cbn; repeat split.
    all: intros Hord; unfold PipelineTurboBegin; cbv zeta; cbn;
      apply Z.eqb_neq in Hord; rewrite Hord;
      match goal with |- context [if ?c then _ else _] => destruct c end;
      eexists; split; try reflexivity; cbn; auto.
  - intros u Hord. unfold PipelineTurboBegin. cbv zeta. cbn.
    rewrite Hord. cbn.
    match goal with |- context [if ?c then _ else _] => destruct c end;
      eexists; split; try reflexivity; cbn; auto.
Qed.

End Algorithm.

(** *** The switch callbacks *)

Lemma reset_orders_S (n : nat) (ts : list TxThread) :
  reset_orders (S n) ts = alter (set_order (-1)) n (reset_orders n ts).
Proof.
  unfold reset_orders. rewrite seq_S, fold_left_app. reflexivity.
Qed.

Lemma reset_orders_length (n : nat) (ts : list TxThread) :
  length (reset_orders n ts) = length ts.
Proof.
  induction n as [|n IH]; [reflexivity|].
  by rewrite reset_orders_S, length_alter.
Qed.

Lemma reset_orders_registered (n : nat) (ts : list TxThread) (i : nat) (tx : TxThread) :
  (i < n)%nat -> reset_orders n ts !! i = Some tx -> order tx = -1.
Proof.
  induction n as [|n IH]; intros Hlt; [lia|].
  rewrite reset_orders_S.
  destruct (decide (n = i)) as [->|Hne].
  - rewrite list_lookup_alter_eq.
    destruct (reset_orders i ts !! i); [|discriminate].
    intros [= <-]. reflexivity.
  - rewrite list_lookup_alter_ne by exact Hne. apply IH. lia.
Qed.

Lemma reset_orders_unregistered (n : nat) (ts : list TxThread) (i : nat) :
  (n <= i)%nat -> reset_orders n ts !! i = ts !! i.
Proof.
  induction n as [|n IH]; intros Hle; [reflexivity|].
  rewrite reset_orders_S, list_lookup_alter_ne by lia. apply IH. lia.
Qed.

(** A runtime in which another algorithm has used [timestamp] as a mutex
    and backed the clock up in [timestamp_max]. *)
Definition demo_runtime : Runtime :=
  {| clock := {| timestamp := 0; timestamp_max := 7; last_complete := 3 |};
     threads := [];
     threadcount := 0 |}.

(** C1, the claim as stated fails for LLT-AMD64: its callback has an empty
    body, so after it [timestamp] is still below [timestamp_max]. *)
Lemma LLTAMD64OnSwitchTo_leaves_clock_behind :
  LLTAMD64.LLTAMD64OnSwitchTo demo_runtime = demo_runtime /\
  ~ (timestamp_max (clock (LLTAMD64.LLTAMD64OnSwitchTo demo_runtime))
     <= timestamp (clock (LLTAMD64.LLTAMD64OnSwitchTo demo_runtime))).
Proof. split; [reflexivity|]. vm_compute. intros H. apply H. reflexivity. Qed.

(** C1, as amended.  After [PipelineTurboOnSwitchTo], [timestamp] is at
    least [timestamp_max] (it is the larger of the two values before the
    call), [last_complete] equals [timestamp], and the descriptor in each
    of the first [threadcount] slots of the registry has order [-1]; the
    registry keeps its length and its other slots.
    [LLTAMD64OnSwitchTo] changes nothing: the algorithm reads its clock
    from the tick counter and its callback leaves [timestamp] as it is. *)
Theorem OnSwitchTo_postconditions (r : Runtime) :
  let r' := PipelineTurboOnSwitchTo r in
  timestamp_max (clock r') <= timestamp (clock r') /\
  timestamp (clock r') = Z.max (timestamp (clock r)) (timestamp_max (clock r)) /\
  timestamp_max (clock r') = timestamp_max (clock r) /\
  last_complete (clock r') = timestamp (clock r') /\
  (forall (i : nat) (tx : TxThread),
     (i < threadcount r)%nat -> threads r' !! i = Some tx -> order tx = -1) /\
  (forall i : nat,
     (threadcount r <= i)%nat -> threads r' !! i = threads r !! i) /\
  length (threads r') = length (threads r) /\
  threadcount r' = threadcount r /\
  LLTAMD64.LLTAMD64OnSwitchTo r = r.
Proof.
  intros r'. subst r'. unfold PipelineTurboOnSwitchTo, MAXIMUM. cbn.
  split; [lia|]. split; [reflexivity|]. split; [reflexivity|]. split; [reflexivity|].
  split; [intros i tx; apply reset_orders_registered|].
  split; [intros i; apply reset_orders_unregistered|].
  split; [apply reset_orders_length|].
  split; reflexivity.
Qed.

(** *** Concrete runs *)

(** The exception object is not written. *)
Definition demo_STM_ROLLBACK (ws : list WriteSet.WriteSetEntry) (except len : Z) (m : gmap Z Z) : gmap Z Z := m.

(** A transaction of order 5 that last validated when [last_complete] was
    3, has read a word of stripe 5 and written nothing; order 4 has
    completed since. *)
Definition demo_oldest_reader : State :=
  {| self := {| start_time := 0; ts_cache := 3; order := 5; my_lock := 0;
                r_orecs := [5]; writes := []; locks := []; mode := ReadOnly;
                aborts := 0; commits_ro := 0; commits_rw := 0;
                hooks := [onTxBegin] |};
     clk := {| timestamp := 5; timestamp_max := 0; last_complete := 4 |};
     heap := {| Heap.mem := {[ 40 := 1 ]};
                Heap.orecs := {[ 5 := {| Heap.v_all := 2; Heap.p := 0 |} ]};
                Heap.stores := [] |} |}.

(** The same transaction after a write of 7 at address 40. *)
Definition demo_oldest_writer : State :=
  on_self (fun tx =>
    set_mode Writing
      (set_writes [ {| WriteSet.addr := 40; WriteSet.val := 7; WriteSet.mask := 255 |} ] tx))
    demo_oldest_reader.

(** C2, the claim as stated fails on an empty write set: validation with
    [finish_cache = 4] succeeds for the transaction of order 5, the updated
    [ts_cache] equals [order - 1], and the transaction is not in turbo
    mode afterwards. *)
Lemma validate_without_writes_stays_out_of_turbo :
  exists s',
    PipelineTurboValidate Demo.get_orec 4 demo_oldest_reader = Returns tt s' /\
    ts_cache (self s') = Word.to_uintptr (Word.to_uintptr (order (self s')) - 1) /\
    mode (self s') = ReadOnly /\
    mode (self s') <> Turbo.
Proof.
  eexists. split; [vm_compute; reflexivity|].
  split; [reflexivity|]. split; [reflexivity|discriminate].
Qed.

Example validate_promotes_writer :
  PipelineTurboValidate Demo.get_orec 4 demo_oldest_writer =
  Returns tt
    {| self := {| start_time := 0; ts_cache := 4; order := 5; my_lock := 0;
                  r_orecs := [5];
                  writes := [ {| WriteSet.addr := 40; WriteSet.val := 7; WriteSet.mask := 255 |} ];
                  locks := []; mode := Turbo;
                  aborts := 0; commits_ro := 0; commits_rw := 0;
                  hooks := [onTxBegin] |};
       clk := {| timestamp := 5; timestamp_max := 0; last_complete := 4 |};
       heap := {| Heap.mem := {[ 40 := 7 ]};
                  Heap.orecs := {[ 5 := {| Heap.v_all := 5; Heap.p := 0 |} ]};
                  Heap.stores := [Heap.StOrecV 5 5; Heap.StWord 40 7] |} |}.
Proof. vm_compute. reflexivity. Qed.

Example rollback_then_begin_keeps_order_5 :
  (_ <- PipelineTurboRollback demo_STM_ROLLBACK 0 0 demo_oldest_writer ;;
   PipelineTurboBegin) =
  Returns tt
    {| self := {| start_time := 0; ts_cache := 4; order := 5; my_lock := 0;
                  r_orecs := []; writes := []; locks := []; mode := Turbo;
                  aborts := 1; commits_ro := 0; commits_rw := 0;
                  hooks := [onTxBegin; onTxAbort; onRollback; onTxBegin] |};
       clk := {| timestamp := 5; timestamp_max := 0; last_complete := 4 |};
       heap := heap demo_oldest_reader |}.
Proof. vm_compute. reflexivity. Qed.

(** *** The other entry points of Pipeline-Turbo *)

Lemma fresh_order_pred (ts : Z) :
  0 <= ts < 2 ^ 64 ->
  Word.to_uintptr (Word.to_uintptr (Word.to_intptr (Word.to_uintptr (1 + ts))) - 1) = ts.
Proof.
  intros Hts.
  rewrite WordFacts.to_uintptr_to_intptr, WordFacts.to_uintptr_idem.
  replace (1 + ts) with (ts + 1) by lia.
  rewrite WordFacts.to_uintptr_succ_pred. by apply WordFacts.to_uintptr_small.
Qed.

Lemma fresh_order_sentinel (ts : Z) :
  0 <= ts < 2 ^ 64 ->
  Word.to_intptr (Word.to_uintptr (1 + ts)) = -1 <-> ts = 2 ^ 64 - 2.
Proof.
  intros Hts. unfold Word.to_intptr, Word.to_uintptr.
  change (2 ^ 64) with 18446744073709551616 in *.
  change (2 ^ 63) with 9223372036854775808.
  Z.to_euclidean_division_equations. lia.
Qed.

(** X3.  [PipelineTurboBegin] on a descriptor without an order ([-1])
    takes the next order from [timestamp] and increments it; the heap and
    [last_complete] are untouched and [ts_cache] is [last_complete].  The
    transaction starts in turbo mode exactly when no earlier order is
    outstanding, that is when [last_complete] equals the [timestamp] it
    drew from (or when the descriptor was left in turbo dispatch).  The
    order drawn is the sentinel [-1] itself at one value of the clock
    only, [2^64 - 2]. *)
Theorem fresh_begin_takes_next_order (s : State) :
  order (self s) = -1 ->
  0 <= timestamp (clk s) < 2 ^ 64 ->
  exists s',
    PipelineTurboBegin s = Returns tt s' /\
    Word.to_uintptr (order (self s')) = Word.to_uintptr (timestamp (clk s) + 1) /\
    timestamp (clk s') = Word.to_uintptr (timestamp (clk s) + 1) /\
    last_complete (clk s') = last_complete (clk s) /\
    ts_cache (self s') = last_complete (clk s) /\
    heap s' = heap s /\
    (mode (self s') = Turbo <->
     last_complete (clk s) = timestamp (clk s) \/ mode (self s) = Turbo) /\
    (order (self s') = -1 <-> timestamp (clk s) = 2 ^ 64 - 2).
Proof.
  intros Hord Hts. unfold PipelineTurboBegin. cbv zeta.
  cbn [on_self on_clk self clk heap call_hook order].
  rewrite Hord. cbn [Z.eqb Pos.eqb].
  cbn [on_self on_clk self clk heap set_ts_cache set_order set_timestamp
       order ts_cache last_complete timestamp].
  rewrite (fresh_order_pred _ Hts).
  assert (Hw : Word.to_uintptr (Word.to_intptr (Word.to_uintptr (1 + timestamp (clk s)))) =
               Word.to_uintptr (timestamp (clk s) + 1)).
  { rewrite WordFacts.to_uintptr_to_intptr, WordFacts.to_uintptr_idem.
    f_equal. lia. }
  destruct (last_complete (clk s) =? timestamp (clk s)) eqn:Hq.
  - apply Z.eqb_eq in Hq. eexists. split; [reflexivity|]. cbn.
    repeat split; auto using fresh_order_sentinel.
    all: by apply fresh_order_sentinel.
  - apply Z.eqb_neq in Hq. eexists. split; [reflexivity|]. cbn.
    repeat split; auto.
    + intros [Heq|Hm]; [contradiction|exact Hm].
    + by apply fresh_order_sentinel.
    + by apply fresh_order_sentinel.
Qed.

Section Transactions.

Variable get_orec : Z -> Z.

(** The wait loop of the two non-turbo commits.  [ours] tells whether the
    global pointer [tmbegin] is still [PipelineTurboBegin] when the loop
    body reads it; the body runs only when it is not yet the turn of the
    transaction. *)
Definition wait_turn (ours : bool) (s : State) : outcome unit State :=
  if negb (last_complete (clk s) =? Word.to_uintptr (Word.to_uintptr (order (self s)) - 1)) then
    if negb ours then Aborts s else Spins s
  else Returns tt s.

(** [PipelineTurboCommitRO] *)
Definition PipelineTurboCommitRO (ours : bool) (s : State) : outcome unit State :=
  _ <- wait_turn ours s ;;
  fun s =>
  _ <- check_reads (r_orecs (self s)) s ;;
  fun s =>
  let s := on_clk (set_last_complete (Word.to_uintptr (order (self s)))) s in
  let s := on_self (set_order (-1)) s in
  let s := on_self (set_r_orecs []) s in
  let s := on_self OnROCommit s in
  Returns tt s.

(** [PipelineTurboCommitRW] *)
Definition PipelineTurboCommitRW (ours : bool) (s : State) : outcome unit State :=
  _ <- wait_turn ours s ;;
  fun s =>
  _ <- check_reads (r_orecs (self s)) s ;;
  fun s =>
  let s := on_heap (flush get_orec (order (self s)) (writes (self s))) s in
  let s := on_clk (set_last_complete (Word.to_uintptr (order (self s)))) s in
  let s := on_self (set_order (-1)) s in
  let s := on_self (set_r_orecs []) s in
  let s := on_self (set_writes []) s in
  let s := on_self OnRWCommit s in
  let s := on_self ResetToRO s in
  Returns tt s.

(** [PipelineTurboCommitTurbo] *)
Definition PipelineTurboCommitTurbo (s : State) : outcome unit State :=
  let s := on_clk (set_last_complete (Word.to_uintptr (order (self s)))) s in
  let s := on_self (set_order (-1)) s in
  let s := on_self (set_r_orecs []) s in
  let s := on_self (set_writes []) s in
  let s := on_self OnRWCommit s in
  let s := on_self ResetToRO s in
  Returns tt s.

(** The part of the two non-turbo reads after the load of the word: the
    test of the orec, the logging, the validation.  [tmp] is returned by
    the caller. *)
Definition check_and_log (addr : Z) (s : State) : outcome unit State :=
  let o := get_orec addr in
  let ivt := Heap.read_v (heap s) o in
  if ts_cache (self s) <? ivt then Aborts s
  else
    let s := on_self (fun tx => set_r_orecs (r_orecs tx ++ [o]) tx) s in
    if ts_cache (self s) <? last_complete (clk s)
    then PipelineTurboValidate get_orec (last_complete (clk s)) s
    else Returns tt s.

(** [PipelineTurboReadRO].  The other threads run at the fence between
    the load of the word and the read of the orec. *)
Definition PipelineTurboReadRO (env : interference) (addr : Z) (s : State) : outcome Z State :=
  let tmp := Heap.load (heap s) addr in
  let s := on_heap (others env 0) s in
  _ <- check_and_log addr s ;;
  fun s => Returns tmp s.

Section ReadAfterWrite.

(** [REDO_RAW_CLEANUP(tmp, found, log, mask)]: the fix-up of the word read
    from memory with the entry found in the redo log (a macro declared
    outside the sources; any function). *)
Variable REDO_RAW_CLEANUP : Z -> option WriteSet.WriteSetEntry -> Z -> Z.

(** [PipelineTurboReadRW] *)
Definition PipelineTurboReadRW (env : interference) (addr mask : Z) (s : State) : outcome Z State :=
  let found := WriteSet.find addr (writes (self s)) in
  match REDO_RAW_CHECK found mask with
  | Some buffered => Returns buffered s
  | None =>
      let tmp := Heap.load (heap s) addr in
      let s := on_heap (others env 0) s in
      _ <- check_and_log addr s ;;
      fun s => Returns (REDO_RAW_CLEANUP tmp found mask) s
  end.

End ReadAfterWrite.

(** [PipelineTurboReadTurbo] *)
Definition PipelineTurboReadTurbo (addr : Z) (s : State) : outcome Z State :=
  Returns (Heap.load (heap s) addr) s.

(** [PipelineTurboWriteRO] *)
Definition PipelineTurboWriteRO (addr val mask : Z) (s : State) : outcome unit State :=
  let e := {| WriteSet.addr := addr; WriteSet.val := val; WriteSet.mask := mask |} in
  let s := on_self (fun tx => set_writes (WriteSet.insert e (writes tx)) tx) s in
  let s := on_self OnFirstWrite s in
  Returns tt s.

(** [PipelineTurboWriteRW] *)
Definition PipelineTurboWriteRW (addr val mask : Z) (s : State) : outcome unit State :=
  let e := {| WriteSet.addr := addr; WriteSet.val := val; WriteSet.mask := mask |} in
  let s := on_self (fun tx => set_writes (WriteSet.insert e (writes tx)) tx) s in
  Returns tt s.

(** [PipelineTurboWriteTurbo]; [STM_DO_MASKED_WRITE] is the masked store. *)
Definition PipelineTurboWriteTurbo (addr val mask : Z) (s : State) : outcome unit State :=
  let o := get_orec addr in
  let s := on_heap (Heap.set_v o (Word.to_uintptr (order (self s)))) s in
  let s := on_heap (Heap.store_masked addr val mask) s in
  Returns tt s.

(** [PipelineTurboIrrevoc] *)
Definition PipelineTurboIrrevoc (s : State) : outcome bool State := Fatal s.

(** *** Properties of the other entry points *)

Lemma wait_turn_in_turn (ours : bool) (s : State) :
  oldest_at (last_complete (clk s)) s -> wait_turn ours s = Returns tt s.
Proof.
  unfold oldest_at, wait_turn. intros <-. by rewrite Z.eqb_refl.
Qed.

Lemma wait_turn_early (ours : bool) (s : State) :
  ~ oldest_at (last_complete (clk s)) s ->
  wait_turn ours s = if ours then Spins s else Aborts s.
Proof.
  unfold oldest_at, wait_turn. intros Hne.
  apply Z.eqb_neq in Hne. rewrite Hne. by destruct ours.
Qed.

Lemma flush_read_v_other (ord : Z) (ws : list WriteSet.WriteSetEntry) (sh : Heap.Shared) (o : Z) :
  o ∉ map (fun e => get_orec (WriteSet.addr e)) ws ->
  Heap.read_v (flush get_orec ord ws sh) o = Heap.read_v sh o.
Proof.
  revert sh. induction ws as [|x ws IH]; intros sh Hnot; [reflexivity|].
  cbn [map] in Hnot. apply not_elem_of_cons in Hnot as [Hne Hnot].
  rewrite flush_cons, IH by exact Hnot.
  unfold flush_entry. cbv zeta. rewrite HeapFacts.read_v_store.
  apply HeapFacts.read_v_set_v_ne. congruence.
Qed.

(** X1.  The two non-turbo commits publish only in turn.  When
    [last_complete] is not yet [order - 1] the commit does not return: it
    keeps waiting, or aborts if [tmbegin] has been switched away, and the
    state is untouched.  In turn, with an orec of the read log above
    [ts_cache], it aborts with the state untouched; the order is kept for
    the retry.  In turn with a valid read log it returns: [last_complete]
    is the order of the transaction, which is one more than it was (modulo
    the width of the word), [timestamp] is unchanged, the order of the
    descriptor is back to [-1], and the read-only commit leaves the heap as
    it was. *)
Theorem commit_publishes_in_turn (ours : bool) (s : State) :
  let turn := oldest_at (last_complete (clk s)) s in
  (~ turn ->
   PipelineTurboCommitRO ours s = (if ours then Spins s else Aborts s) /\
   PipelineTurboCommitRW ours s = (if ours then Spins s else Aborts s)) /\
  (turn -> Exists (outdated s) (r_orecs (self s)) ->
   PipelineTurboCommitRO ours s = Aborts s /\
   PipelineTurboCommitRW ours s = Aborts s) /\
  (turn -> Forall (fun o => ~ outdated s o) (r_orecs (self s)) ->
   exists ro rw,
     PipelineTurboCommitRO ours s = Returns tt ro /\
     PipelineTurboCommitRW ours s = Returns tt rw /\
     heap ro = heap s /\
     (forall s', s' = ro \/ s' = rw ->
        last_complete (clk s') = Word.to_uintptr (order (self s)) /\
        last_complete (clk s') = Word.to_uintptr (last_complete (clk s) + 1) /\
        timestamp (clk s') = timestamp (clk s) /\
        order (self s') = -1 /\
        r_orecs (self s') = [])).
Proof.
  intros turn. subst turn. split; [|split].
  - intros Hearly. unfold PipelineTurboCommitRO, PipelineTurboCommitRW.
    rewrite (wait_turn_early _ _ Hearly). by destruct ours.
  - intros Hturn Hex. unfold PipelineTurboCommitRO, PipelineTurboCommitRW.
    rewrite (wait_turn_in_turn _ _ Hturn). cbn [bind].
    by rewrite (check_reads_outdated _ _ Hex).
  - intros Hturn Hall. unfold PipelineTurboCommitRO, PipelineTurboCommitRW.
    rewrite (wait_turn_in_turn _ _ Hturn). cbn [bind].
    rewrite (check_reads_current _ _ Hall). cbn [bind]. cbv zeta.
    eexists. eexists. split; [reflexivity|]. split; [reflexivity|].
    split; [reflexivity|].
    assert (Hsucc : Word.to_uintptr (order (self s)) =
                    Word.to_uintptr (last_complete (clk s) + 1)).
    { unfold oldest_at in Hturn. rewrite Hturn.
      by rewrite WordFacts.to_uintptr_pred_succ. }
    intros s' [-> | ->]; cbn; rewrite <- Hsucc; auto.
Qed.

(** X2.  A writing commit that is in turn with a valid read log returns
    and publishes its redo log: the orec of every address of the log
    carries the order of the transaction, which is the new value of
    [last_complete]; the other orecs keep their versions; every address of
    the log (an address has one entry) holds the value of its entry and
    the other addresses keep their words; the redo log is empty and the
    dispatch is back to read-only. *)
Theorem writing_commit_publishes (ours : bool) (s : State) :
  oldest_at (last_complete (clk s)) s ->
  Forall (fun o => ~ outdated s o) (r_orecs (self s)) ->
  exists s',
    PipelineTurboCommitRW ours s = Returns tt s' /\
    (forall e, e ∈ writes (self s) ->
       Heap.read_v (heap s') (get_orec (WriteSet.addr e)) = last_complete (clk s')) /\
    (forall o, o ∉ map (fun e => get_orec (WriteSet.addr e)) (writes (self s)) ->
       Heap.read_v (heap s') o = Heap.read_v (heap s) o) /\
    (forall e, NoDup (map WriteSet.addr (writes (self s))) ->
       e ∈ writes (self s) ->
       Heap.load (heap s') (WriteSet.addr e) = WriteSet.val e) /\
    (forall a, a ∉ map WriteSet.addr (writes (self s)) ->
       Heap.load (heap s') a = Heap.load (heap s) a) /\
    Heap.stores (heap s') =
      Heap.stores (heap s) ++ flush_trace get_orec (order (self s)) (writes (self s)) /\
    writes (self s') = [] /\
    mode (self s') = ReadOnly.
Proof.
  intros Hturn Hall. unfold PipelineTurboCommitRW.
  rewrite (wait_turn_in_turn _ _ Hturn). cbn [bind].
  rewrite (check_reads_current _ _ Hall). cbn [bind]. cbv zeta.
  eexists. split; [reflexivity|]. cbn.
  split; [|split; [|split; [|split; [|split; [|split]]]]]; try reflexivity.
  - intros e Hin. apply flush_marks. right.
    apply (list_elem_of_fmap_2 (fun e => get_orec (WriteSet.addr e))). exact Hin.
  - intros o Hnot. by apply flush_read_v_other.
  - intros e Hnd Hin. by apply flush_load.
  - intros a Hnot. by apply flush_load_other.
  - apply flush_stores.
Qed.

(** X4.  One transaction alone, from a quiescent clock ([last_complete]
    equal to [timestamp], no order): it begins in turbo mode, its write
    goes to memory in place with the orec marked first, its read returns
    what it wrote, and its commit re-establishes the quiescent clock.
    After the commit [last_complete] equals [timestamp] again, one above
    the old value, the order is [-1], the dispatch is read-only, the word
    holds the bytes written, and the orec carries the value of
    [last_complete]. *)
Theorem turbo_transaction_alone (addr val mask : Z) (s : State) :
  order (self s) = -1 ->
  0 <= timestamp (clk s) < 2 ^ 64 ->
  last_complete (clk s) = timestamp (clk s) ->
  exists s1 s2 s3,
    PipelineTurboBegin s = Returns tt s1 /\
    mode (self s1) = Turbo /\
    PipelineTurboWriteTurbo addr val mask s1 = Returns tt s2 /\
    PipelineTurboReadTurbo addr s2 =
      Returns (Z.lor (Z.ldiff (Heap.load (heap s) addr) mask) (Z.land val mask)) s2 /\
    PipelineTurboCommitTurbo s2 = Returns tt s3 /\
    timestamp (clk s3) = Word.to_uintptr (timestamp (clk s) + 1) /\
    last_complete (clk s3) = timestamp (clk s3) /\
    order (self s3) = -1 /\
    mode (self s3) = ReadOnly /\
    Heap.load (heap s3) addr =
      Z.lor (Z.ldiff (Heap.load (heap s) addr) mask) (Z.land val mask) /\
    Heap.read_v (heap s3) (get_orec addr) = last_complete (clk s3) /\
    Heap.stores (heap s3) =
      Heap.stores (heap s) ++
      [Heap.StOrecV (get_orec addr) (last_complete (clk s3));
       Heap.StWord addr (Z.lor (Z.ldiff (Heap.load (heap s) addr) mask) (Z.land val mask))].
Proof.
  intros Hord Hts Hq.
  assert (Hw : Word.to_uintptr (Word.to_intptr (Word.to_uintptr (1 + timestamp (clk s)))) =
               Word.to_uintptr (timestamp (clk s) + 1)).
  { rewrite WordFacts.to_uintptr_to_intptr, WordFacts.to_uintptr_idem.
    f_equal. lia. }
  unfold PipelineTurboBegin. cbv zeta.
  cbn [on_self on_clk self clk heap call_hook order].
  rewrite Hord. cbn [Z.eqb Pos.eqb].
  cbn [on_self on_clk self clk heap set_ts_cache set_order set_timestamp
       order ts_cache last_complete timestamp].
  rewrite (fresh_order_pred _ Hts), Hq, Z.eqb_refl.
  eexists. eexists. eexists.
  split; [reflexivity|]. split; [reflexivity|].
  unfold PipelineTurboWriteTurbo. cbv zeta.
  split; [reflexivity|].
  unfold PipelineTurboReadTurbo, PipelineTurboCommitTurbo. cbv zeta.
  cbn [on_self on_clk on_heap self clk heap GoTurbo set_mode set_ts_cache
       set_order order].
  split.
  { f_equal. unfold Heap.store_masked. rewrite HeapFacts.load_store_eq.
    reflexivity. }
  split; [reflexivity|]. cbn.
  rewrite Hw.
  repeat split.
  - unfold Heap.store_masked. rewrite HeapFacts.load_store_eq. reflexivity.
  - unfold Heap.store_masked. rewrite HeapFacts.read_v_store.
    apply HeapFacts.read_v_set_v_eq.
  - by rewrite <- app_assoc.
Qed.

(** No orec of the read log is above [ts_cache]. *)
Definition validated (s : State) : Prop :=
  Forall (fun o => ~ outdated s o) (r_orecs (self s)).

(** X5.  A read of a read-only transaction (empty write set) with a valid
    read log, no other thread running.  It aborts, the state untouched,
    when the orec of the address is above [ts_cache].  Otherwise it
    returns the word in memory and logs the orec; nothing is stored, the
    clock, the order and the dispatch are unchanged; the read log is still
    valid, [ts_cache] has not decreased and is at least [last_complete]
    (the transaction has validated against every commit completed so
    far).  When it is the turn of the transaction, the read-only commit
    that follows returns. *)
Theorem read_only_read_keeps_log_valid (ours : bool) (addr : Z) (s : State) :
  writes (self s) = [] ->
  validated s ->
  (outdated s (get_orec addr) -> PipelineTurboReadRO [] addr s = Aborts s) /\
  (~ outdated s (get_orec addr) ->
   exists s',
     PipelineTurboReadRO [] addr s = Returns (Heap.load (heap s) addr) s' /\
     heap s' = heap s /\
     clk s' = clk s /\
     order (self s') = order (self s) /\
     mode (self s') = mode (self s) /\
     r_orecs (self s') = r_orecs (self s) ++ [get_orec addr] /\
     validated s' /\
     ts_cache (self s) <= ts_cache (self s') /\
     last_complete (clk s') <= ts_cache (self s') /\
     (oldest_at (last_complete (clk s)) s ->
      exists s'', PipelineTurboCommitRO ours s' = Returns tt s'')).
Proof.
  intros Hws Hval. destruct s as [tx c h]. cbn [self clk heap] in *.
  unfold PipelineTurboReadRO, check_and_log, others. cbv zeta.
  cbn [nth on_heap on_self self clk heap set_r_orecs ts_cache r_orecs].
  unfold outdated at 1 2. cbn [self heap].
  split.
  - intros Hout. apply Z.ltb_lt in Hout. rewrite Hout. reflexivity.
  - intros Hfresh.
    replace (ts_cache tx <? Heap.read_v h (get_orec addr)) with false
      by (symmetry; apply Z.ltb_ge; lia).
    assert (Hval' : forall n,
      ts_cache tx <= n ->
      Forall (fun o => ~ outdated {| self := set_ts_cache n (set_r_orecs (r_orecs tx ++ [get_orec addr]) tx);
                                     clk := c; heap := h |} o)
             (r_orecs tx ++ [get_orec addr])).
    { intros n Hn. apply Forall_app. split.
      - eapply Forall_impl; [exact Hval|]. unfold outdated. cbn. intros o Ho. lia.
      - apply Forall_singleton. unfold outdated. cbn. lia. }
    destruct (ts_cache tx <? last_complete c) eqn:Hnew.
    + apply Z.ltb_lt in Hnew.
      unfold PipelineTurboValidate.
      rewrite check_reads_current.
      2: { cbn [self r_orecs set_r_orecs]. apply Forall_app. split.
           - eapply Forall_impl; [exact Hval|]. unfold outdated. cbn. auto.
           - apply Forall_singleton. unfold outdated. cbn. lia. }
      cbn [bind]. cbv zeta.
      cbn [on_self on_heap self clk heap set_ts_cache set_r_orecs writes ts_cache order].
      rewrite Hws. cbn [WriteSet.size length Z.of_nat Z.eqb negb].
      destruct (_ =? _); cbn [bind].
      all: eexists; split; [reflexivity|]; cbn.
      all: repeat split; try lia.
      all: try (apply Hval'; lia).
      all: intros Hturn; unfold PipelineTurboCommitRO;
        rewrite wait_turn_in_turn by exact Hturn; cbn [bind];
        rewrite check_reads_current by (apply Hval'; lia);
        cbn [bind]; eexists; reflexivity.
    + apply Z.ltb_ge in Hnew. cbn [bind].
      eexists. split; [reflexivity|]. cbn.
      repeat split; try lia.
      * unfold validated. cbn.
        apply Forall_app. split.
        -- eapply Forall_impl; [exact Hval|]. unfold outdated. cbn. auto.
        -- apply Forall_singleton. unfold outdated. cbn. lia.
      * intros Hturn. unfold PipelineTurboCommitRO.
        rewrite wait_turn_in_turn by exact Hturn. cbn [bind].
        rewrite check_reads_current; [cbn [bind]; eexists; reflexivity|].
        cbn. apply Forall_app. split.
        -- eapply Forall_impl; [exact Hval|]. unfold outdated. cbn. auto.
        -- apply Forall_singleton. unfold outdated. cbn. lia.
Qed.

End Transactions.

(** A descriptor without an order on a quiescent clock. *)
Definition demo_fresh : State :=
  {| self := {| start_time := 0; ts_cache := 0; order := -1; my_lock := 0;
                r_orecs := []; writes := []; locks := []; mode := ReadOnly;
                aborts := 0; commits_ro := 0; commits_rw := 0; hooks := [] |};
     clk := {| timestamp := 5; timestamp_max := 0; last_complete := 5 |};
     heap := {| Heap.mem := {[ 40 := 256 ]};
                Heap.orecs := {[ 5 := {| Heap.v_all := 2; Heap.p := 0 |} ]};
                Heap.stores := [] |} |}.

Lemma writing_commit_publishes_witness :
  exists s',
    PipelineTurboCommitRW Demo.get_orec true demo_oldest_writer = Returns tt s' /\
    Heap.load (heap s') 40 = 7 /\
    Heap.read_v (heap s') (Demo.get_orec 40) = last_complete (clk s').
Proof.
  destruct (writing_commit_publishes Demo.get_orec true demo_oldest_writer)
    as (s' & Hrun & Hmark & _ & Hload & _);
    [reflexivity | repeat constructor; vm_compute; discriminate |].
  exists s'. split; [exact Hrun|]. split.
  - apply (Hload {| WriteSet.addr := 40; WriteSet.val := 7; WriteSet.mask := 255 |}).
    + repeat constructor. set_solver.
    + set_solver.
  - apply (Hmark {| WriteSet.addr := 40; WriteSet.val := 7; WriteSet.mask := 255 |}).
    set_solver.
Defined.

Lemma fresh_begin_takes_next_order_witness :
  exists s',
    PipelineTurboBegin demo_fresh = Returns tt s' /\
    timestamp (clk s') = 6 /\
    mode (self s') = Turbo.
Proof.
  destruct (fresh_begin_takes_next_order demo_fresh)
    as (s' & Hrun & _ & Hts & _ & _ & _ & Hturbo & _);
    [reflexivity | vm_compute; split; [discriminate|reflexivity] |].
  exists s'. split; [exact Hrun|]. split; [exact Hts|].
  apply Hturbo. left. reflexivity.
Defined.

Lemma turbo_transaction_alone_witness :
  exists s3,
    (_ <- PipelineTurboBegin demo_fresh ;;
     fun s => _ <- PipelineTurboWriteTurbo Demo.get_orec 40 7 255 s ;;
     PipelineTurboCommitTurbo) = Returns tt s3 /\
    last_complete (clk s3) = timestamp (clk s3) /\
    order (self s3) = -1 /\
    Heap.load (heap s3) 40 = 263.
Proof.
  destruct (turbo_transaction_alone Demo.get_orec 40 7 255 demo_fresh)
    as (s1 & s2 & s3 & H1 & _ & H2 & _ & H3 & _ & Hq & Ho & _ & Hl & _);
    [reflexivity | vm_compute; split; [discriminate|reflexivity] | reflexivity |].
  exists s3. rewrite H1. cbn [bind]. rewrite H2. cbn [bind].
  split; [exact H3|]. split; [exact Hq|]. split; [exact Ho|exact Hl].
Defined.

Lemma read_only_read_keeps_log_valid_witness :
  exists s',
    PipelineTurboReadRO Demo.get_orec [] 48 demo_oldest_reader = Returns 0 s' /\
    ts_cache (self s') = 4 /\
    exists s'', PipelineTurboCommitRO true s' = Returns tt s''.
Proof.
  destruct (read_only_read_keeps_log_valid Demo.get_orec true 48 demo_oldest_reader)
    as [_ Hread];
    [reflexivity | repeat constructor; vm_compute; discriminate |].
  destruct Hread as (s' & Hrun & _ & _ & _ & _ & _ & _ & _ & _ & Hcommit);
    [vm_compute; discriminate|].
  exists s'. split; [exact Hrun|]. split.
  - vm_compute in Hrun. injection Hrun as <-. reflexivity.
  - apply Hcommit. reflexivity.
Defined.

End PipelineTurbo.
